(** * Ordered collector and rate-limited queue: a shallow embedding

    This development embeds the three stateful pieces of the node
    collection into Rocq and proves their documented properties:

    - the position tagger   ([rp-array-in],  [resolveArrayPosition]),
    - the ordered collector ([rp-array-out], src/nodes/io/array-out.js),
    - the rate-limited queue ([rp-queue], two implementations).

    It then embeds further nodes and helpers and proves what their code
    shows:

    - the array selector ([rp-array-select], [parseSelection]),
    - the key of the performance metrics ([getPerformanceKey]),
    - the extensions and file names of the file sink ([rp-save-file]),
    - the event-loop watchdog ([rp-block-detect]).

    Modelling conventions.

    - JavaScript values are the inductive [JsVal].  A number is an
      integer ([JNum z], where an integer of magnitude [2^1024] or more
      stands for the infinity of its sign), NaN ([JNaN]) or a finite
      number that is not an integer, given by its decimal digits
      ([JDec]).  Integers are not rounded to doubles, except where the
      code parses or prints them: [parseInt] rounds to the nearest
      double and returns [None] for NaN, and [String] prints the
      shortest digits.  Negative zero is zero.  An infinite elapsed time
      is [None].
    - Strings are sequences of UTF-8 bytes; the white space that is
      trimmed is the Unicode white space of ECMAScript.
    - An object is an association list of own properties.  Assignment to
      a property of a primitive is silently ignored (the files are not in
      strict mode); named properties of arrays are not represented.
    - Every handler run reads the clock once: [Date.now()] is the
      parameter [now] of the handler.
    - The host (message routing, property paths, context stores) is the
      record [Host]; a host call that throws returns [None].
    - The timer service is an explicit table of outstanding callbacks.
    - What a handler does to the outside world is the list [Out] it
      returns, in program order. *)

From stdpp Require Import gmap strings list sorting pretty fin_maps.
From Stdlib Require Import ZArith QArith Qminmax Lia Ascii.

Set Warnings "-register-all,-clear-no-such-hyp".
Open Scope Z_scope.

(** ** JavaScript values

    [JNum z] is the number whose value is the integer [z]; an integer of
    magnitude [2^1024] or more stands for the infinity of its sign.
    [JNaN] is NaN.  [JDec neg s n] is the finite number whose value is
    [s * 10^(n - k)], negated when [neg], where [k] is the number of
    decimal digits of [s]: the form in which [Number::toString] reads a
    number, used here for the numbers that are not integers. *)

Inductive JsVal : Type :=
| JUndefined
| JNull
| JBool (b : bool)
| JNum (z : Z)
| JNaN
| JDec (negative : bool) (digits : positive) (point : Z)
| JStr (s : string)
| JArr (elems : list JsVal)
| JObj (props : list (string * JsVal)).

Module Js.

(** [typeof v === 'number'] *)
Definition isNumber (v : JsVal) : bool :=
  match v with JNum _ | JNaN | JDec _ _ _ => true | _ => false end.

(** [v === undefined] *)
Definition isUndefined (v : JsVal) : bool :=
  match v with JUndefined => true | _ => false end.

(** [v === null || v === undefined] *)
Definition isNullish (v : JsVal) : bool :=
  match v with JUndefined | JNull => true | _ => false end.

(** ToBoolean: the falsy values are undefined, null, false, 0, NaN and
    ''. *)
Definition truthy (v : JsVal) : bool :=
  match v with
  | JUndefined | JNull => false
  | JBool b => b
  | JNum z => negb (z =? 0)
  | JNaN => false
  | JDec _ _ _ => true
  | JStr s => negb (String.eqb s "")
  | JArr _ | JObj _ => true
  end.

(** *** Numbers as doubles *)

(** The least magnitude that is an infinity. *)
Definition INFINITY : Z := 2 ^ 1024.

(** [Number.isInteger(z)] for the number [JNum z] *)
Definition isInteger (z : Z) : bool := Z.abs z <? INFINITY.

(** The double nearest to the integer [z >= 0], ties going to the even
    mantissa of 53 bits; from [2^1024 - 2^970] on it is the infinity. *)
Definition nearestDouble (z : Z) : Z :=
  let e := Z.log2 z in
  if e <? 53 then z
  else
    let sh := e - 52 in
    let m := Z.shiftr z sh in
    let r := z - Z.shiftl m sh in
    let half := Z.shiftl 1 (sh - 1) in
    let m' := if (half <? r) || ((r =? half) && Z.odd m) then m + 1 else m in
    Z.min (Z.shiftl m' sh) INFINITY.

(** The number of decimal digits of [z >= 0]. *)
Definition digitCount (z : Z) : Z := Z.of_nat (String.length (pretty z)).

Fixpoint zeros (n : nat) : string :=
  match n with
  | O => ""
  | S n' => String "0" (zeros n')
  end.

(** [z] without its trailing zeros, for [z > 0]. *)
Fixpoint stripZeros (fuel : nat) (z : Z) : Z :=
  match fuel with
  | O => z
  | S fuel' => if z mod 10 =? 0 then stripZeros fuel' (z / 10) else z
  end.

(** The decimal that [Number::toString] prints for the double [z], an
    integer with [2^53 <= z < 2^1024]: of the decimals that no other
    double is nearer to, one with the fewest significant digits, and of
    these the nearest to [z].  The interval of these decimals reaches half
    way to the next double on both sides (the doubles are twice as dense
    below a power of two) and holds its ends when the mantissa is even;
    it is computed in quarters of a unit. *)
Definition shortestDecimal (z : Z) : Z :=
  let e := Z.log2 z in
  let sh := e - 52 in
  let m := Z.shiftr z sh in
  let above := 2 * 2 ^ sh in
  let below := if m =? 2 ^ 52 then 2 ^ sh else 2 * 2 ^ sh in
  let inside (v : Z) : bool :=
    if Z.even m
    then (4 * z - below <=? 4 * v) && (4 * v <=? 4 * z + above)
    else (4 * z - below <? 4 * v) && (4 * v <? 4 * z + above) in
  let n := digitCount z in
  (fix search (fuel : nat) (k : Z) {struct fuel} : Z :=
     match fuel with
     | O => z
     | S fuel' =>
         let scale := 10 ^ (n - k) in
         let lo := z / scale * scale in
         let hi := lo + scale in
         match inside lo, inside hi with
         | true, true =>
             if z - lo <? hi - z then lo
             else if hi - z <? z - lo then hi
             else if Z.even (z / scale) then lo else hi
         | true, false => lo
         | false, true => hi
         | false, false => search fuel' (k + 1)
         end
     end) (Z.to_nat n) 1.

(** [Number::toString] on the finite number [s * 10^(n - k)], [s > 0]
    having [k] digits. *)
Definition renderDecimal (s n : Z) : string :=
  let ds := pretty s in
  let k := Z.of_nat (String.length ds) in
  if (k <=? n) && (n <=? 21) then ds +:+ zeros (Z.to_nat (n - k))
  else if (0 <? n) && (n <=? 21)
  then String.substring 0 (Z.to_nat n) ds +:+ "." +:+
       String.substring (Z.to_nat n) (Z.to_nat (k - n)) ds
  else if (-6 <? n) && (n <=? 0) then "0." +:+ zeros (Z.to_nat (- n)) +:+ ds
  else
    let e := n - 1 in
    let exponent := (if e <? 0 then "-" else "+") +:+ pretty (Z.abs e) in
    if k =? 1 then ds +:+ "e" +:+ exponent
    else String.substring 0 1 ds +:+ "." +:+ String.substring 1 (Z.to_nat (k - 1)) ds
         +:+ "e" +:+ exponent.

(** [String(x)] for the number [JNum z], [z >= 0]. *)
Definition renderInteger (z : Z) : string :=
  if z <? 2 ^ 53 then pretty z
  else if INFINITY <=? z then "Infinity"
  else
    let v := shortestDecimal z in
    renderDecimal (stripZeros (Z.to_nat (digitCount v)) v) (digitCount v).

(** [String(v)] *)
Fixpoint ToString (v : JsVal) : string :=
  match v with
  | JUndefined => "undefined"
  | JNull => "null"
  | JBool true => "true"
  | JBool false => "false"
  | JNum z =>
      if z <? 0 then "-" +:+ renderInteger (- z) else renderInteger z
  | JNaN => "NaN"
  | JDec negative s n =>
      (if negative then "-" else "")
      +:+ renderDecimal
            (stripZeros (Z.to_nat (digitCount (Zpos s))) (Zpos s)) n
  | JStr s => s
  | JArr l =>
      (fix join (l : list JsVal) : string :=
         match l with
         | [] => ""
         | x :: r =>
             let sx := match x with
                       | JUndefined | JNull => ""
                       | _ => ToString x
                       end in
             match r with
             | [] => sx
             | _ => sx +:+ "," +:+ join r
             end
         end) l
  | JObj _ => "[object Object]"
  end.

(** *** White space

    The white space and line terminators that [trim] and [parseInt]
    skip.  A string is the UTF-8 form of the JavaScript string, so the
    characters beyond ASCII take two or three bytes. *)

Definition byte (a : ascii) : Z := Z.of_N (N_of_ascii a).

(** U+0009 to U+000D and U+0020 *)
Definition isWhite (a : ascii) : bool :=
  let n := Z.of_N (N_of_ascii a) in
  ((9 <=? n) && (n <=? 13)) || (n =? 32).

(** U+00A0 *)
Definition isWhite2 (a b : ascii) : bool :=
  (byte a =? 194) && (byte b =? 160).

(** U+1680, U+2000 to U+200A, U+2028, U+2029, U+202F, U+205F, U+3000 and
    U+FEFF *)
Definition isWhite3 (a b c : ascii) : bool :=
  ((byte a =? 225) && (byte b =? 154) && (byte c =? 128))
  || ((byte a =? 226) && (byte b =? 128)
      && (((128 <=? byte c) && (byte c <=? 138)) || (byte c =? 168)
          || (byte c =? 169) || (byte c =? 175)))
  || ((byte a =? 226) && (byte b =? 129) && (byte c =? 159))
  || ((byte a =? 227) && (byte b =? 128) && (byte c =? 128))
  || ((byte a =? 239) && (byte b =? 187) && (byte c =? 191)).

(** The string without its leading white space; with [backwards] the
    bytes of every character come last byte first. *)
Fixpoint skipWhite (backwards : bool) (s : string) : string :=
  match s with
  | EmptyString => EmptyString
  | String a r =>
      if isWhite a then skipWhite backwards r
      else
        match r with
        | String b r2 =>
            if (if backwards then isWhite2 b a else isWhite2 a b)
            then skipWhite backwards r2
            else
              match r2 with
              | String c r3 =>
                  if (if backwards then isWhite3 c b a else isWhite3 a b c)
                  then skipWhite backwards r3
                  else s
              | EmptyString => s
              end
        | EmptyString => s
        end
  end.

Definition trimStart (s : string) : string := skipWhite false s.

Fixpoint revString (acc s : string) : string :=
  match s with
  | EmptyString => acc
  | String a r => revString (String a acc) r
  end.

(** [s.trim()] *)
Definition trim (s : string) : string :=
  revString "" (skipWhite true (revString "" (trimStart s))).

(** Value of a digit character in radixes up to 36. *)
Definition digitVal (a : ascii) : option Z :=
  let n := Z.of_N (N_of_ascii a) in
  if (48 <=? n) && (n <=? 57) then Some (n - 48)
  else if (97 <=? n) && (n <=? 122) then Some (n - 87)
  else if (65 <=? n) && (n <=? 90) then Some (n - 55)
  else None.

(** The longest prefix of digits of radix [R]; [None] when it is empty. *)
Fixpoint parseDigits (R : Z) (acc : option Z) (s : string) : option Z :=
  match s with
  | EmptyString => acc
  | String a r =>
      match digitVal a with
      | Some d =>
          if d <? R then parseDigits R (Some (default 0 acc * R + d)) r
          else acc
      | None => acc
      end
  end.

Definition stripHexPrefix (s : string) : option string :=
  match s with
  | String "0" (String "x" r) => Some r
  | String "0" (String "X" r) => Some r
  | _ => None
  end.

(** [parseInt(v, radix)]; [radix = None] is the one-argument call.
    [None] is NaN.  The integer that the digits denote is rounded to the
    nearest double, as it is for the radixes 10 and 16 that the code
    uses. *)
Definition parseInt (radix : option Z) (v : JsVal) : option Z :=
  let S0 := trimStart (ToString v) in
  let '(sign, S1) :=
    match S0 with
    | String "-" r => (-1, r)
    | String "+" r => (1, r)
    | _ => (1, S0)
    end in
  let R0 := default 0 radix in
  if negb (R0 =? 0) && ((R0 <? 2) || (36 <? R0)) then None
  else
    let stripPrefix := (R0 =? 0) || (R0 =? 16) in
    let R1 := if R0 =? 0 then 10 else R0 in
    let '(R, S2) :=
      match (if stripPrefix then stripHexPrefix S1 else None) with
      | Some r => (16, r)
      | None => (R1, S1)
      end in
    (fun n => sign * nearestDouble n) <$> parseDigits R None S2.

(** *** Numbers against integers *)

(** The value of [JDec neg s n] is [a * 10^e] for this [a] and [e]. *)
Definition mantissa (negative : bool) (s : positive) : Z :=
  if negative then Zneg s else Zpos s.

Definition exponent (s : positive) (n : Z) : Z := n - digitCount (Zpos s).

(** Every integer of magnitude [2^1024] or more is the one infinity of
    its sign. *)
Definition clamp (z : Z) : Z := Z.max (- INFINITY) (Z.min INFINITY z).

(** [v < z] for a number [v]; NaN is below nothing. *)
Definition lessThan (v : JsVal) (z : Z) : bool :=
  match v with
  | JNum p => clamp p <? clamp z
  | JDec negative s n =>
      let a := mantissa negative s in
      let e := exponent s n in
      if 0 <=? e then clamp (a * 10 ^ e) <? clamp z
      else a <? clamp z * 10 ^ (- e)
  | _ => false
  end.

(** [v >= z] for a number [v]; NaN is above nothing. *)
Definition atLeast (v : JsVal) (z : Z) : bool :=
  match v with
  | JNum p => clamp z <=? clamp p
  | JDec negative s n =>
      let a := mantissa negative s in
      let e := exponent s n in
      if 0 <=? e then clamp z <=? clamp (a * 10 ^ e)
      else clamp z * 10 ^ (- e) <=? a
  | _ => false
  end.

(** The integer a number is, when it is one; for an infinity, the
    integer that stands for it. *)
Definition integerOf (v : JsVal) : option Z :=
  match v with
  | JNum p => Some p
  | JDec negative s n =>
      let a := mantissa negative s in
      let e := exponent s n in
      if 0 <=? e then Some (a * 10 ^ e)
      else if a mod 10 ^ (- e) =? 0 then Some (a / 10 ^ (- e))
      else None
  | _ => None
  end.

Fixpoint assocGet (k : string) (ps : list (string * JsVal)) : option JsVal :=
  match ps with
  | [] => None
  | (k', v) :: r => if String.eqb k k' then Some v else assocGet k r
  end.

Fixpoint assocSet (k : string) (v : JsVal) (ps : list (string * JsVal))
  : list (string * JsVal) :=
  match ps with
  | [] => [(k, v)]
  | (k', v') :: r =>
      if String.eqb k k' then (k, v) :: r else (k', v') :: assocSet k v r
  end.

(** [o.k] for a value [o] that is not null or undefined. *)
Definition getProp (o : JsVal) (k : string) : JsVal :=
  match o with
  | JObj ps => default JUndefined (assocGet k ps)
  | _ => JUndefined
  end.

(** [o.k = v], returning the updated [o]. *)
Definition setProp (o : JsVal) (k : string) (v : JsVal) : JsVal :=
  match o with
  | JObj ps => JObj (assocSet k v ps)
  | _ => o
  end.

(** [typeof v === 'object'] for a plain object (not null, not an array). *)
Definition isObject (v : JsVal) : bool :=
  match v with JObj _ => true | _ => false end.

(** [o.a.k = v] where [o.a] is already known to be truthy. *)
Definition setProp2 (o : JsVal) (a k : string) (v : JsVal) : JsVal :=
  setProp o a (setProp (getProp o a) k v).

(** [s || d] on configuration strings. *)
Definition orDefault (s d : string) : string :=
  if String.eqb s "" then d else s.

(** A message whose [meta] is absent (or otherwise falsy) or a plain
    object: the shape the nodes read and write. *)
Definition plainMeta (m : JsVal) : Prop :=
  isObject m = true
  /\ (truthy (getProp m "meta") = false
      \/ isObject (getProp m "meta") = true).

(** [m.meta || {}] *)
Definition metaOrEmpty (m : JsVal) : JsVal :=
  if truthy (getProp m "meta") then getProp m "meta" else JObj [].

End Js.

(** ** Results, errors and outputs shared by the three nodes *)

Inductive JsError : Type :=
| HostError (what : string)
| InvalidPosition (resolved spec : JsVal).

Inductive Result (A : Type) : Type :=
| Ok (a : A)
| Throw (e : JsError).
Arguments Ok {A} a.
Arguments Throw {A} e.

Inductive Scope : Type := FlowScope | GlobalScope.

(** Text of [node.status] calls, by call site. *)
Inductive StatusText : Type :=
| StReady (expected : Z)
| StCollecting (collected : Z) (expected : Z)
| StComplete (len : Z) (elapsed : Z)
| StTimeout (collected : Z) (expected : Z)
| StPosition (p : Z)
| StInvalidPosition
| StIdle
| StQueued (len : Z)
| StSending (remaining : Z)
| StError
| StClear.

(** Text of [node.warn] calls, by call site. *)
Inductive Diagnostic : Type :=
| WMissingMeta
| WOutOfRange (position : JsVal) (expected : Z)
| WResolveFailed (e : JsError)
| WNoData (pathType path : string)
| WTimeoutDropped (count : Z)
| WCapacityDropped (capacity : Z)
| WCapacityIgnored (capacity : Z).

(** What a handler does to the outside, in the order it does it:
    [Send ch m] is [node.send] with [m] at output [ch] (1 is the first
    output, 2 the second), [CtxSet] a write to flow or global context,
    [Failed e] the report [done(err)] or [node.error(err, msg)]. *)
Inductive Out : Type :=
| Send (channel : nat) (m : JsVal)
| Warn (w : Diagnostic)
| Status (s : StatusText)
| CtxSet (sc : Scope) (key : string) (v : JsVal)
| Failed (e : JsError).

(** Messages sent on a channel, in order. *)
Definition sentOn (ch : nat) (outs : list Out) : list JsVal :=
  omap (fun o => match o with
                 | Send c m => if decide (c = ch) then Some m else None
                 | _ => None
                 end) outs.

Definition primary : nat := 1%nat.
Definition secondary : nat := 2%nat.

(** The host runtime ([RED.util], context stores), and the engine where
    the language leaves the outcome to it: [sortNumbers] is
    [Array.prototype.sort] with the comparator [(a, b) => a - b] on an
    array that holds NaN ([None]), for which the order is
    implementation-defined. *)
Record Host : Type := {
  evaluateNodeProperty : JsVal -> string -> JsVal -> option JsVal;
  getMessageProperty : JsVal -> string -> option JsVal;
  setMessageProperty : JsVal -> string -> JsVal -> option JsVal;
  contextGet : Scope -> string -> option JsVal;
  contextSet : Scope -> string -> JsVal -> bool;
  sortNumbers : list (option Z) -> list (option Z)
}.

(** ** Position tagger (rp-array-in) *)

Module ArrayIn.

Definition DEFAULT_ARRAY_POSITION : Z := 0.

(** [utils.resolveArrayPosition(node, type, value, msg)] *)
Definition resolveArrayPosition (h : Host) (type : string) (value msg : JsVal)
  : Result Z :=
  if Js.isNullish value || String.eqb (Js.trim (Js.ToString value)) ""
  then Ok DEFAULT_ARRAY_POSITION
  else
    let resolved :=
      if String.eqb type "msg" || String.eqb type "flow"
         || String.eqb type "global"
      then evaluateNodeProperty h value type msg
      else Some value in
    match resolved with
    | None => Throw (HostError "evaluateNodeProperty")
    | Some resolvedValue =>
        match Js.parseInt None resolvedValue with
        | None => Throw (InvalidPosition resolvedValue value)
        | Some numericValue =>
            if numericValue <? 0
            then Throw (InvalidPosition resolvedValue value)
            else Ok numericValue
        end
    end.

Record Node : Type := {
  inputPath : string;
  inputPathType : string;
  arrayPositionType : string;
  arrayPositionValue : JsVal
}.

(** The constructor: defaults for absent configuration fields. *)
Definition create (cInputPath cInputPathType cPositionType : string)
  (cPositionValue : JsVal) : Node :=
  {| inputPath := Js.orDefault cInputPath "payload";
     inputPathType := Js.orDefault cInputPathType "msg";
     arrayPositionType := Js.orDefault cPositionType "num";
     arrayPositionValue :=
       if Js.isUndefined cPositionValue then JNum 0 else cPositionValue |}.

(** Reading the data from the configured input path. *)
Definition readInput (h : Host) (node : Node) (msg : JsVal) : option JsVal :=
  if String.eqb (inputPathType node) "msg"
  then getMessageProperty h msg (inputPath node)
  else if String.eqb (inputPathType node) "flow"
  then contextGet h FlowScope (inputPath node)
  else if String.eqb (inputPathType node) "global"
  then contextGet h GlobalScope (inputPath node)
  else Some JUndefined.

(** The message after the tagger has written its metadata. *)
Definition tagMessage (node : Node) (msg : JsVal) (resolvedPosition : Z)
  (arrayData : JsVal) : JsVal :=
  let msg1 :=
    if Js.truthy (Js.getProp msg "meta") then msg
    else Js.setProp msg "meta" (JObj []) in
  let msg2 := Js.setProp2 msg1 "meta" "arrayPosition" (JNum resolvedPosition) in
  let msg3 := Js.setProp2 msg2 "meta" "arrayData" arrayData in
  let shouldMirrorPayload :=
    String.eqb (inputPathType node) "msg"
    && String.eqb (Js.trim (inputPath node)) "payload" in
  if shouldMirrorPayload then Js.setProp msg3 "payload" arrayData else msg3.

(** [node.on('input', ...)] *)
Definition input (h : Host) (node : Node) (msg : JsVal) : list Out :=
  match resolveArrayPosition h (arrayPositionType node)
          (arrayPositionValue node) msg with
  | Throw e => [Warn (WResolveFailed e); Status StInvalidPosition]
  | Ok resolvedPosition =>
      match readInput h node msg with
      | None => [Status StError; Failed (HostError "input path")]
      | Some read =>
          let '(arrayData, warned) :=
            if Js.isUndefined read
            then (JNull, [Warn (WNoData (inputPathType node) (inputPath node))])
            else (read, []) in
          warned ++
          [Status (StPosition resolvedPosition);
           Send primary (tagMessage node msg resolvedPosition arrayData)]
      end
  end.

End ArrayIn.

(** ** The timer service

    [setTimeout] registers a callback and returns a fresh handle;
    [clearTimeout] removes it; a timer that fires leaves the table
    before its callback runs.  A handle fires at most once and never
    after it has been cleared. *)

Module Timers.

Definition Handle : Type := nat.

Record Timer (C : Type) : Type := {
  handle : Handle;
  callback : C;
  due : Z
}.
Arguments handle {C} t.
Arguments callback {C} t.
Arguments due {C} t.

Record Table (C : Type) : Type := {
  pending : list (Timer C);
  nextHandle : Handle
}.
Arguments pending {C} t.
Arguments nextHandle {C} t.

Definition empty {C : Type} : Table C :=
  {| pending := []; nextHandle := 1%nat |}.

(** A delay below 1 ms is set to 1 ms.  A delay above [2^31 - 1] ms,
    which Node.js sets to 1 ms as well, is taken as it is: what is said
    of the time a timer is due holds for delays up to [2^31 - 1] ms. *)
Definition clampDelay (delay : Z) : Z :=
  if delay <? 1 then 1 else delay.

Definition setTimeout {C : Type} (cb : C) (delay now : Z) (t : Table C)
  : Handle * Table C :=
  (nextHandle t,
   {| pending := pending t ++
                 [{| handle := nextHandle t; callback := cb;
                     due := now + clampDelay delay |}];
      nextHandle := S (nextHandle t) |}).

Definition clearTimeout {C : Type} (h : Handle) (t : Table C) : Table C :=
  {| pending := filter (fun x => handle x ≠ h) (pending t);
     nextHandle := nextHandle t |}.

Definition find {C : Type} (h : Handle) (t : Table C) : option (Timer C) :=
  list_find (fun x => handle x = h) (pending t) ≫= fun ix => Some ix.2.

(** Handles of the outstanding timers whose callback satisfies [p]. *)
Definition outstanding {C : Type} (p : C -> bool) (t : Table C)
  : list Handle :=
  handle <$> filter (fun x => p (callback x) = true) (pending t).

(** Handles are unique and below the next fresh handle. *)
Definition wf {C : Type} (t : Table C) : Prop :=
  NoDup (handle <$> pending t)
  /\ Forall (fun x => (handle x < nextHandle t)%nat) (pending t).

End Timers.

(** ** Ordered collector (rp-array-out) *)

Module ArrayOut.
Import Timers.

Record Config : Type := {
  timeout : Z;
  expectedCount : Z;
  outputPath : string;
  outputPathType : string
}.

(** The constructor: [parseInt(config.timeout) || 5000], and an
    [expectedCount] that is not an integer of at least 1 is replaced by 2
    after [node.error]. *)
Definition create (cTimeout cExpectedCount : JsVal)
  (cOutputPath cOutputPathType : string) : Config * list Out :=
  let t := match Js.parseInt None cTimeout with
           | Some n => if n =? 0 then 5000 else n
           | None => 5000
           end in
  let '(n, errs) :=
    match Js.parseInt None cExpectedCount with
    | Some n =>
        if negb (Js.isInteger n) || (n <? 1)
        then (2, [Failed (HostError "Invalid expectedCount")])
        else (n, [])
    | None => (2, [Failed (HostError "Invalid expectedCount")])
    end in
  ({| timeout := t; expectedCount := n;
      outputPath := Js.orDefault cOutputPath "payload";
      outputPathType := Js.orDefault cOutputPathType "msg" |},
   errs ++ [Status (StReady n)]).

Inductive Callback : Type := HandleTimeout | SetStatusReady.

Definition isHandleTimeout (c : Callback) : bool :=
  match c with HandleTimeout => true | SetStatusReady => false end.

(** The node's fields and the timers it has outstanding at the host.
    [node.collection] is an object: its properties named by an integer
    are the map [collection]; a position that is a number but not an
    integer (NaN, a fraction) names a property by its text, and these
    properties are the list [strays], in the order they were added. *)
Record State : Type := {
  collection : gmap Z JsVal;
  strays : list (string * JsVal);
  timeoutHandle : option Handle;
  isCollecting : bool;
  collectionStartTime : option Z;
  timers : Table Callback
}.

Definition initial : State :=
  {| collection := ∅; strays := []; timeoutHandle := None;
     isCollecting := false; collectionStartTime := None;
     timers := Timers.empty |}.

(** Handlers are state transformers that log their outputs and may
    throw; a throw keeps the state and the outputs reached so far. *)
Definition M (A : Type) : Type := State -> Result A * State * list Out.

Definition ret {A : Type} (a : A) : M A := fun s => (Ok a, s, []).

Definition bind {A B : Type} (m : M A) (k : A -> M B) : M B := fun s =>
  match m s with
  | (Ok a, s1, o1) =>
      match k a s1 with
      | (r, s2, o2) => (r, s2, o1 ++ o2)
      end
  | (Throw e, s1, o1) => (Throw e, s1, o1)
  end.

Definition throw {A : Type} (e : JsError) : M A := fun s => (Throw e, s, []).

Definition tryCatch {A : Type} (body : M A) (handler : JsError -> M A)
  : M A := fun s =>
  match body s with
  | (Ok a, s1, o1) => (Ok a, s1, o1)
  | (Throw e, s1, o1) =>
      match handler e s1 with
      | (r, s2, o2) => (r, s2, o1 ++ o2)
      end
  end.

Definition emit (o : Out) : M unit := fun s => (Ok tt, s, [o]).
Definition gets {A : Type} (f : State -> A) : M A := fun s => (Ok (f s), s, []).
Definition modify (f : State -> State) : M unit := fun s => (Ok tt, f s, []).

Declare Scope js_scope.
Delimit Scope js_scope with js.
Notation "x <- m ;; k" := (bind m (fun x => k))
  (at level 100, m at next level, right associativity) : js_scope.
Notation "m ;; k" := (bind m (fun _ => k))
  (at level 100, right associativity) : js_scope.
Open Scope js_scope.

Definition armTimer (cb : Callback) (delay now : Z) : M Handle := fun s =>
  let '(h, t) := setTimeout cb delay now (timers s) in
  (Ok h,
   {| collection := collection s; strays := strays s;
      timeoutHandle := timeoutHandle s;
      isCollecting := isCollecting s;
      collectionStartTime := collectionStartTime s; timers := t |}, []).

Definition setStatusReady (cfg : Config) : M unit :=
  emit (Status (StReady (expectedCount cfg))).

Definition resetCollection : M unit :=
  modify (fun s =>
    {| collection := ∅;
       strays := [];
       timeoutHandle := None;
       isCollecting := false;
       collectionStartTime := None;
       timers := match timeoutHandle s with
                 | Some h => clearTimeout h (timers s)
                 | None => timers s
                 end |}).

(** The greatest length of an array. *)
Definition MAX_ARRAY_LENGTH : Z := 4294967295.

(** The array [i => hasOwnProperty(i) ? collection[i] : null] of length
    [expectedCount]. *)
Definition buildResult (cfg : Config) (c : gmap Z JsVal) : list JsVal :=
  (fun i => default JNull (c !! i)) <$> seqZ 0 (expectedCount cfg).

(** [Array.from({length: expectedCount}, ...)]: a length above
    [2^32 - 1] is a RangeError. *)
Definition arrayFrom (cfg : Config) (c : gmap Z JsVal) : M (list JsVal) :=
  if MAX_ARRAY_LENGTH <? expectedCount cfg
  then throw (HostError "Invalid array length")
  else ret (buildResult cfg c).

(** The indices of the collection, ascending. *)
Definition indices (c : gmap Z JsVal) : list Z :=
  merge_sort Z.le ((map_to_list c).*1).

(** [Object.keys(node.collection)]: the indices in ascending order, then
    the other names in the order they were added.  (An index of
    [2^32 - 1] or more comes among the other names in JavaScript; the
    order is read by the timeout report only, which is sent when
    [expectedCount], and with it every index, is below [2^32].) *)
Definition keys (c : gmap Z JsVal) (others : list (string * JsVal))
  : list string :=
  ((fun i => Js.ToString (JNum i)) <$> indices c) ++ others.*1.

(** [l.sort((a, b) => a - b)]: ascending when no element is NaN, and
    what the engine makes of it otherwise. *)
Definition sortPositions (h : Host) (l : list (option Z))
  : list (option Z) :=
  match mapM id l with
  | Some zs => Some <$> merge_sort Z.le zs
  | None => sortNumbers h l
  end.

(** [Object.keys(node.collection).map(k => parseInt(k)).sort((a, b) =>
    a - b)] *)
Definition collectedPositions (h : Host) (c : gmap Z JsVal)
  (others : list (string * JsVal)) : list (option Z) :=
  sortPositions h ((fun k => Js.parseInt None (JStr k)) <$> keys c others).

Definition missingPositions (cfg : Config) (c : gmap Z JsVal) : list Z :=
  filter (fun i => c !! i = None) (seqZ 0 (expectedCount cfg)).

(** Place the array where the user wants it; returns the message. *)
Definition place (h : Host) (cfg : Config) (m : JsVal) (result : list JsVal)
  : M JsVal :=
  if String.eqb (outputPathType cfg) "msg" then
    match setMessageProperty h m (outputPath cfg) (JArr result) with
    | Some m' => ret m'
    | None => throw (HostError "setMessageProperty")
    end
  else if String.eqb (outputPathType cfg) "flow" then
    if contextSet h FlowScope (outputPath cfg) (JArr result)
    then emit (CtxSet FlowScope (outputPath cfg) (JArr result)) ;; ret m
    else throw (HostError "flow.set")
  else if String.eqb (outputPathType cfg) "global" then
    if contextSet h GlobalScope (outputPath cfg) (JArr result)
    then emit (CtxSet GlobalScope (outputPath cfg) (JArr result)) ;; ret m
    else throw (HostError "global.set")
  else ret m.

(** A parsed position as a number. *)
Definition parsed (p : option Z) : JsVal :=
  match p with
  | Some z => JNum z
  | None => JNaN
  end.

Definition timeoutMeta (cfg : Config) (missing : list Z)
  (collected : list (option Z)) (elapsed : Z) : JsVal :=
  JObj [("timeout", JBool true);
        ("missingPositions", JArr (JNum <$> missing));
        ("collectedPositions", JArr (parsed <$> collected));
        ("expectedCount", JNum (expectedCount cfg));
        ("collectedCount", JNum (Z.of_nat (length collected)));
        ("elapsed", JNum elapsed)].

Definition handleTimeout (h : Host) (cfg : Config) (now : Z) : M unit :=
  start <- gets collectionStartTime ;;
  c <- gets collection ;;
  others <- gets strays ;;
  let elapsed := now - default 0 start in
  let collected := collectedPositions h c others in
  let missing := missingPositions cfg c in
  result <- arrayFrom cfg c ;;
  let timeoutMsg := JObj [("meta", timeoutMeta cfg missing collected elapsed)] in
  m <- place h cfg timeoutMsg result ;;
  emit (Send secondary m) ;;
  emit (Status (StTimeout (Z.of_nat (length collected))
                  (expectedCount cfg))) ;;
  resetCollection ;;
  _ <- armTimer SetStatusReady 3000 now ;;
  ret tt.

Definition assembleAndOutput (h : Host) (cfg : Config) (sourceMsg : JsVal)
  (now : Z) : M unit :=
  start <- gets collectionStartTime ;;
  c <- gets collection ;;
  let elapsed := now - default 0 start in
  result <- arrayFrom cfg c ;;
  outMsg <- place h cfg sourceMsg result ;;
  emit (Status (StComplete (Z.of_nat (length result)) elapsed)) ;;
  emit (Send primary outMsg) ;;
  _ <- armTimer SetStatusReady 2000 now ;;
  resetCollection.

(** [msg.meta.arrayPosition] when the message has a [meta] and the
    position is a number. *)
Definition arrayPosition (msg : JsVal) : option JsVal :=
  if Js.truthy (Js.getProp msg "meta") then
    let position := Js.getProp (Js.getProp msg "meta") "arrayPosition" in
    if Js.isNumber position then Some position else None
  else None.

(** The position as an index: [msg.meta.arrayPosition] when it is a
    number and an integer (or an infinity, which the range check of the
    handler rejects). *)
Definition positionOf (msg : JsVal) : option Z :=
  arrayPosition msg ≫= Js.integerOf.

(** [meta.arrayData] when defined, else [payload]. *)
Definition dataOf (msg : JsVal) : JsVal :=
  if Js.truthy (Js.getProp msg "meta")
     && negb (Js.isUndefined (Js.getProp (Js.getProp msg "meta") "arrayData"))
  then Js.getProp (Js.getProp msg "meta") "arrayData"
  else Js.getProp msg "payload".

Definition startCollection (cfg : Config) (now : Z) : M unit :=
  modify (fun s =>
    {| collection := ∅; strays := []; timeoutHandle := timeoutHandle s;
       isCollecting := true; collectionStartTime := Some now;
       timers := timers s |}) ;;
  hd <- armTimer HandleTimeout (timeout cfg) now ;;
  modify (fun s =>
    {| collection := collection s; strays := strays s;
       timeoutHandle := Some hd;
       isCollecting := isCollecting s;
       collectionStartTime := collectionStartTime s;
       timers := timers s |}) ;;
  emit (Status (StCollecting 1 (expectedCount cfg))).

(** [node.collection[position] = data]: an integer names an index, every
    other number the property of its text. *)
Definition store (position : JsVal) (data : JsVal) : M unit :=
  modify (fun s =>
    {| collection := match Js.integerOf position with
                     | Some i => <[i := data]> (collection s)
                     | None => collection s
                     end;
       strays := match Js.integerOf position with
                 | Some _ => strays s
                 | None =>
                     Js.assocSet (Js.ToString position) data (strays s)
                 end;
       timeoutHandle := timeoutHandle s; isCollecting := isCollecting s;
       collectionStartTime := collectionStartTime s;
       timers := timers s |}).

(** [Object.keys(node.collection).length] *)
Definition count (s : State) : Z :=
  Z.of_nat (size (collection s) + length (strays s)).

(** [node.on('input', ...)] *)
Definition input (h : Host) (cfg : Config) (msg : JsVal) (now : Z) : M unit :=
  tryCatch
    (match arrayPosition msg with
     | None => emit (Warn WMissingMeta)
     | Some position =>
         if Js.lessThan position 0 || Js.atLeast position (expectedCount cfg)
         then emit (Warn (WOutOfRange position (expectedCount cfg)))
         else
           let data := dataOf msg in
           collecting <- gets isCollecting ;;
           (if collecting then ret tt else startCollection cfg now) ;;
           store position data ;;
           collected <- gets count ;;
           emit (Status (StCollecting collected (expectedCount cfg))) ;;
           if collected =? expectedCount cfg
           then assembleAndOutput h cfg msg now
           else ret tt
     end)
    (fun err =>
       emit (Status StError) ;;
       resetCollection ;;
       emit (Failed err)).

(** [node.on('close', ...)] *)
Definition close : M unit :=
  resetCollection ;; emit (Status StClear).

(** A timer fires: it leaves the table, then its callback runs. *)
Definition fire (h : Host) (cfg : Config) (hd : Handle) (now : Z) : M unit :=
  tm <- gets timers ;;
  match Timers.find hd tm with
  | None => ret tt
  | Some t =>
      modify (fun s =>
        {| collection := collection s; strays := strays s;
           timeoutHandle := timeoutHandle s;
           isCollecting := isCollecting s;
           collectionStartTime := collectionStartTime s;
           timers := clearTimeout hd (timers s) |}) ;;
      match callback t with
      | HandleTimeout => handleTimeout h cfg now
      | SetStatusReady => setStatusReady cfg
      end
  end.

Inductive Event : Type :=
| EInput (msg : JsVal)
| EFire (hd : Handle)
| EClose.

Definition step (h : Host) (cfg : Config) (ev : Event) (now : Z) : M unit :=
  match ev with
  | EInput msg => input h cfg msg now
  | EFire hd => fire h cfg hd now
  | EClose => close
  end.

(** Running a list of timestamped events; an uncaught throw of a timer
    callback is logged and the run goes on from the state it left. *)
Fixpoint run (h : Host) (cfg : Config) (evs : list (Event * Z)) (s : State)
  : State * list Out :=
  match evs with
  | [] => (s, [])
  | (ev, now) :: rest =>
      match step h cfg ev now s with
      | (r, s1, o1) =>
          let o1' := match r with
                     | Ok _ => o1
                     | Throw e => o1 ++ [Failed e]
                     end in
          let '(s2, o2) := run h cfg rest s1 in
          (s2, o1' ++ o2)
      end
  end.

(** A tagged item as the position tagger sends it. *)
Definition tagged (p : Z) (v : JsVal) : JsVal :=
  JObj [("meta", JObj [("arrayPosition", JNum p); ("arrayData", v)])].

End ArrayOut.

(** ** Rate-limited queue (rp-queue)

    The source holds two implementations of the queue node.  They share
    the configuration, the state and the timer handling, which are in
    [QueueCommon]; [Queue1] is the implementation that routes dropped
    messages to the second output, [Queue2] the one that drops them
    silently. *)

Module QueueCommon.
Import Timers.

Inductive Mode : Type := Legacy | TimeoutMode | QueueSizeMode.

Record Config : Type := {
  maxQueueSize : Z;
  intervalMs : Z;
  timeoutMs : Z;
  mode : Mode
}.

(** [Number.isInteger(parsed) && parsed > 0 ? parsed : 0] on
    [parseInt(value, 10)] *)
Definition positiveOrZero (v : JsVal) : Z :=
  match Js.parseInt (Some 10) v with
  | Some n => if Js.isInteger n && (0 <? n) then n else 0
  | None => 0
  end.

Definition create (cMaxQueueSize cInterval cTimeout : JsVal) (cMode : string)
  : Config :=
  {| maxQueueSize := positiveOrZero cMaxQueueSize;
     intervalMs := positiveOrZero cInterval;
     timeoutMs := positiveOrZero cTimeout;
     mode := if String.eqb cMode "timeout" then TimeoutMode
             else if String.eqb cMode "queue-size" then QueueSizeMode
             else Legacy |}.

Definition useQueueLimit (cfg : Config) : bool :=
  match mode cfg with TimeoutMode => false | _ => true end.

Definition useTimeout (cfg : Config) : bool :=
  match mode cfg with QueueSizeMode => false | _ => true end.

Record Entry : Type := {
  msg : JsVal;
  enqueuedAt : Z
}.

Inductive Callback : Type := SendFn.

Record State : Type := {
  queue : list Entry;
  timer : option Handle;
  lastSent : Z;
  timers : Table Callback
}.

Definition initial : State :=
  {| queue := []; timer := None; lastSent := 0; timers := Timers.empty |}.

Definition setQueue (q : list Entry) (s : State) : State :=
  {| queue := q; timer := timer s; lastSent := lastSent s;
     timers := timers s |}.

Definition setStatusQueued (s : State) : Out :=
  Status (StQueued (Z.of_nat (length (queue s)))).

Definition clearTimer (s : State) : State :=
  match timer s with
  | Some h =>
      {| queue := queue s; timer := None; lastSent := lastSent s;
         timers := clearTimeout h (timers s) |}
  | None => s
  end.

(** The [while] loop of [pruneExpired]: entries are shifted from the
    front while the oldest has been queued for [timeoutMs] or more. *)
Fixpoint shiftExpired (cfg : Config) (now : Z) (q : list Entry)
  : list Entry * list Entry :=
  match q with
  | [] => ([], [])
  | oldest :: rest =>
      if timeoutMs cfg <=? now - enqueuedAt oldest
      then let '(expired, kept) := shiftExpired cfg now rest in
           (oldest :: expired, kept)
      else ([], q)
  end.

(** [elapsed]: [None] is [Number.POSITIVE_INFINITY]. *)
Definition elapsedSince (s : State) (now : Z) : option Z :=
  if lastSent s =? 0 then None else Some (now - lastSent s).

(** [intervalMs > 0 && Number.isFinite(elapsed) && elapsed < intervalMs] *)
Definition tooSoon (cfg : Config) (s : State) (now : Z) : bool :=
  (0 <? intervalMs cfg)
  && match elapsedSince s now with
     | Some elapsed => elapsed <? intervalMs cfg
     | None => false
     end.

(** The capacity check of the input handler. *)
Definition atCapacity (cfg : Config) (s : State) : bool :=
  useQueueLimit cfg && (0 <? maxQueueSize cfg)
  && (maxQueueSize cfg <=? Z.of_nat (length (queue s))).

Inductive Event : Type :=
| EInput (m : JsVal)
| EFire (hd : Handle)
| EClose.

(** A log is the list of outputs with the time of the handler run that
    produced them. *)
Definition stamp (now : Z) (outs : list Out) : list (Z * Out) :=
  (fun o => (now, o)) <$> outs.

Definition sentAt (ch : nat) (log : list (Z * Out)) : list (Z * JsVal) :=
  omap (fun e => match e.2 with
                 | Send c m => if decide (c = ch) then Some (e.1, m) else None
                 | _ => None
                 end) log.

Section Run.
Variable step : Config -> Event -> Z -> State -> State * list Out.

Fixpoint run (cfg : Config) (evs : list (Event * Z)) (s : State)
  : State * list (Z * Out) :=
  match evs with
  | [] => (s, [])
  | (ev, now) :: rest =>
      let '(s1, o1) := step cfg ev now s in
      let '(s2, o2) := run cfg rest s1 in
      (s2, stamp now o1 ++ o2)
  end.

(** Letting the pending timer fire, again and again: the [k]-th firing
    comes when the timer is due or [lates !! k] ms later (the host never
    fires a timer early in this run). *)
Fixpoint drain (lates : list Z) (cfg : Config) (now : Z) (s : State)
  : State * list (Z * Out) :=
  match lates with
  | [] => (s, [])
  | late :: lates' =>
      match timer s ≫= fun hd => Timers.find hd (timers s) with
      | None => (s, [])
      | Some t =>
          let now' := Z.max now (due t) + Z.max late 0 in
          let '(s1, o1) := step cfg (EFire (handle t)) now' s in
          let '(s2, o2) := drain lates' cfg now' s1 in
          (s2, stamp now' o1 ++ o2)
      end
  end.

End Run.

End QueueCommon.

(** *** First implementation: drops go to the second output *)

Module Queue1.
Import Timers.
Export QueueCommon.

Definition markTimeout (cfg : Config) (now : Z) (entry : Entry) : JsVal :=
  let droppedMsg := msg entry in
  let m0 := Js.setProp droppedMsg "meta"
              (if Js.truthy (Js.getProp droppedMsg "meta")
               then Js.getProp droppedMsg "meta" else JObj []) in
  let m1 := Js.setProp2 m0 "meta" "queueDropped" (JBool true) in
  let m2 := Js.setProp2 m1 "meta" "queueDropReason" (JStr "timeout") in
  let m3 := Js.setProp2 m2 "meta" "queuedDuration"
              (JNum (now - enqueuedAt entry)) in
  Js.setProp2 m3 "meta" "queueTimeout" (JNum (timeoutMs cfg)).

Definition markOverflow (cfg : Config) (s : State) (m : JsVal) : JsVal :=
  let m0 := Js.setProp m "meta"
              (if Js.truthy (Js.getProp m "meta")
               then Js.getProp m "meta" else JObj []) in
  let m1 := Js.setProp2 m0 "meta" "queueDropped" (JBool true) in
  let m2 := Js.setProp2 m1 "meta" "queueDropReason" (JStr "overflow") in
  let m3 := Js.setProp2 m2 "meta" "queueSize"
              (JNum (Z.of_nat (length (queue s)))) in
  Js.setProp2 m3 "meta" "queueMaxSize" (JNum (maxQueueSize cfg)).

Definition pruneExpired (cfg : Config) (now : Z) (s : State)
  : State * list Out :=
  if negb (useTimeout cfg) || (timeoutMs cfg <=? 0)
     || (Z.of_nat (length (queue s)) =? 0)
  then (s, [])
  else
    let '(expiredEntries, kept) := shiftExpired cfg now (queue s) in
    (setQueue kept s,
     match expiredEntries with
     | [] => []
     | _ => Warn (WTimeoutDropped (Z.of_nat (length expiredEntries)))
            :: ((fun entry => Send secondary (markTimeout cfg now entry))
                  <$> expiredEntries)
     end).

Definition scheduleNextSend (cfg : Config) (now : Z) (s : State)
  : State * list Out :=
  let s1 := clearTimer s in
  let '(s2, o2) := pruneExpired cfg now s1 in
  match queue s2 with
  | [] => (s2, o2 ++ [Status StIdle])
  | _ =>
      let delay :=
        if tooSoon cfg s2 now
        then intervalMs cfg - default 0 (elapsedSince s2 now)
        else 0 in
      let '(h, t) := setTimeout SendFn (Z.max delay 0) now (timers s2) in
      let s3 := {| queue := queue s2; timer := Some h;
                   lastSent := lastSent s2; timers := t |} in
      (s3, o2 ++ [setStatusQueued s3])
  end.

Definition attemptSend (cfg : Config) (now : Z) (s : State)
  : State * list Out :=
  let '(s1, o1) := pruneExpired cfg now s in
  match queue s1 with
  | [] => (s1, o1 ++ [Status StIdle])
  | entry :: rest =>
      if tooSoon cfg s1 now
      then let '(s2, o2) := scheduleNextSend cfg now s1 in (s2, o1 ++ o2)
      else
        let s2 := {| queue := rest; timer := timer s1; lastSent := now;
                     timers := timers s1 |} in
        let '(s3, o3) := scheduleNextSend cfg now s2 in
        (s3, o1 ++ [Status (StSending (Z.of_nat (length rest)));
                    Send primary (msg entry)] ++ o3)
  end.

(** [node.on('input', ...)] *)
Definition input (cfg : Config) (m : JsVal) (now : Z) (s : State)
  : State * list Out :=
  let '(s1, o1) := pruneExpired cfg now s in
  if atCapacity cfg s1
  then (s1, o1 ++ [Warn (WCapacityDropped (maxQueueSize cfg));
                   Send secondary (markOverflow cfg s1 m);
                   setStatusQueued s1])
  else
    let s2 := setQueue (queue s1 ++ [{| msg := m; enqueuedAt := now |}]) s1 in
    let '(s3, o3) := attemptSend cfg now s2 in
    (s3, o1 ++ [setStatusQueued s2] ++ o3).

(** The timer fires: it leaves the table, and [sendFn] runs. *)
Definition fire (cfg : Config) (hd : Handle) (now : Z) (s : State)
  : State * list Out :=
  match Timers.find hd (timers s) with
  | None => (s, [])
  | Some _ =>
      attemptSend cfg now
        {| queue := queue s; timer := None; lastSent := lastSent s;
           timers := clearTimeout hd (timers s) |}
  end.

(** [node.on('close', ...)] *)
Definition close (s : State) : State * list Out :=
  (setQueue [] (clearTimer s), [Status StIdle]).

Definition step (cfg : Config) (ev : Event) (now : Z) (s : State)
  : State * list Out :=
  match ev with
  | EInput m => input cfg m now s
  | EFire hd => fire cfg hd now s
  | EClose => close s
  end.

End Queue1.

(** *** Second implementation: silent drops *)

Module Queue2.
Import Timers.
Export QueueCommon.

Definition pruneExpired (cfg : Config) (now : Z) (s : State)
  : State * list Out :=
  if negb (useTimeout cfg) || (timeoutMs cfg <=? 0)
     || (Z.of_nat (length (queue s)) =? 0)
  then (s, [])
  else
    let '(expired, kept) := shiftExpired cfg now (queue s) in
    let dropped := Z.of_nat (length expired) in
    (setQueue kept s,
     if 0 <? dropped then [Warn (WTimeoutDropped dropped)] else []).

Definition scheduleNextSend (cfg : Config) (now : Z) (s : State)
  : State * list Out :=
  let s1 := clearTimer s in
  let '(s2, o2) := pruneExpired cfg now s1 in
  match queue s2 with
  | [] => (s2, o2 ++ [Status StIdle])
  | _ =>
      let delay :=
        if tooSoon cfg s2 now
        then intervalMs cfg - default 0 (elapsedSince s2 now)
        else 0 in
      let '(h, t) := setTimeout SendFn (Z.max delay 0) now (timers s2) in
      let s3 := {| queue := queue s2; timer := Some h;
                   lastSent := lastSent s2; timers := t |} in
      (s3, o2 ++ [setStatusQueued s3])
  end.

Definition attemptSend (cfg : Config) (now : Z) (s : State)
  : State * list Out :=
  let '(s1, o1) := pruneExpired cfg now s in
  match queue s1 with
  | [] => (s1, o1 ++ [Status StIdle])
  | entry :: rest =>
      if tooSoon cfg s1 now
      then let '(s2, o2) := scheduleNextSend cfg now s1 in (s2, o1 ++ o2)
      else
        let s2 := {| queue := rest; timer := timer s1; lastSent := now;
                     timers := timers s1 |} in
        let '(s3, o3) := scheduleNextSend cfg now s2 in
        (s3, o1 ++ [Status (StSending (Z.of_nat (length rest)));
                    Send primary (msg entry)] ++ o3)
  end.

(** [node.on('input', ...)] *)
Definition input (cfg : Config) (m : JsVal) (now : Z) (s : State)
  : State * list Out :=
  let '(s1, o1) := pruneExpired cfg now s in
  if atCapacity cfg s1
  then (s1, o1 ++ [Warn (WCapacityIgnored (maxQueueSize cfg));
                   setStatusQueued s1])
  else
    let s2 := setQueue (queue s1 ++ [{| msg := m; enqueuedAt := now |}]) s1 in
    let '(s3, o3) := attemptSend cfg now s2 in
    (s3, o1 ++ [setStatusQueued s2] ++ o3).

Definition fire (cfg : Config) (hd : Handle) (now : Z) (s : State)
  : State * list Out :=
  match Timers.find hd (timers s) with
  | None => (s, [])
  | Some _ =>
      attemptSend cfg now
        {| queue := queue s; timer := None; lastSent := lastSent s;
           timers := clearTimeout hd (timers s) |}
  end.

Definition close (s : State) : State * list Out :=
  (setQueue [] (clearTimer s), [Status StIdle]).

Definition step (cfg : Config) (ev : Event) (now : Z) (s : State)
  : State * list Out :=
  match ev with
  | EInput m => input cfg m now s
  | EFire hd => fire cfg hd now s
  | EClose => close s
  end.

End Queue2.

(** * Further nodes

    The selector of array elements, the key of the performance metrics,
    the file names of the file sink and the event-loop watchdog. *)

(** ** Further string operations *)

Module JsStr.

Definition code (a : ascii) : Z := Z.of_N (N_of_ascii a).

(** [\d] *)
Definition isDigit (a : ascii) : bool := (48 <=? code a) && (code a <=? 57).

(** Every character of [s] satisfies [p]. *)
Fixpoint all (p : ascii -> bool) (s : string) : bool :=
  match s with
  | EmptyString => true
  | String a r => p a && all p r
  end.

(** [s.includes(c)] for a one-character string [c] *)
Fixpoint includes (c : ascii) (s : string) : bool :=
  match s with
  | EmptyString => false
  | String a r => Ascii.eqb a c || includes c r
  end.

(** [s.split(c)] for a one-character separator [c]: the pieces between
    the separators, of which there is always at least one. *)
Fixpoint split (c : ascii) (s : string) : list string :=
  match s with
  | EmptyString => [EmptyString]
  | String a r =>
      if Ascii.eqb a c then EmptyString :: split c r
      else match split c r with
           | piece :: pieces => String a piece :: pieces
           | [] => [String a EmptyString]
           end
  end.

Definition lowerChar (a : ascii) : ascii :=
  if (65 <=? code a) && (code a <=? 90)
  then ascii_of_N (N_of_ascii a + 32)
  else a.

(** [s.toLowerCase()] on the ASCII letters.  The letters outside ASCII
    are left as they are; of these JavaScript lower-cases U+212A to [k]
    and U+0130 to [i] followed by U+0307, and the others to letters
    outside ASCII. *)
Fixpoint toLowerCase (s : string) : string :=
  match s with
  | EmptyString => EmptyString
  | String a r => String (lowerChar a) (toLowerCase r)
  end.

(** [typeof v] *)
Definition typeOf (v : JsVal) : string :=
  match v with
  | JUndefined => "undefined"
  | JNull => "object"
  | JBool _ => "boolean"
  | JNum _ | JNaN | JDec _ _ _ => "number"
  | JStr _ => "string"
  | JArr _ | JObj _ => "object"
  end.

(** [elems[i]] on an array *)
Definition nth (elems : list JsVal) (i : Z) : JsVal :=
  if i <? 0 then JUndefined else default JUndefined (elems !! Z.to_nat i).

End JsStr.

(** ** Array selector (rp-array-select) *)

Module ArraySelect.

Record Node : Type := {
  inputPath : string;
  inputPathType : string;
  outputPath : string;
  outputPathType : string;
  selection : JsVal;
  asArray : bool
}.

(** The constructor: defaults for absent configuration fields. *)
Definition create (cInputPath cInputPathType cOutputPath cOutputPathType
  : string) (cSelection cAsArray : JsVal) : Node :=
  {| inputPath := Js.orDefault cInputPath "payload";
     inputPathType := Js.orDefault cInputPathType "msg";
     outputPath := Js.orDefault cOutputPath "payload";
     outputPathType := Js.orDefault cOutputPathType "msg";
     selection := if Js.truthy cSelection then cSelection else JStr "0";
     asArray := Js.truthy cAsArray |}.

(** [/^-?\d+$/.test(s)] *)
Definition isIntLiteral (s : string) : bool :=
  let digits := match s with
                | String "-" r => r
                | _ => s
                end in
  negb (String.eqb digits "") && JsStr.all JsStr.isDigit digits.

(** [index < 0 ? arrayLength + index : index] *)
Definition normalise (arrayLength index : Z) : Z :=
  if index <? 0 then arrayLength + index else index.

(** [i >= 0 && i < arrayLength] *)
Definition inBounds (arrayLength i : Z) : bool :=
  (0 <=? i) && (i <? arrayLength).

(** [parseInt(s) || d]: [d] replaces NaN and 0. *)
Definition parseOr (s : string) (d : Z) : Z :=
  match Js.parseInt None (JStr s) with
  | Some n => if n =? 0 then d else n
  | None => d
  end.

(** [for (let i = first; i < bound; i += step) indices.push(i)]; the
    fuel bounds the number of iterations. *)
Fixpoint loop (fuel : nat) (i bound step : Z) : list Z :=
  match fuel with
  | O => []
  | S fuel' =>
      if i <? bound then i :: loop fuel' (i + step) bound step else []
  end.

(** The two range branches, after [start], [end] and [step] are parsed:
    negative bounds count from the end, the loop runs from
    [Math.max(0, start)] to [Math.min(arrayLength, end)], and an empty
    result is [null]. *)
Definition range (arrayLength start end_ step : Z) : option (list Z) :=
  let start' := normalise arrayLength start in
  let end' := normalise arrayLength end_ in
  let first := Z.max 0 start' in
  let bound := Z.min arrayLength end' in
  match loop (Z.to_nat (bound - first)) first bound step with
  | [] => None
  | indices => Some indices
  end.

(** One item of a comma-separated selection: [None] when the filter
    drops it (NaN fails both comparisons). *)
Definition listItem (arrayLength : Z) (part : string) : option Z :=
  match Js.parseInt None (JStr (Js.trim part)) with
  | Some index =>
      let i := normalise arrayLength index in
      if inBounds arrayLength i then Some i else None
  | None => None
  end.

(** [parseSelection(selection, arrayLength)]; [Ok None] is [null].  A
    selection that is not a string has no [trim] method, and the call
    throws before the function's own [try] block is entered. *)
Definition parseSelection (selection : JsVal) (arrayLength : Z)
  : Result (option (list Z)) :=
  match selection with
  | JStr s =>
      if String.eqb s "" || String.eqb (Js.trim s) "" then Ok None
      else
        let sel := Js.trim s in
        if isIntLiteral sel then
          match Js.parseInt None (JStr sel) with
          | Some index =>
              let normalizedIndex := normalise arrayLength index in
              if inBounds arrayLength normalizedIndex
              then Ok (Some [normalizedIndex])
              else Ok None
          | None => Ok None
          end
        else if JsStr.includes "," sel then
          match omap (listItem arrayLength) (JsStr.split "," sel) with
          | [] => Ok None
          | indices => Ok (Some indices)
          end
        else if JsStr.includes ":" sel then
          match JsStr.split ":" sel with
          | [p0; p1] =>
              Ok (range arrayLength (parseOr p0 0) (parseOr p1 arrayLength) 1)
          | [p0; p1; p2] =>
              let step := parseOr p2 1 in
              Ok (range arrayLength (parseOr p0 0) (parseOr p1 arrayLength)
                    (if step <=? 0 then 1 else step))
          | _ => Ok None
          end
        else Ok None
  | v =>
      if Js.truthy v
      then Throw (HostError "selection.trim is not a function")
      else Ok None
  end.

(** Text of the [node.warn] calls. *)
Inductive Warning : Type :=
| NotAnArray (typeName : string)
| EmptyArray
| InvalidSelection (selection : JsVal) (arrayLength : Z).

(** Text of the [node.status] calls. *)
Inductive StatusLine : Type :=
| Ready (selection : JsVal)
| InvalidInput
| EmptyInput
| Selected (count arrayLength : Z)
| BadSelection
| Errored
| Cleared.

(** What the handler does to the outside, in program order; [ResetLater]
    is the [setTimeout] that restores the ready status. *)
Inductive Effect : Type :=
| Forward (m : JsVal)
| Warned (w : Warning)
| Shown (s : StatusLine)
| Stored (sc : Scope) (key : string) (v : JsVal)
| Raised (e : JsError)
| ResetLater (delay : Z).

(** Reading the array from the configured input path. *)
Definition readInput (h : Host) (node : Node) (msg : JsVal) : option JsVal :=
  if String.eqb (inputPathType node) "msg"
  then getMessageProperty h msg (inputPath node)
  else if String.eqb (inputPathType node) "flow"
  then contextGet h FlowScope (inputPath node)
  else if String.eqb (inputPathType node) "global"
  then contextGet h GlobalScope (inputPath node)
  else Some JUndefined.

(** Writing the result to the configured output path of the fresh
    message [{}]; [None] when the host throws. *)
Definition writeOutput (h : Host) (node : Node) (result : JsVal)
  : option (JsVal * list Effect) :=
  let outputMsg := JObj [] in
  if String.eqb (outputPathType node) "msg" then
    (fun m => (m, [])) <$> setMessageProperty h outputMsg (outputPath node) result
  else if String.eqb (outputPathType node) "flow" then
    if contextSet h FlowScope (outputPath node) result
    then Some (outputMsg, [Stored FlowScope (outputPath node) result])
    else None
  else if String.eqb (outputPathType node) "global" then
    if contextSet h GlobalScope (outputPath node) result
    then Some (outputMsg, [Stored GlobalScope (outputPath node) result])
    else None
  else Some (outputMsg, []).

(** [(node.asArray || selectedItems.length > 1) ? selectedItems :
    selectedItems[0]] *)
Definition shape (node : Node) (selectedItems : list JsVal) : JsVal :=
  if asArray node || (1 <? Z.of_nat (length selectedItems))
  then JArr selectedItems
  else JsStr.nth selectedItems 0.

(** [node.on('input', ...)] *)
Definition input (h : Host) (node : Node) (msg : JsVal) : list Effect :=
  match readInput h node msg with
  | None => [Shown Errored; Raised (HostError "input path")]
  | Some (JArr inputArray) =>
      let len := Z.of_nat (length inputArray) in
      if len =? 0 then [Warned EmptyArray; Shown EmptyInput]
      else
        match parseSelection (selection node) len with
        | Throw e => [Shown Errored; Raised e]
        | Ok (Some (i :: rest)) =>
            let indices := i :: rest in
            let selectedItems := JsStr.nth inputArray <$> indices in
            match writeOutput h node (shape node selectedItems) with
            | None => [Shown Errored; Raised (HostError "output path")]
            | Some (outputMsg, stored) =>
                stored ++
                [Shown (Selected (Z.of_nat (length selectedItems)) len);
                 Forward outputMsg;
                 ResetLater 2000]
            end
        | Ok _ =>
            [Warned (InvalidSelection (selection node) len);
             Shown BadSelection]
        end
  | Some v => [Warned (NotAnArray (JsStr.typeOf v)); Shown InvalidInput]
  end.

(** [node.on('close', ...)] *)
Definition close : list Effect := [Shown Cleared].

(** The messages the handler forwards. *)
Definition forwarded (effects : list Effect) : list JsVal :=
  omap (fun e => match e with Forward m => Some m | _ => None end) effects.

End ArraySelect.

(** ** Shared helpers (lib/node-utils.js)

    A character outside ASCII counts, like every character that is not a
    lower-case letter or a digit, as a separator. *)

Module NodeUtils.

(** [a-z0-9] *)
Definition isKeyChar (a : ascii) : bool :=
  let n := JsStr.code a in
  ((97 <=? n) && (n <=? 122)) || ((48 <=? n) && (n <=? 57)).

(** [s.replace(/[^a-z0-9]+/g, '_')]: every maximal run of other
    characters becomes one underscore; [inRun] tells that the run in
    progress has been replaced already. *)
Fixpoint underscoreRuns (inRun : bool) (s : string) : string :=
  match s with
  | EmptyString => EmptyString
  | String a r =>
      if isKeyChar a then String a (underscoreRuns false r)
      else if inRun then underscoreRuns true r
      else String "_" (underscoreRuns true r)
  end.

(** The [^_+] alternative of [s.replace(/^_+|_+$/g, '')] *)
Fixpoint dropLeading (s : string) : string :=
  match s with
  | EmptyString => EmptyString
  | String a r => if Ascii.eqb a "_" then dropLeading r else s
  end.

(** The [_+$] alternative of [s.replace(/^_+|_+$/g, '')] *)
Fixpoint dropTrailing (s : string) : string :=
  match s with
  | EmptyString => EmptyString
  | String a r =>
      let r' := dropTrailing r in
      if Ascii.eqb a "_" && String.eqb r' "" then EmptyString
      else String a r'
  end.

(** [utils.getPerformanceKey(node)] *)
Definition getPerformanceKey (node : JsVal) : string :=
  let named :=
    if Js.truthy node then
      if Js.truthy (Js.getProp node "name")
      then JStr (Js.trim (Js.ToString (Js.getProp node "name")))
      else Js.getProp node "name"
    else node in
  let typed := if Js.truthy node then Js.getProp node "type" else node in
  let base :=
    if Js.truthy named then named
    else if Js.truthy typed then typed
    else JStr "node" in
  let key :=
    dropTrailing
      (dropLeading
         (underscoreRuns false
            (JsStr.toLowerCase (Js.trim (Js.ToString base))))) in
  if String.eqb key "" then "node" else key.

End NodeUtils.

(** ** File sink (rp-save-file): extensions and file names *)

Module SaveFile.

(** [mapExtension(ext)]: the file type of an extension and, for images,
    the format; [None] is [null]. *)
Definition mapExtension (ext : string) : option (string * option string) :=
  if String.eqb ext "" then None
  else
    let lower := JsStr.toLowerCase ext in
    if String.eqb lower "jpg" || String.eqb lower "jpeg"
    then Some ("image", Some "jpg")
    else if String.eqb lower "png" then Some ("image", Some "png")
    else if String.eqb lower "webp" then Some ("image", Some "webp")
    else if String.eqb lower "json" then Some ("json", None)
    else if String.eqb lower "txt" then Some ("text", None)
    else if String.eqb lower "bin" || String.eqb lower "dat"
    then Some ("binary", None)
    else None.

(** [defaultExtension(type, imageFormat)] *)
Definition defaultExtension (type imageFormat : string) : string :=
  if String.eqb type "image" then Js.orDefault imageFormat "jpg"
  else if String.eqb type "json" then "json"
  else if String.eqb type "text" then "txt"
  else if String.eqb type "binary" then "bin"
  else "".

(** [normalizeSharpFormat(fmt)] *)
Definition normalizeSharpFormat (fmt : string) : option string :=
  if String.eqb fmt "" then None
  else if String.eqb fmt "jpeg" || String.eqb fmt "jpg" then Some "jpg"
  else if String.eqb fmt "png" then Some "png"
  else if String.eqb fmt "webp" then Some "webp"
  else None.

(** The overwrite protection of the input handler.  [fileExists] is the
    outcome of [fs.access] on a path, taken not to change while the loop
    runs, and [join] is [path.join]. *)
Section Overwrite.
Variable fileExists : string -> bool.
Variable join : string -> string -> string.

(** [`${baseName}_${counter}.${extension}`] *)
Definition variant (baseName extension : string) (counter : Z) : string :=
  baseName +:+ "_" +:+ pretty counter +:+ "." +:+ extension.

(** The [while (await fileExists(filePath))] loop; the fuel bounds the
    number of iterations. *)
Fixpoint probe (fuel : nat) (folderPath baseName extension filename : string)
  (counter : Z) : Result string :=
  match fuel with
  | O => Throw (HostError "out of fuel")
  | S fuel' =>
      if fileExists (join folderPath filename) then
        let filename' := variant baseName extension counter in
        let counter' := counter + 1 in
        if 1000 <? counter'
        then Throw (HostError
                      "Too many file variations exist in target folder.")
        else probe fuel' folderPath baseName extension filename' counter'
      else Ok filename
  end.

(** The file name the handler writes to. *)
Definition chooseName (folderPath baseName extension : string)
  (overwriteEnabled : bool) : Result string :=
  let filename := baseName +:+ "." +:+ extension in
  if overwriteEnabled
  then probe 1000 folderPath baseName extension filename 2
  else Ok filename.

End Overwrite.

End SaveFile.

(** ** Event-loop watchdog (rp-block-detect)

    The delays the watchdog measures are fractions of milliseconds: here
    they are rationals, and the rounding of the floating-point operations
    is not modelled (the comparisons are exact in both).  What the
    environment returns at a tick (the histogram of the event-loop delay,
    [performance.now()], [Date.now()]) is the input [Env] of the tick. *)

Module BlockDetect.

Record Config : Type := {
  intervalMs : Q;
  thresholdMs : Q;
  consecutive : Z;
  cooldownMs : Q;
  showStats : bool;
  monitorAvailable : bool
}.

Record Stats : Type := {
  mean : Q;
  max : Q;
  min : Q;
  alert : bool
}.

(** [x >= y] *)
Definition geq (x y : Q) : bool := Qle_bool y x.

(** The readings of one tick; [None] is a value that is not finite. *)
Record Env : Type := {
  histMean : option Q;
  histMax : option Q;
  histMin : option Q;
  perfNow : Q;
  dateNow : Z
}.

Record State : Type := {
  overThresholdCount : Z;
  lastAlertAt : Z;
  fallbackPrev : Q
}.

(** The state after the constructor, [performance.now()] being [t0]. *)
Definition initial (t0 : Q) : State :=
  {| overThresholdCount := 0; lastAlertAt := 0; fallbackPrev := t0 |}.

(** [Number.isFinite(x) ? x / 1e6 : 0] *)
Definition toMs (x : option Q) : Q :=
  match x with
  | Some v => (v / 1000000)%Q
  | None => 0%Q
  end.

(** [readHistogramStats(hist)] *)
Definition readHistogramStats (cfg : Config) (env : Env) : Stats :=
  let max := toMs (histMax env) in
  {| mean := toMs (histMean env); max := max; min := toMs (histMin env);
     alert := geq max (thresholdMs cfg) |}.

(** [readFallbackStats()]: the statistics and the new [fallbackPrev]. *)
Definition readFallbackStats (cfg : Config) (env : Env) (s : State)
  : Stats * Q :=
  let now := perfNow env in
  let delta := (now - fallbackPrev s)%Q in
  let delay := Qmax 0 (delta - intervalMs cfg)%Q in
  ({| mean := delay; max := delay; min := delay;
      alert := geq delay (thresholdMs cfg) |}, now).

Inductive Text : Type :=
| Averages (mean max : Q)
| BlockingDetected
| HighLoopDelay
| Fine.

Inductive Out : Type :=
| Status (fill shape : string) (text : Text)
| Warn (stats : Stats).

(** The status the tick shows. *)
Definition statusOf (cfg : Config) (stats : Stats) : Out :=
  let over := geq (max stats) (thresholdMs cfg) in
  if showStats cfg then
    Status (if over then (if alert stats then "red" else "yellow")
            else "green")
           (if over then "ring" else "dot")
           (Averages (mean stats) (max stats))
  else if alert stats then Status "red" "dot" BlockingDetected
  else if over then Status "yellow" "ring" HighLoopDelay
  else Status "green" "dot" Fine.

(** The callback of [setInterval]: what it read, the state it leaves and
    what it did. *)
Definition tick (cfg : Config) (env : Env) (s : State)
  : Stats * State * list Out :=
  let '(stats, prev) :=
    if monitorAvailable cfg then (readHistogramStats cfg env, fallbackPrev s)
    else readFallbackStats cfg env s in
  let count :=
    if geq (max stats) (thresholdMs cfg) then overThresholdCount s + 1
    else 0 in
  if consecutive cfg <=? count then
    let now := dateNow env in
    if geq (inject_Z (now - lastAlertAt s)) (cooldownMs cfg)
    then (stats,
          {| overThresholdCount := 0; lastAlertAt := now;
             fallbackPrev := prev |},
          [statusOf cfg stats; Warn stats])
    else (stats,
          {| overThresholdCount := 0; lastAlertAt := lastAlertAt s;
             fallbackPrev := prev |},
          [statusOf cfg stats])
  else (stats,
        {| overThresholdCount := count; lastAlertAt := lastAlertAt s;
           fallbackPrev := prev |},
        [statusOf cfg stats]).

(** What one tick leaves in the log. *)
Record Entry : Type := {
  stats : Stats;
  at_ : Z;
  outs : list Out
}.

(** The ticks of a list of readings, oldest first. *)
Fixpoint run (cfg : Config) (envs : list Env) (s : State)
  : State * list Entry :=
  match envs with
  | [] => (s, [])
  | env :: rest =>
      let '(st, s1, o) := tick cfg env s in
      let '(s2, log) := run cfg rest s1 in
      (s2, {| stats := st; at_ := dateNow env; outs := o |} :: log)
  end.

End BlockDetect.

(** * Vocabulary of the statements

    The definitions the lemmas and theorems are stated with: views of the
    states, the pure reading of the host calls, traces and their outcomes,
    the invariants, and the concrete scenarios. *)

Module ArrayInSpec.
Import ArrayIn.

(** The specification is absent or blank. *)
Definition unspecified (value : JsVal) : bool :=
  Js.isNullish value || String.eqb (Js.trim (Js.ToString value)) "".

(** The value the position is parsed from: the specification itself, or
    what the host finds under it in the message or a context store;
    [None] when the lookup throws. *)
Definition lookedUp (h : Host) (type : string) (value msg : JsVal)
  : option JsVal :=
  if String.eqb type "msg" || String.eqb type "flow" || String.eqb type "global"
  then evaluateNodeProperty h value type msg
  else Some value.

End ArrayInSpec.

Module ArrayOutSpec.
Import Timers ArrayOut.

(** The slots of the cycle in progress: empty when idle, because the next
    stored item starts from an empty collection. *)
Definition view (s : State) : gmap Z JsVal :=
  if isCollecting s then collection s else ∅.

(** The properties of the cycle in progress that no index names. *)
Definition viewStrays (s : State) : list (string * JsVal) :=
  if isCollecting s then strays s else [].

(** The state once a cycle is under way: unchanged when collecting,
    otherwise the cycle is started and its timer armed. *)
Definition begun (cfg : Config) (now : Z) (s : State) : State :=
  if isCollecting s then s
  else {| collection := ∅;
          strays := [];
          timeoutHandle := Some (nextHandle (timers s));
          isCollecting := true;
          collectionStartTime := Some now;
          timers := (setTimeout HandleTimeout (timeout cfg) now (timers s)).2 |}.

Definition withCollection (c : gmap Z JsVal) (s : State) : State :=
  {| collection := c; strays := strays s; timeoutHandle := timeoutHandle s;
     isCollecting := isCollecting s;
     collectionStartTime := collectionStartTime s; timers := timers s |}.

(** The state after [node.collection[position] = data]. *)
Definition kept (position data : JsVal) (s : State) : State :=
  {| collection := match Js.integerOf position with
                   | Some i => <[i := data]> (collection s)
                   | None => collection s
                   end;
     strays := match Js.integerOf position with
               | Some _ => strays s
               | None => Js.assocSet (Js.ToString position) data (strays s)
               end;
     timeoutHandle := timeoutHandle s;
     isCollecting := isCollecting s;
     collectionStartTime := collectionStartTime s; timers := timers s |}.

Definition cleared (s : State) : State :=
  {| collection := ∅; strays := []; timeoutHandle := None;
     isCollecting := false;
     collectionStartTime := None;
     timers := match timeoutHandle s with
               | Some hd => clearTimeout hd (timers s)
               | None => timers s
               end |}.

Definition withTimers (t : Table Callback) (s : State) : State :=
  {| collection := collection s; strays := strays s;
     timeoutHandle := timeoutHandle s;
     isCollecting := isCollecting s;
     collectionStartTime := collectionStartTime s; timers := t |}.

(** What [place] does, as a pure function: the message sent on, and the
    context store written; [None] when the host throws. *)
Definition placed (h : Host) (cfg : Config) (m : JsVal) (result : list JsVal)
  : option (JsVal * list Out) :=
  if String.eqb (outputPathType cfg) "msg" then
    (fun m' => (m', [])) <$> setMessageProperty h m (outputPath cfg) (JArr result)
  else if String.eqb (outputPathType cfg) "flow" then
    if contextSet h FlowScope (outputPath cfg) (JArr result)
    then Some (m, [CtxSet FlowScope (outputPath cfg) (JArr result)])
    else None
  else if String.eqb (outputPathType cfg) "global" then
    if contextSet h GlobalScope (outputPath cfg) (JArr result)
    then Some (m, [CtxSet GlobalScope (outputPath cfg) (JArr result)])
    else None
  else Some (m, []).

Definition placeError (cfg : Config) : JsError :=
  if String.eqb (outputPathType cfg) "msg" then HostError "setMessageProperty"
  else if String.eqb (outputPathType cfg) "flow" then HostError "flow.set"
  else HostError "global.set".

Definition startStatus (cfg : Config) (s : State) : list Out :=
  if isCollecting s then [] else [Status (StCollecting 1 (expectedCount cfg))].

(** The state a completed cycle leaves: the status timer is armed, then
    the collection is reset (which cancels the timeout timer). *)
Definition finished (now : Z) (s : State) : State :=
  cleared (withTimers (setTimeout SetStatusReady 2000 now (timers s)).2 s).

(** The input handler, by cases. *)
Inductive InputCase (h : Host) (cfg : Config) (msg : JsVal) (now : Z)
  (s : State) : Result unit * State * list Out -> Prop :=
| case_missing :
    arrayPosition msg = None ->
    InputCase h cfg msg now s (Ok tt, s, [Warn WMissingMeta])
| case_rejected v :
    arrayPosition msg = Some v ->
    Js.lessThan v 0 || Js.atLeast v (expectedCount cfg) = true ->
    InputCase h cfg msg now s
      (Ok tt, s, [Warn (WOutOfRange v (expectedCount cfg))])
| case_kept v :
    arrayPosition msg = Some v ->
    Js.lessThan v 0 || Js.atLeast v (expectedCount cfg) = false ->
    count (kept v (dataOf msg) (begun cfg now s)) <> expectedCount cfg ->
    InputCase h cfg msg now s
      (Ok tt, kept v (dataOf msg) (begun cfg now s),
       startStatus cfg s ++
       [Status (StCollecting (count (kept v (dataOf msg) (begun cfg now s)))
                  (expectedCount cfg))])
| case_full v m' o :
    arrayPosition msg = Some v ->
    Js.lessThan v 0 || Js.atLeast v (expectedCount cfg) = false ->
    count (kept v (dataOf msg) (begun cfg now s)) = expectedCount cfg ->
    expectedCount cfg <= MAX_ARRAY_LENGTH ->
    placed h cfg msg
      (buildResult cfg (collection (kept v (dataOf msg) (begun cfg now s))))
      = Some (m', o) ->
    InputCase h cfg msg now s
      (Ok tt, finished now (begun cfg now s),
       startStatus cfg s ++
       [Status (StCollecting (expectedCount cfg) (expectedCount cfg))] ++
       o ++
       [Status (StComplete
                  (Z.of_nat (length (buildResult cfg
                     (collection (kept v (dataOf msg) (begun cfg now s))))))
                  (now - default 0 (collectionStartTime (begun cfg now s))));
        Send primary m'])
| case_error v e :
    arrayPosition msg = Some v ->
    Js.lessThan v 0 || Js.atLeast v (expectedCount cfg) = false ->
    count (kept v (dataOf msg) (begun cfg now s)) = expectedCount cfg ->
    InputCase h cfg msg now s
      (Ok tt, cleared (begun cfg now s),
       startStatus cfg s ++
       [Status (StCollecting (expectedCount cfg) (expectedCount cfg));
        Status StError; Failed e]).

Definition storeItem (c : gmap Z JsVal) (it : JsVal * Z) : gmap Z JsVal :=
  match positionOf it.1 with
  | Some p => <[p := dataOf it.1]> c
  | None => c
  end.

Definition storeAll (c : gmap Z JsVal) (items : list (JsVal * Z))
  : gmap Z JsVal :=
  foldl storeItem c items.

Definition inputs (items : list (JsVal * Z)) : list (Event * Z) :=
  (fun it => (EInput it.1, it.2)) <$> items.

Definition inRange (cfg : Config) (it : JsVal * Z) : Prop :=
  exists p, positionOf it.1 = Some p /\ 0 <= p < expectedCount cfg.

(** The outputs are status updates only. *)
Definition quiet (outs : list Out) : Prop :=
  Forall (fun o => exists st, o = Status st) outs.

(** What a run of in-range items leaves when none completes the cycle. *)
Record Collecting (cfg : Config) (s : State) (items : list (JsVal * Z))
  (s' : State) (outs : list Out) : Prop := {
  col_view : view s' = storeAll (view s) items;
  col_strays : viewStrays s' = viewStrays s;
  col_quiet : quiet outs;
  col_same : items = [] -> s' = s;
  col_active : items <> [] -> isCollecting s' = true;
  col_timers :
    items <> [] ->
    timers s' = timers (begun cfg (default 0 (snd <$> head items)) s)
    /\ timeoutHandle s' =
       timeoutHandle (begun cfg (default 0 (snd <$> head items)) s)
    /\ collectionStartTime s' =
       collectionStartTime (begun cfg (default 0 (snd <$> head items)) s)
}.

(** [ps] lists the positions of [items], item by item. *)
Definition positioned (items : list (JsVal * Z)) (ps : list Z) : Prop :=
  Forall2 (fun it p => positionOf it.1 = Some p) items ps.

(** The host accepts every placement at the configured output path. *)
Definition hostAccepts (h : Host) (cfg : Config) : Prop :=
  forall m r, placed h cfg m r <> None.

(** The placement at the configured output path leaves [meta] as it
    is. *)
Definition metaKept (h : Host) (cfg : Config) : Prop :=
  forall m r m' o,
    placed h cfg m r = Some (m', o) ->
    Js.getProp m' "meta" = Js.getProp m "meta".

(** The writes to the context stores among the outputs, in order. *)
Definition stored (outs : list Out) : list (Scope * string * JsVal) :=
  omap (fun o => match o with
                 | CtxSet sc key v => Some (sc, key, v)
                 | _ => None
                 end) outs.

(** The errors reported among the outputs, in order. *)
Definition reported (outs : list Out) : list JsError :=
  omap (fun o => match o with
                 | Failed e => Some e
                 | _ => None
                 end) outs.

(** The data of an item as the message holds it: [meta.arrayData], or
    [payload] when that is not defined. *)
Definition itemData (msg : JsVal) : JsVal :=
  if Js.isUndefined (Js.getProp (Js.getProp msg "meta") "arrayData")
  then Js.getProp msg "payload"
  else Js.getProp (Js.getProp msg "meta") "arrayData".

(** The trace holds timer firings only. *)
Definition onlyFires (evs : list (Event * Z)) : Prop :=
  Forall (fun e => exists hd, e.1 = EFire hd) evs.

(** The state [handleTimeout] leaves when the timer [hd] fires: the
    timer has left the table, the collection is reset, and the status
    timer is armed. *)
Definition afterTimeout (hd : Handle) (now : Z) (s : State) : State :=
  let s2 := cleared (withTimers (clearTimeout hd (timers s)) s) in
  withTimers (setTimeout SetStatusReady 3000 now (timers s2)).2 s2.

(** The message [handleTimeout] builds. *)
Definition timeoutMessage (h : Host) (cfg : Config) (now : Z) (s : State)
  : JsVal :=
  JObj [("meta",
         timeoutMeta cfg (missingPositions cfg (collection s))
           (collectedPositions h (collection s) (strays s))
           (now - default 0 (collectionStartTime s)))].

(** An idle collector: no cycle, no timeout handle, a well-formed table. *)
Definition Idle (s : State) : Prop :=
  isCollecting s = false /\ timeoutHandle s = None
  /\ Timers.wf (timers s).

Record Inv (cfg : Config) (s : State) : Prop := {
  inv_wf : Timers.wf (timers s);
  inv_keys : forall k, is_Some (collection s !! k) ->
                       0 <= k < expectedCount cfg;
  inv_timer : forall hd, hd ∈ outstanding isHandleTimeout (timers s) ->
                         timeoutHandle s = Some hd;
  inv_idle : isCollecting s = false ->
             timeoutHandle s = None /\ collection s = ∅ /\ strays s = []
}.

(** A digit from 1 to 9. *)
Definition leading (a : ascii) : Prop :=
  a ∈ ["1"; "2"; "3"; "4"; "5"; "6"; "7"; "8"; "9"]%char.

(** A message whose position, when it is a number, is an integer. *)
Definition indexed (msg : JsVal) : Prop :=
  arrayPosition msg = None \/ is_Some (positionOf msg).

(** The messages of a trace are indexed. *)
Definition indexedTrace (evs : list (Event * Z)) : Prop :=
  Forall (fun e => match e.1 with
                   | EInput msg => indexed msg
                   | _ => True
                   end) evs.

End ArrayOutSpec.

Module QueueSpec.
Import Timers QueueCommon.

(** The queue's timer discipline: the table is well formed and holds
    exactly the timer the state refers to, if any. *)
Definition TimerOk (s : State) : Prop :=
  Timers.wf (timers s)
  /\ handle <$> pending (timers s) = option_list (timer s).

(** The outputs [o2] send what [o1] sends on the primary channel and
    nothing on the secondary one. *)
Definition primaryOnly (o1 o2 : list Out) : Prop :=
  sentOn primary o2 = sentOn primary o1 /\ sentOn secondary o2 = [].

Definition ageActive (cfg : Config) : bool :=
  useTimeout cfg && (0 <? timeoutMs cfg).

Definition Sim (r1 r2 : State * list Out) : Prop :=
  r2.1 = r1.1 /\ primaryOnly r1.2 r2.2.

Definition capActive (cfg : Config) : bool :=
  useQueueLimit cfg && (0 <? maxQueueSize cfg).

(** Consecutive times are at least [T] apart. *)
Definition spaced (T : Z) (ts : list Z) : Prop :=
  forall i a b, ts !! i = Some a -> ts !! S i = Some b -> a + T <= b.

(** The messages enqueued by a trace, in order. *)
Definition inputsOf (evs : list (Event * Z)) : list JsVal :=
  omap (fun e => match e.1 with EInput m => Some m | _ => None end) evs.

(** Timestamps are positive and do not go back, starting from [t0]. *)
Fixpoint ascending (t0 : Z) (evs : list (Event * Z)) : Prop :=
  match evs with
  | [] => True
  | (_, t) :: rest => t0 <= t /\ 0 < t /\ ascending t rest
  end.

Definition lastTime (t0 : Z) (evs : list (Event * Z)) : Z :=
  default t0 (snd <$> last evs).

Definition noClose (evs : list (Event * Z)) : Prop :=
  Forall (fun e => e.1 <> EClose) evs.

Definition timerDue (cfg : Config) (s : State) : Prop :=
  (queue s <> [] ->
   exists hd t, timer s = Some hd /\ Timers.find hd (timers s) = Some t
                /\ handle t = hd
                /\ (lastSent s = 0 \/ lastSent s + intervalMs cfg <= due t))
  /\ (queue s = [] -> timer s = None).

(** What the log and the state record about the trace so far. *)
Record Core (cfg : Config) (ins : list JsVal) (now : Z) (s : State) (log : list (Z * Out))
  : Prop := {
  c_ok : TimerOk s;
  c_fifo : (snd <$> sentAt primary log) ++ (msg <$> queue s) = ins;
  c_sec : sentAt secondary log = [];
  c_spaced : spaced (intervalMs cfg) (fst <$> sentAt primary log);
  c_last : lastSent s = default 0 (last (fst <$> sentAt primary log));
  c_times : Forall (fun t => 0 < t <= now) (fst <$> sentAt primary log)
}.

End QueueSpec.

Module Scenario.
Import Timers.

(** A small host used in the examples: property paths are single
    property names, and the paths listed as invalid make the host throw
    the way [normalisePropertyExpression] does. *)
Definition invalidPath (p : string) : bool :=
  String.eqb p "" || String.eqb p "a..b".

Definition exampleHost (flow : list (string * JsVal)) : Host :=
  {| evaluateNodeProperty := fun value type msg =>
       match value with
       | JStr p =>
           if invalidPath p then None
           else if String.eqb type "msg" then Some (Js.getProp msg p)
           else Some (default JUndefined (Js.assocGet p flow))
       | _ => None
       end;
     getMessageProperty := fun msg p =>
       if invalidPath p then None else Some (Js.getProp msg p);
     setMessageProperty := fun msg p v =>
       if invalidPath p then None else Some (Js.setProp msg p v);
     contextGet := fun _ p =>
       if invalidPath p then None
       else Some (default JUndefined (Js.assocGet p flow));
     contextSet := fun _ p _ => negb (invalidPath p);
     sortNumbers := fun l =>
       (Some <$> merge_sort Z.le (omap id l))
       ++ filter (fun x => x = None) l |}.

Definition host : Host := exampleHost [].

(** The scenario of the specification: three slots, one-second timeout. *)
Definition cfg3 : ArrayOut.Config :=
  {| ArrayOut.timeout := 1000; ArrayOut.expectedCount := 3;
     ArrayOut.outputPath := "payload"; ArrayOut.outputPathType := "msg" |}.

Definition cfg2 : ArrayOut.Config :=
  {| ArrayOut.timeout := 1000; ArrayOut.expectedCount := 2;
     ArrayOut.outputPath := "payload"; ArrayOut.outputPathType := "msg" |}.

(** An output path the host rejects. *)
Definition badCfg : ArrayOut.Config :=
  {| ArrayOut.timeout := 1000; ArrayOut.expectedCount := 2;
     ArrayOut.outputPath := "a..b"; ArrayOut.outputPathType := "msg" |}.

Definition items3 : list (JsVal * Z) :=
  [(ArrayOut.tagged 1 (JStr "b"), 0);
   (ArrayOut.tagged 0 (JStr "a"), 50);
   (ArrayOut.tagged 2 (JStr "c"), 60)].

Definition items2 : list (JsVal * Z) :=
  [(ArrayOut.tagged 1 (JStr "b"), 0);
   (ArrayOut.tagged 0 (JStr "a"), 50)].

(** A queue pacing its output at 100 ms, without bounds. *)
Definition paceCfg : QueueCommon.Config :=
  {| QueueCommon.maxQueueSize := 0; QueueCommon.intervalMs := 100;
     QueueCommon.timeoutMs := 0; QueueCommon.mode := QueueCommon.Legacy |}.

(** A queue of capacity 1 with a one-second interval. *)
Definition capCfg : QueueCommon.Config :=
  {| QueueCommon.maxQueueSize := 1; QueueCommon.intervalMs := 1000;
     QueueCommon.timeoutMs := 0; QueueCommon.mode := QueueCommon.Legacy |}.

(** A queue that evicts entries older than 50 ms, with a one-second
    interval. *)
Definition ageCfg : QueueCommon.Config :=
  {| QueueCommon.maxQueueSize := 0; QueueCommon.intervalMs := 1000;
     QueueCommon.timeoutMs := 50; QueueCommon.mode := QueueCommon.Legacy |}.

Definition burst : list (QueueCommon.Event * Z) :=
  [(QueueCommon.EInput (JObj [("payload", JStr "a")]), 1);
   (QueueCommon.EInput (JObj [("payload", JStr "b")]), 2);
   (QueueCommon.EInput (JObj [("payload", JStr "c")]), 3)].

(** The collector with one of two slots filled, and its run on the item
    that fills the other when the host rejects the output path. *)
Definition halfFull : ArrayOut.State :=
  (ArrayOut.run host badCfg
     [(ArrayOut.EInput (ArrayOut.tagged 0 (JStr "a")), 0)]
     ArrayOut.initial).1.

Definition failedRun : Result unit * ArrayOut.State * list Out :=
  ArrayOut.input host badCfg (ArrayOut.tagged 1 (JStr "b")) 10 halfFull.

End Scenario.

(** ** Vocabulary of the further properties *)

Module QueueTrace.
Import Timers QueueCommon QueueSpec.

(** The entry an event puts at the back of the queue when the message is
    accepted. *)
Definition arrival (ev : Event) (now : Z) : list Entry :=
  match ev with
  | EInput m => [{| msg := m; enqueuedAt := now |}]
  | _ => []
  end.

(** The entry has been queued for the configured timeout or longer, and
    the age bound is in force. *)
Definition expiredAt (cfg : Config) (now : Z) (e : Entry) : Prop :=
  ageActive cfg = true /\ timeoutMs cfg <= now - enqueuedAt e.

(** The entry is fresh enough to be forwarded. *)
Definition freshAt (cfg : Config) (now : Z) (e : Entry) : Prop :=
  ageActive cfg = true -> now - enqueuedAt e < timeoutMs cfg.

(** What one handler run of the first implementation does with the
    entries.  Either the queue (with the arrival) splits into entries
    evicted for their age, at most one entry forwarded, further evicted
    entries, and the entries still queued; or the arrival is rejected at
    capacity; or the queue is closed. *)
Definition Moves (cfg : Config) (ev : Event) (now : Z) (s s' : State)
  (o : list Out) : Prop :=
  (exists E1 sent E2,
     queue s ++ arrival ev now = E1 ++ sent ++ E2 ++ queue s'
     /\ sentOn primary o = msg <$> sent
     /\ sentOn secondary o = Queue1.markTimeout cfg now <$> (E1 ++ E2)
     /\ (length sent <= 1)%nat
     /\ Forall (expiredAt cfg now) (E1 ++ E2)
     /\ Forall (freshAt cfg now) sent
     /\ (sent = [] -> lastSent s' = lastSent s)
     /\ (sent <> [] -> lastSent s' = now /\ tooSoon cfg s now = false)
     /\ (capActive cfg = true ->
         Z.of_nat (length (queue s)) <= maxQueueSize cfg ->
         Z.of_nat (length (queue s')) <= maxQueueSize cfg))
  \/ (exists m E,
        ev = EInput m
        /\ queue s = E ++ queue s'
        /\ sentOn primary o = []
        /\ sentOn secondary o =
           (Queue1.markTimeout cfg now <$> E) ++ [Queue1.markOverflow cfg s' m]
        /\ Forall (expiredAt cfg now) E
        /\ capActive cfg = true
        /\ maxQueueSize cfg <= Z.of_nat (length (queue s'))
        /\ lastSent s' = lastSent s)
  \/ (ev = EClose
      /\ queue s' = []
      /\ (forall ch, sentOn ch o = [])
      /\ lastSent s' = lastSent s).

(** The trace holds timer firings only. *)
Definition onlyFires (evs : list (Event * Z)) : Prop :=
  Forall (fun e => exists hd, e.1 = EFire hd) evs.

(** The drop metadata a message on the second output carries. *)
Definition flagged (cfg : Config) (m : JsVal) : Prop :=
  Js.getProp (Js.getProp m "meta") "queueDropped" = JBool true
  /\ ((Js.getProp (Js.getProp m "meta") "queueDropReason" = JStr "timeout"
       /\ Js.getProp (Js.getProp m "meta") "queueTimeout"
          = JNum (timeoutMs cfg)
       /\ exists d, Js.getProp (Js.getProp m "meta") "queuedDuration" = JNum d
                    /\ timeoutMs cfg <= d)
      \/ (Js.getProp (Js.getProp m "meta") "queueDropReason" = JStr "overflow"
          /\ Js.getProp (Js.getProp m "meta") "queueMaxSize"
             = JNum (maxQueueSize cfg))).

End QueueTrace.

Module ArrayOutTrace.
Import Timers ArrayOut ArrayOutSpec.

(** A message the collector ignores: it has no [meta], or its position
    is not a number, or it is a number below 0 or at least
    [expectedCount] (NaN is neither). *)
Definition ignored (cfg : Config) (msg : JsVal) : Prop :=
  match arrayPosition msg with
  | None => True
  | Some position =>
      Js.lessThan position 0 || Js.atLeast position (expectedCount cfg) = true
  end.

(** A cycle in progress has at least one slot filled and at least one
    slot empty. *)
Definition Partial (cfg : Config) (s : State) : Prop :=
  isCollecting s = true -> 1 <= count s < expectedCount cfg.

(** What a run of items at integer positions keeps: the invariant of the
    collector, a cycle in progress that is partial, and no property of
    the collection beside the indices. *)
Definition Kept (cfg : Config) (s : State) : Prop :=
  Inv cfg s /\ Partial cfg s /\ strays s = [].

(** What a timeout message reports about the cycle it ends. *)
Definition partialReport (cfg : Config) (meta : JsVal) : Prop :=
  exists k missing,
    Js.getProp meta "timeout" = JBool true
    /\ Js.getProp meta "expectedCount" = JNum (expectedCount cfg)
    /\ Js.getProp meta "collectedCount" = JNum k
    /\ Js.getProp meta "missingPositions" = JArr (JNum <$> missing)
    /\ 1 <= k < expectedCount cfg
    /\ k + Z.of_nat (length missing) = expectedCount cfg.

(** The array has one element per position, each of them collected. *)
Definition gapless (cfg : Config) (c : gmap Z JsVal) (result : list JsVal)
  : Prop :=
  Z.of_nat (length result) = expectedCount cfg
  /\ forall i, 0 <= i < expectedCount cfg ->
       exists v, c !! i = Some v /\ result !! Z.to_nat i = Some v.

End ArrayOutTrace.

Module NodeUtilsSpec.
Import NodeUtils.

(** [a-z0-9_] *)
Definition isKeyOrUnderscore (a : ascii) : bool :=
  isKeyChar a || Ascii.eqb a "_".

Definition startsWithUnderscore (s : string) : bool :=
  match s with
  | EmptyString => false
  | String a _ => Ascii.eqb a "_"
  end.

Fixpoint endsWithUnderscore (s : string) : bool :=
  match s with
  | EmptyString => false
  | String a EmptyString => Ascii.eqb a "_"
  | String _ r => endsWithUnderscore r
  end.

Fixpoint hasDoubleUnderscore (s : string) : bool :=
  match s with
  | EmptyString => false
  | String a r =>
      (Ascii.eqb a "_" && startsWithUnderscore r) || hasDoubleUnderscore r
  end.

(** A key as the metrics path needs it: not empty, made of lower-case
    letters, digits and single underscores between them. *)
Definition isKey (s : string) : bool :=
  negb (String.eqb s "")
  && JsStr.all isKeyOrUnderscore s
  && negb (startsWithUnderscore s)
  && negb (endsWithUnderscore s)
  && negb (hasDoubleUnderscore s).

End NodeUtilsSpec.

Module SaveFileSpec.
Import SaveFile.

(** The file types the handler writes. *)
Definition supportedTypes : list string := ["image"; "json"; "text"; "binary"].

(** The names the overwrite protection tries, in order: the plain name,
    then the variants numbered 2 to 999. *)
Definition candidates (baseName extension : string) : list string :=
  (baseName +:+ "." +:+ extension)
  :: (variant baseName extension <$> seqZ 2 998).

(** The first candidate for which no file exists. *)
Definition firstFree (fileExists : string -> bool)
  (join : string -> string -> string) (folderPath : string)
  (names : list string) : option string :=
  head (filter (fun f => fileExists (join folderPath f) = false) names).

End SaveFileSpec.

Module BlockDetectSpec.
Import BlockDetect.

(** The tick raised a warning. *)
Definition alerted (e : Entry) : bool :=
  existsb (fun o => match o with Warn _ => true | _ => false end) (outs e).

(** The reading of the tick reached the threshold. *)
Definition overThreshold (cfg : Config) (e : Entry) : bool :=
  geq (max (stats e)) (thresholdMs cfg).

(** The times of the warnings of a log. *)
Definition alertTimes (log : list Entry) : list Z :=
  at_ <$> filter (fun e => alerted e = true) log.

(** The colours the log shows. *)
Definition fills (log : list Entry) : list string :=
  log ≫= fun e =>
    omap (fun o => match o with
                   | Status fill _ _ => Some fill
                   | _ => None
                   end) (outs e).

End BlockDetectSpec.

(** Inputs of the examples for the further nodes. *)

Module Fixture.
Import Scenario.

(** A selector of the slice [1:3], returning the element itself when
    there is one only. *)
Definition sliceNode : ArraySelect.Node :=
  ArraySelect.create "" "" "" "" (JStr "1:3") JUndefined.

Definition letters : list JsVal := [JStr "a"; JStr "b"; JStr "c"; JStr "d"].

(** A queue of capacity 1 that evicts entries older than 50 ms. *)
Definition boundedCfg : QueueCommon.Config :=
  {| QueueCommon.maxQueueSize := 1; QueueCommon.intervalMs := 1000;
     QueueCommon.timeoutMs := 50; QueueCommon.mode := QueueCommon.Legacy |}.

(** Three messages, the last one after the second has aged out. *)
Definition slowBurst : list (QueueCommon.Event * Z) :=
  [(QueueCommon.EInput (JObj [("payload", JStr "a")]), 1);
   (QueueCommon.EInput (JObj [("payload", JStr "b")]), 2);
   (QueueCommon.EInput (JObj [("payload", JStr "c")]), 60)].

(** A tagger with the literal position 2. *)
Definition tagger : ArrayIn.Node := ArrayIn.create "" "" "" (JNum 2).

(** A watchdog that warns after two readings in a row of 120 ms or more,
    at most once in 30 seconds. *)
Definition watchdog : BlockDetect.Config :=
  {| BlockDetect.intervalMs := 1000; BlockDetect.thresholdMs := 120;
     BlockDetect.consecutive := 2; BlockDetect.cooldownMs := 30000;
     BlockDetect.showStats := true; BlockDetect.monitorAvailable := true |}.

(** A reading of the histogram with the maximum [maxNs], in nanoseconds,
    taken at [now]. *)
Definition reading (maxNs : Z) (now : Z) : BlockDetect.Env :=
  {| BlockDetect.histMean := Some (inject_Z maxNs);
     BlockDetect.histMax := Some (inject_Z maxNs);
     BlockDetect.histMin := Some (inject_Z maxNs);
     BlockDetect.perfNow := inject_Z now;
     BlockDetect.dateNow := now |}.

(** Slow readings throughout: every second reading could warn. *)
Definition slowReadings : list BlockDetect.Env :=
  [reading 200000000 100000; reading 200000000 101000;
   reading 200000000 102000; reading 200000000 103000;
   reading 5000000 104000;
   reading 200000000 140000; reading 200000000 141000].

End Fixture.

(** * Lemmas and theorems *)

(** ** Facts about object properties *)

Module JsFacts.
Import Js.

Lemma assocGet_assocSet_eq k v ps : assocGet k (assocSet k v ps) = Some v.
Proof.
  induction ps as [|[k' v'] ps IH]; cbn.
  - by rewrite String.eqb_refl.
  - destruct (String.eqb k k') eqn:E; cbn.
    + by rewrite String.eqb_refl.
    + by rewrite E.
Qed.

Lemma assocGet_assocSet_ne k k' v ps :
  k <> k' -> assocGet k' (assocSet k v ps) = assocGet k' ps.
Proof.
  intros Hne. induction ps as [|[k0 v0] ps IH]; cbn.
  - apply not_eq_sym, String.eqb_neq in Hne. by rewrite Hne.
  - destruct (String.eqb k k0) eqn:E; cbn.
    + apply String.eqb_eq in E. subst k0.
      apply not_eq_sym, String.eqb_neq in Hne. by rewrite Hne.
    + by rewrite IH.
Qed.

Lemma getProp_setProp_eq o k v :
  isObject o = true -> getProp (setProp o k v) k = v.
Proof.
  destruct o; try discriminate. intros _. cbn.
  by rewrite assocGet_assocSet_eq.
Qed.

Lemma getProp_setProp_ne o k k' v :
  k <> k' -> getProp (setProp o k v) k' = getProp o k'.
Proof.
  intros Hne. destruct o; try reflexivity. cbn.
  by rewrite assocGet_assocSet_ne.
Qed.

Lemma isObject_setProp o k v : isObject (setProp o k v) = isObject o.
Proof. by destruct o. Qed.

Lemma getProp_setProp2_eq o a k v :
  isObject o = true ->
  getProp (setProp2 o a k v) a = setProp (getProp o a) k v.
Proof. intros H. unfold setProp2. by rewrite getProp_setProp_eq. Qed.

Lemma getProp_setProp2_ne o a k v k' :
  a <> k' -> getProp (setProp2 o a k v) k' = getProp o k'.
Proof. intros H. unfold setProp2. by rewrite getProp_setProp_ne. Qed.

Lemma isObject_setProp2 o a k v : isObject (setProp2 o a k v) = isObject o.
Proof. unfold setProp2. apply isObject_setProp. Qed.

Lemma isObject_metaOrEmpty m : plainMeta m -> isObject (metaOrEmpty m) = true.
Proof.
  intros [_ [H|H]]; unfold metaOrEmpty.
  - by rewrite H.
  - by destruct (truthy (getProp m "meta")).
Qed.

End JsFacts.

(** ** Position tagger: position resolution *)

Module ArrayInFacts.
Import ArrayIn ArrayInSpec.




End ArrayInFacts.
(** ** Facts about the timer service *)

Module TimersFacts.
Import Timers.

Section table.
Context {C : Type}.
Implicit Types (t : Table C) (h : Handle) (cb : C).

Lemma wf_empty : wf (@Timers.empty C).
Proof. split; [constructor|constructor]. Qed.

Lemma wf_setTimeout cb delay now t : wf t -> wf (setTimeout cb delay now t).2.
Proof.
  intros [Hnd Hlt]. split; cbn.
  - rewrite fmap_app. apply NoDup_app. split; [done|]. split.
    + intros x Hx Hx'. cbn in Hx'. apply list_elem_of_singleton in Hx'. subst x.
      apply list_elem_of_fmap in Hx as (y & Hy & Hin).
      rewrite Forall_forall in Hlt. specialize (Hlt y Hin). lia.
    + cbn. apply NoDup_singleton.
  - apply Forall_app. split.
    + eapply Forall_impl; [exact Hlt|]. cbn. intros; lia.
    + constructor; [cbn; lia|constructor].
Qed.

Lemma wf_clearTimeout h t : wf t -> wf (clearTimeout h t).
Proof.
  intros [Hnd Hlt]. split; cbn.
  - assert (Hsub : handle <$> filter (fun x => handle x ≠ h) (pending t)
                   `sublist_of` handle <$> pending t)
      by apply fmap_sublist, sublist_filter.
    exact (sublist_NoDup _ _ Hnd Hsub).
  - rewrite Forall_forall in Hlt. apply Forall_forall. intros x Hx.
    apply list_elem_of_filter in Hx as [_ Hx]. by apply Hlt.
Qed.

Lemma find_fresh t : wf t -> find (nextHandle t) t = None.
Proof.
  intros [_ Hlt]. unfold find.
  assert (list_find (fun x => handle x = nextHandle t) (pending t) = None)
    as ->; [|reflexivity].
  apply list_find_None. eapply Forall_impl; [exact Hlt|]. cbn. intros; lia.
Qed.

Lemma find_setTimeout_new cb delay now t :
  wf t ->
  find (nextHandle t) (setTimeout cb delay now t).2 =
  Some {| handle := nextHandle t; callback := cb;
          due := now + clampDelay delay |}.
Proof.
  intros Hwf. pose proof (find_fresh t Hwf) as Hf. unfold find in *. cbn.
  destruct (list_find (fun x => handle x = nextHandle t) (pending t))
    as [[i x]|] eqn:E; [discriminate|].
  rewrite list_find_app_r by done. cbn.
  rewrite decide_True by done. reflexivity.
Qed.

Lemma find_clearTimeout_same h t : find h (clearTimeout h t) = None.
Proof.
  unfold find. cbn.
  assert (list_find (fun x => handle x = h)
            (filter (fun x => handle x ≠ h) (pending t)) = None)
    as ->; [|reflexivity].
  apply list_find_None, Forall_forall. intros x Hx.
  by apply list_elem_of_filter in Hx as [Hx _].
Qed.

Lemma outstanding_setTimeout p cb delay now t :
  outstanding p (setTimeout cb delay now t).2 =
  outstanding p t ++ (if p cb then [nextHandle t] else []).
Proof.
  unfold outstanding. cbn. rewrite filter_app, fmap_app. f_equal.
  rewrite filter_cons. cbn. destruct (p cb) eqn:E.
  - rewrite decide_True by done. reflexivity.
  - rewrite decide_False by congruence. reflexivity.
Qed.

Lemma outstanding_clearTimeout p h t :
  outstanding p (clearTimeout h t) =
  filter (fun x => x ≠ h) (outstanding p t).
Proof.
  unfold outstanding. cbn.
  induction (pending t) as [|x l IH]; [reflexivity|].
  rewrite (filter_cons (fun x => handle x ≠ h)).
  rewrite (filter_cons (fun x => p (callback x) = true) x l).
  destruct (decide (handle x ≠ h)) as [Hh|Hh];
    destruct (decide (p (callback x) = true)) as [Hp|Hp].
  - rewrite filter_cons, decide_True by done. rewrite !fmap_cons.
    rewrite filter_cons, decide_True by done. by rewrite IH.
  - rewrite filter_cons, decide_False by done. exact IH.
  - rewrite fmap_cons, filter_cons, decide_False by done. exact IH.
  - exact IH.
Qed.

Lemma find_Some_outstanding p h t x :
  find h t = Some x -> p (callback x) = true -> h ∈ outstanding p t.
Proof.
  unfold find, outstanding. intros Hf Hp.
  destruct (list_find _ _) as [[i y]|] eqn:E; [|discriminate].
  cbn in Hf. injection Hf as ->.
  apply list_find_Some in E as (Hi & Hh & _).
  apply list_elem_of_fmap. exists x. split; [done|].
  apply list_elem_of_filter. split; [done|].
  eapply list_elem_of_lookup_2. exact Hi.
Qed.

End table.
End TimersFacts.

(** ** Ordered collector: step lemmas *)

Module ArrayOutFacts.
Import Timers ArrayOut ArrayOutSpec.

Ltac munfold :=
  unfold input, fire, close, handleTimeout, assembleAndOutput,
    startCollection, store, resetCollection, armTimer, setStatusReady,
    arrayFrom, tryCatch, bind, ret, throw, emit, gets, modify.

(** *** Positions *)

Lemma clamp_spec z :
  let c := Js.clamp z in
  (Z.abs z < Js.INFINITY /\ c = z)
  \/ (Js.INFINITY <= z /\ c = Js.INFINITY)
  \/ (z <= - Js.INFINITY /\ c = - Js.INFINITY).
Proof.
  cbv zeta. unfold Js.clamp.
  assert (0 < Js.INFINITY) by (unfold Js.INFINITY; by apply Z.pow_pos_nonneg).
  lia.
Qed.

Lemma integerOf_lessThan_0 v p :
  Js.integerOf v = Some p -> Js.lessThan v 0 = (p <? 0).
Proof.
  assert (Hinf : 0 < Js.INFINITY)
    by (unfold Js.INFINITY; by apply Z.pow_pos_nonneg).
  assert (H0 : Js.clamp 0 = 0) by (unfold Js.clamp; lia).
  destruct v as [| |b|q| |neg s n|str|l|ps]; try done; cbn; rewrite H0.
  - intros [= ->]. apply eq_true_iff_eq. rewrite !Z.ltb_lt.
    pose proof (clamp_spec p). cbv zeta in *. lia.
  - set (a := Js.mantissa neg s). set (e := Js.exponent s n).
    destruct (0 <=? e) eqn:E.
    { intros [= <-]. apply eq_true_iff_eq. rewrite !Z.ltb_lt.
      pose proof (clamp_spec (a * 10 ^ e)). cbv zeta in *. lia. }
    apply Z.leb_gt in E.
    destruct (a mod 10 ^ (- e) =? 0) eqn:Em; [|done]. intros [= <-].
    apply Z.eqb_eq in Em.
    assert (Hk : 0 < 10 ^ (- e)) by (apply Z.pow_pos_nonneg; lia).
    pose proof (Z.div_mod a (10 ^ (- e)) ltac:(lia)) as Hd.
    rewrite Em, Z.add_0_r in Hd.
    apply eq_true_iff_eq. rewrite !Z.ltb_lt.
    set (K := 10 ^ (- e)) in *. set (q := a / K) in *. nia.
Qed.

Lemma integerOf_atLeast v p z :
  Js.isInteger z = true ->
  Js.integerOf v = Some p -> Js.atLeast v z = (z <=? p).
Proof.
  intros Hz. unfold Js.isInteger in Hz. apply Z.ltb_lt in Hz.
  assert (Hc : Js.clamp z = z) by (unfold Js.clamp; lia).
  destruct v as [| |b|q| |neg s n|str|l|ps]; try done; cbn; rewrite Hc.
  - intros [= ->]. apply eq_true_iff_eq. rewrite !Z.leb_le.
    pose proof (clamp_spec p). cbv zeta in *. lia.
  - set (a := Js.mantissa neg s). set (e := Js.exponent s n).
    destruct (0 <=? e) eqn:E.
    { intros [= <-]. apply eq_true_iff_eq. rewrite !Z.leb_le.
      pose proof (clamp_spec (a * 10 ^ e)). cbv zeta in *. lia. }
    apply Z.leb_gt in E.
    destruct (a mod 10 ^ (- e) =? 0) eqn:Em; [|done]. intros [= <-].
    apply Z.eqb_eq in Em.
    assert (Hk : 0 < 10 ^ (- e)) by (apply Z.pow_pos_nonneg; lia).
    pose proof (Z.div_mod a (10 ^ (- e)) ltac:(lia)) as Hd.
    rewrite Em, Z.add_0_r in Hd.
    apply eq_true_iff_eq. rewrite !Z.leb_le.
    set (K := 10 ^ (- e)) in *. set (q := a / K) in *. nia.
Qed.

(** A number that passes the range check and is an integer is an index
    below [N]. *)
Lemma in_range_index v p N :
  Js.integerOf v = Some p ->
  Js.lessThan v 0 || Js.atLeast v N = false ->
  0 <= p < N.
Proof.
  intros Hv Hr. apply orb_false_iff in Hr as [Hl Hg].
  rewrite (integerOf_lessThan_0 v p Hv) in Hl. apply Z.ltb_ge in Hl.
  split; [done|].
  assert (Hinf : 0 < Js.INFINITY)
    by (unfold Js.INFINITY; by apply Z.pow_pos_nonneg).
  destruct v as [| |b|q| |neg s n|str|l|ps]; try done; cbn in Hv, Hg.
  - injection Hv as ->. apply Z.leb_gt in Hg.
    pose proof (clamp_spec p). pose proof (clamp_spec N). cbv zeta in *. lia.
  - set (a := Js.mantissa neg s) in *. set (e := Js.exponent s n) in *.
    destruct (0 <=? e) eqn:E.
    { injection Hv as <-. apply Z.leb_gt in Hg.
      pose proof (clamp_spec (a * 10 ^ e)). pose proof (clamp_spec N).
      cbv zeta in *. lia. }
    apply Z.leb_gt in E.
    destruct (a mod 10 ^ (- e) =? 0) eqn:Em; [|done]. injection Hv as <-.
    apply Z.eqb_eq in Em. apply Z.leb_gt in Hg.
    assert (Hk : 0 < 10 ^ (- e)) by (apply Z.pow_pos_nonneg; lia).
    pose proof (Z.div_mod a (10 ^ (- e)) ltac:(lia)) as Hd.
    rewrite Em, Z.add_0_r in Hd.
    pose proof (clamp_spec N). cbv zeta in *.
    set (K := 10 ^ (- e)) in *. set (q := a / K) in *.
    set (c := Js.clamp N) in *. nia.
Qed.

Lemma positionOf_Some msg p :
  positionOf msg = Some p <->
  exists v, arrayPosition msg = Some v /\ Js.integerOf v = Some p.
Proof.
  unfold positionOf. destruct (arrayPosition msg) as [v|]; cbn.
  - split; [eauto|]. by intros (? & [= <-] & ?).
  - split; [done|]. by intros (? & ? & _).
Qed.

(** The range check of the handler, for a position that is an integer. *)
Lemma range_check v p N :
  Js.isInteger N = true ->
  Js.integerOf v = Some p ->
  Js.lessThan v 0 || Js.atLeast v N = (p <? 0) || (N <=? p).
Proof.
  intros HN Hv.
  by rewrite (integerOf_lessThan_0 v p Hv), (integerOf_atLeast v p N HN Hv).
Qed.

(** A position that is read from a tagged message. *)
Lemma positionOf_tagged p v : positionOf (tagged p v) = Some p.
Proof. reflexivity. Qed.

(** *** Indices are read back from their names *)

Lemma digit_value x :
  (x < 10)%N -> Js.digitVal (pretty_N_char x) = Some (Z.of_N x).
Proof.
  intros Hx.
  assert (x = 0 \/ x = 1 \/ x = 2 \/ x = 3 \/ x = 4 \/ x = 5 \/ x = 6
          \/ x = 7 \/ x = 8 \/ x = 9)%N as Hc by lia.
  by repeat (destruct Hc as [->|Hc]); [..|subst x].
Qed.

Lemma parseDigits_pretty x :
  (0 < x)%N ->
  exists K, forall s acc,
    Js.parseDigits 10 acc (pretty_N_go x s)
    = Js.parseDigits 10 (Some (default 0 acc * K + Z.of_N x)) s.
Proof.
  induction (N.lt_wf_0 x) as [x _ IH]. intros Hx.
  assert (Hm : (x `mod` 10 < 10)%N) by (apply N.mod_lt; lia).
  destruct (decide (x `div` 10 = 0)%N) as [E|E].
  - exists 10. intros s acc. rewrite pretty_N_go_step, E, pretty_N_go_0 by done.
    cbn [Js.parseDigits]. rewrite (digit_value _ Hm).
    replace (Z.of_N (x `mod` 10) <? 10) with true by (symmetry; apply Z.ltb_lt; lia).
    do 3 f_equal. pose proof (N.div_mod x 10 ltac:(lia)). lia.
  - destruct (IH (x `div` 10)%N) as [K HK];
      [apply N.div_lt; lia|by apply N.neq_0_lt_0|].
    exists (K * 10). intros s acc. rewrite pretty_N_go_step, HK by done.
    cbn [Js.parseDigits]. rewrite (digit_value _ Hm).
    replace (Z.of_N (x `mod` 10) <? 10) with true by (symmetry; apply Z.ltb_lt; lia).
    do 2 f_equal. cbn [default].
    pose proof (N.div_mod x 10 ltac:(lia)).
    rewrite (N2Z.inj_div x 10), (N2Z.inj_mod x 10).
    pose proof (Z.div_mod (Z.of_N x) 10 ltac:(lia)). change (Z.of_N 10) with 10.
    unfold id. lia.
Qed.

(** The first character of a positive number is a digit from 1 to 9. *)
Lemma pretty_leading x :
  (0 < x)%N -> forall s, exists d r, pretty_N_go x s = String d r /\ leading d.
Proof.
  induction (N.lt_wf_0 x) as [x _ IH]. intros Hx s.
  rewrite pretty_N_go_step by done.
  destruct (decide (x `div` 10 = 0)%N) as [E|E].
  - rewrite E, pretty_N_go_0. eexists _, _. split; [reflexivity|].
    assert (x < 10)%N.
    { destruct (decide (x < 10)%N); [done|].
      assert (1 <= x `div` 10)%N; [|lia].
      apply N.div_le_lower_bound; lia. }
    rewrite N.mod_small by done.
    assert (x = 1 \/ x = 2 \/ x = 3 \/ x = 4 \/ x = 5 \/ x = 6
            \/ x = 7 \/ x = 8 \/ x = 9)%N as Hc by lia.
    unfold leading.
    repeat (destruct Hc as [->|Hc]); [..|subst x]; cbn; set_solver.
  - apply IH; [apply N.div_lt; lia|by apply N.neq_0_lt_0].
Qed.

Lemma parseInt_leading d r :
  leading d ->
  Js.parseInt None (JStr (String d r))
  = (fun n => Js.nearestDouble n) <$> Js.parseDigits 10 None (String d r).
Proof.
  intros Hd. unfold leading in Hd.
  unfold Js.parseInt, Js.trimStart. cbn [Js.ToString].
  assert (Hskip : Js.skipWhite false (String d r) = String d r).
  { repeat (apply elem_of_cons in Hd as [->|Hd]);
      try (by apply elem_of_nil in Hd);
      destruct r as [|b [|c r]]; reflexivity. }
  rewrite Hskip.
  repeat (apply elem_of_cons in Hd as [->|Hd]);
    try (by apply elem_of_nil in Hd);
    cbn -[Js.parseDigits Js.nearestDouble];
    destruct (Js.parseDigits 10 None _); cbn -[Js.nearestDouble];
    try done; f_equal; by destruct (Js.nearestDouble _).
Qed.

Lemma nearestDouble_small z :
  0 <= z < 2 ^ 53 -> Js.nearestDouble z = z.
Proof.
  intros Hz. unfold Js.nearestDouble.
  destruct (decide (z = 0)) as [->|Hne]; [done|].
  replace (Z.log2 z <? 53) with true; [done|].
  symmetry. apply Z.ltb_lt. apply Z.log2_lt_pow2; lia.
Qed.

(** [parseInt(String(i))] is [i] for an index [i]. *)
Lemma parseInt_index i :
  0 <= i < 2 ^ 53 ->
  Js.parseInt None (JStr (Js.ToString (JNum i))) = Some i.
Proof.
  intros Hi. cbn [Js.ToString]. unfold Js.renderInteger.
  replace (i <? 0) with false by (symmetry; apply Z.ltb_ge; lia).
  replace (i <? 2 ^ 53) with true by (symmetry; apply Z.ltb_lt; lia).
  destruct i as [|p|p]; [done| |lia].
  change (pretty (Z.pos p)) with (pretty_N_go (N.pos p) "").
  destruct (pretty_leading (N.pos p) ltac:(lia) "") as (d & r & Hs & Hd).
  rewrite Hs, (parseInt_leading d r Hd), <- Hs.
  destruct (parseDigits_pretty (N.pos p) ltac:(lia)) as [K HK].
  rewrite HK. cbn [Js.parseDigits default fmap option_fmap option_map].
  f_equal. rewrite Z.mul_0_l, Z.add_0_l. by apply nearestDouble_small.
Qed.

(** *** The handlers, case by case *)

Lemma place_spec h cfg m result s :
  place h cfg m result s =
  match placed h cfg m result with
  | Some (m', o) => (Ok m', s, o)
  | None => (Throw (placeError cfg), s, [])
  end.
Proof.
  unfold place, placed, placeError, bind, ret, throw, emit.
  destruct (String.eqb (outputPathType cfg) "msg").
  { destruct (setMessageProperty h m (outputPath cfg) (JArr result)); reflexivity. }
  destruct (String.eqb (outputPathType cfg) "flow").
  { destruct (contextSet h FlowScope (outputPath cfg) (JArr result)); reflexivity. }
  destruct (String.eqb (outputPathType cfg) "global").
  { destruct (contextSet h GlobalScope (outputPath cfg) (JArr result)); reflexivity. }
  reflexivity.
Qed.

Lemma sentOn_app ch (a b : list Out) :
  sentOn ch (a ++ b) = sentOn ch a ++ sentOn ch b.
Proof. unfold sentOn. apply omap_app. Qed.

Lemma stored_app (a b : list Out) : stored (a ++ b) = stored a ++ stored b.
Proof. unfold stored. apply omap_app. Qed.

Lemma reported_app (a b : list Out) :
  reported (a ++ b) = reported a ++ reported b.
Proof. unfold reported. apply omap_app. Qed.

Lemma sentOn_status ch st (l : list Out) :
  sentOn ch (Status st :: l) = sentOn ch l.
Proof. reflexivity. Qed.

Lemma stored_status st (l : list Out) : stored (Status st :: l) = stored l.
Proof. reflexivity. Qed.

Lemma quiet_app (a b : list Out) : quiet a -> quiet b -> quiet (a ++ b).
Proof. unfold quiet. intros. by apply Forall_app. Qed.

Lemma quiet_sentOn ch outs : quiet outs -> sentOn ch outs = [].
Proof.
  induction 1 as [|o outs [st ->] _ IH]; [done|]. exact IH.
Qed.

Lemma quiet_stored outs : quiet outs -> stored outs = [].
Proof.
  induction 1 as [|o outs [st ->] _ IH]; [done|]. exact IH.
Qed.

Lemma quiet_reported outs : quiet outs -> reported outs = [].
Proof.
  induction 1 as [|o outs [st ->] _ IH]; [done|]. exact IH.
Qed.

Lemma quiet_startStatus cfg s : quiet (startStatus cfg s).
Proof.
  unfold startStatus, quiet. destruct (isCollecting s); repeat constructor.
  eauto.
Qed.

Lemma placed_silent h cfg m r m' o ch :
  placed h cfg m r = Some (m', o) -> sentOn ch o = [].
Proof.
  unfold placed. repeat case_match; intros; simplify_option_eq; reflexivity.
Qed.

Lemma placed_reported h cfg m r m' o :
  placed h cfg m r = Some (m', o) -> reported o = [].
Proof.
  unfold placed. repeat case_match; intros; simplify_option_eq; reflexivity.
Qed.

Lemma placed_no_failed h cfg m r m' o e :
  placed h cfg m r = Some (m', o) -> Failed e ∉ o.
Proof.
  unfold placed. repeat case_match; intros; simplify_option_eq; set_solver.
Qed.

(** A message without a numeric position is dropped with a warning. *)
Lemma input_missing_meta h cfg msg now s :
  arrayPosition msg = None ->
  input h cfg msg now s = (Ok tt, s, [Warn WMissingMeta]).
Proof. intros Hp. munfold. rewrite Hp. reflexivity. Qed.

(** A position that fails the range check is dropped with a warning. *)
Lemma input_rejected h cfg msg now s v :
  arrayPosition msg = Some v ->
  Js.lessThan v 0 || Js.atLeast v (expectedCount cfg) = true ->
  input h cfg msg now s =
  (Ok tt, s, [Warn (WOutOfRange v (expectedCount cfg))]).
Proof. intros Hp Hr. munfold. rewrite Hp, Hr. reflexivity. Qed.

(** A position that passes the range check is stored; when the count of
    the properties of the collection is not [expectedCount], that is
    all. *)
Lemma input_kept h cfg msg now s v :
  arrayPosition msg = Some v ->
  Js.lessThan v 0 || Js.atLeast v (expectedCount cfg) = false ->
  let s1 := kept v (dataOf msg) (begun cfg now s) in
  count s1 <> expectedCount cfg ->
  input h cfg msg now s =
  (Ok tt, s1,
   startStatus cfg s ++
   [Status (StCollecting (count s1) (expectedCount cfg))]).
Proof.
  intros Hp Hr s1 Hsz. subst s1. revert Hsz.
  unfold begun, startStatus, kept. munfold. rewrite Hp, Hr.
  destruct (isCollecting s) eqn:Hc;
    cbn -[count size insert Js.integerOf Js.assocSet Js.ToString]; intros Hsz;
    apply Z.eqb_neq in Hsz; rewrite Hsz;
    cbn -[count size insert Js.integerOf Js.assocSet Js.ToString];
    rewrite ?Hc; reflexivity.
Qed.

(** When the count is [expectedCount], the array is built, placed and
    sent, and the cycle ends. *)
Lemma input_full h cfg msg now s v m' o :
  arrayPosition msg = Some v ->
  Js.lessThan v 0 || Js.atLeast v (expectedCount cfg) = false ->
  let s1 := kept v (dataOf msg) (begun cfg now s) in
  count s1 = expectedCount cfg ->
  expectedCount cfg <= MAX_ARRAY_LENGTH ->
  placed h cfg msg (buildResult cfg (collection s1)) = Some (m', o) ->
  input h cfg msg now s =
  (Ok tt, finished now (begun cfg now s),
   startStatus cfg s ++
   [Status (StCollecting (expectedCount cfg) (expectedCount cfg))] ++ o ++
   [Status (StComplete
              (Z.of_nat (length (buildResult cfg (collection s1))))
              (now - default 0 (collectionStartTime (begun cfg now s))));
    Send primary m']).
Proof.
  intros Hp Hr s1 Hsz Hmax Hpl. subst s1. revert Hsz Hpl.
  apply Z.ltb_ge in Hmax.
  unfold begun, startStatus, finished, cleared, withTimers, kept.
  munfold. rewrite Hp, Hr, Hmax.
  destruct (isCollecting s) eqn:Hc;
    cbn -[count size insert buildResult Js.integerOf Js.assocSet Js.ToString];
    intros Hsz Hpl; rewrite Hsz, Z.eqb_refl, place_spec;
    cbn -[count size insert buildResult placed Js.integerOf Js.assocSet
          Js.ToString];
    rewrite Hpl;
    cbn -[count size insert buildResult Js.integerOf Js.assocSet Js.ToString];
    rewrite <- ?app_assoc; reflexivity.
Qed.

(** When the host refuses the placement, the handler catches the error,
    resets the collection and reports the failure. *)
Lemma input_full_error h cfg msg now s v :
  arrayPosition msg = Some v ->
  Js.lessThan v 0 || Js.atLeast v (expectedCount cfg) = false ->
  let s1 := kept v (dataOf msg) (begun cfg now s) in
  count s1 = expectedCount cfg ->
  expectedCount cfg <= MAX_ARRAY_LENGTH ->
  placed h cfg msg (buildResult cfg (collection s1)) = None ->
  input h cfg msg now s =
  (Ok tt, cleared (begun cfg now s),
   startStatus cfg s ++
   [Status (StCollecting (expectedCount cfg) (expectedCount cfg));
    Status StError; Failed (placeError cfg)]).
Proof.
  intros Hp Hr s1 Hsz Hmax Hpl. subst s1. revert Hsz Hpl.
  apply Z.ltb_ge in Hmax.
  unfold begun, startStatus, cleared, kept.
  munfold. rewrite Hp, Hr, Hmax.
  destruct (isCollecting s) eqn:Hc;
    cbn -[count size insert buildResult Js.integerOf Js.assocSet Js.ToString];
    intros Hsz Hpl; rewrite Hsz, Z.eqb_refl, place_spec;
    cbn -[count size insert buildResult placed Js.integerOf Js.assocSet
          Js.ToString];
    rewrite Hpl;
    cbn -[count size insert buildResult Js.integerOf Js.assocSet Js.ToString];
    reflexivity.
Qed.

(** An array of more than [2^32 - 1] elements is not built: the handler
    catches the RangeError, resets the collection and reports it. *)
Lemma input_too_long h cfg msg now s v :
  arrayPosition msg = Some v ->
  Js.lessThan v 0 || Js.atLeast v (expectedCount cfg) = false ->
  let s1 := kept v (dataOf msg) (begun cfg now s) in
  count s1 = expectedCount cfg ->
  MAX_ARRAY_LENGTH < expectedCount cfg ->
  input h cfg msg now s =
  (Ok tt, cleared (begun cfg now s),
   startStatus cfg s ++
   [Status (StCollecting (expectedCount cfg) (expectedCount cfg));
    Status StError; Failed (HostError "Invalid array length")]).
Proof.
  intros Hp Hr s1 Hsz Hmax. subst s1. revert Hsz.
  apply Z.ltb_lt in Hmax.
  unfold begun, startStatus, cleared, kept.
  munfold. rewrite Hp, Hr, Hmax.
  destruct (isCollecting s) eqn:Hc;
    cbn -[count size insert buildResult Js.integerOf Js.assocSet Js.ToString];
    intros Hsz; rewrite Hsz, Z.eqb_refl;
    cbn -[count size insert buildResult Js.integerOf Js.assocSet Js.ToString];
    reflexivity.
Qed.

(** *** Items whose position is an index *)

Lemma kept_index v p d s :
  Js.integerOf v = Some p ->
  kept v d s = withCollection (<[p := d]> (collection s)) s.
Proof. intros Hv. unfold kept, withCollection. by rewrite Hv. Qed.

Lemma strays_begun cfg now s : strays (begun cfg now s) = viewStrays s.
Proof. unfold begun, viewStrays. by destruct (isCollecting s). Qed.

Lemma collection_begun cfg now s : collection (begun cfg now s) = view s.
Proof. unfold begun, view. by destruct (isCollecting s). Qed.

Lemma isCollecting_begun cfg now s : isCollecting (begun cfg now s) = true.
Proof. unfold begun. by destruct (isCollecting s) eqn:E. Qed.

Lemma count_tidy s :
  strays s = [] -> count s = Z.of_nat (size (collection s)).
Proof. unfold count. intros ->. cbn. f_equal. lia. Qed.

Lemma finite_bound N : N <= MAX_ARRAY_LENGTH -> 1 <= N -> Js.isInteger N = true.
Proof.
  unfold MAX_ARRAY_LENGTH, Js.isInteger, Js.INFINITY. intros H1 H2.
  apply Z.ltb_lt.
  assert (2 ^ 32 <= 2 ^ 1024) by (apply Z.pow_le_mono_r; lia).
  assert (2 ^ 32 = 4294967296) by reflexivity. lia.
Qed.

Section Index.
Context (h : Host) (cfg : Config) (msg : JsVal) (now : Z) (s : State) (p : Z).
Hypothesis Hfinite : Js.isInteger (expectedCount cfg) = true.
Hypothesis Hp : positionOf msg = Some p.

(** An out-of-range index is dropped with a warning. *)
Lemma input_out_of_range :
  p < 0 \/ expectedCount cfg <= p ->
  exists v, arrayPosition msg = Some v /\ Js.integerOf v = Some p /\
  input h cfg msg now s =
  (Ok tt, s, [Warn (WOutOfRange v (expectedCount cfg))]).
Proof.
  intros Hr. apply positionOf_Some in Hp as (v & Hv & Hi).
  exists v. split; [done|]. split; [done|].
  apply input_rejected; [done|].
  rewrite (range_check v p _ Hfinite Hi). apply orb_true_iff.
  rewrite Z.ltb_lt, Z.leb_le. lia.
Qed.

Hypothesis Hr : 0 <= p < expectedCount cfg.
Hypothesis Htidy : viewStrays s = [].

Let s1 := begun cfg now s.
Let c' := <[p := dataOf msg]> (collection s1).

Lemma index_passes v :
  Js.integerOf v = Some p ->
  Js.lessThan v 0 || Js.atLeast v (expectedCount cfg) = false.
Proof.
  intros Hi. rewrite (range_check v p _ Hfinite Hi). apply orb_false_iff.
  rewrite Z.ltb_ge, Z.leb_gt. lia.
Qed.

Lemma count_index v :
  Js.integerOf v = Some p ->
  count (kept v (dataOf msg) s1) = Z.of_nat (size c').
Proof.
  intros Hi. rewrite (kept_index v p _ _ Hi). apply count_tidy. cbn.
  unfold s1. by rewrite strays_begun.
Qed.

(** An in-range item that does not complete the cycle is stored. *)
Lemma input_store :
  Z.of_nat (size c') <> expectedCount cfg ->
  input h cfg msg now s =
  (Ok tt, withCollection c' s1,
   startStatus cfg s ++
   [Status (StCollecting (Z.of_nat (size c')) (expectedCount cfg))]).
Proof.
  intros Hsz. apply positionOf_Some in Hp as (v & Hv & Hi).
  rewrite (input_kept h cfg msg now s v Hv (index_passes v Hi));
    fold s1; rewrite (count_index v Hi); [|done].
  by rewrite (kept_index v p _ _ Hi).
Qed.

(** An in-range item that fills the last free slot completes the cycle. *)
Lemma input_complete m' o :
  Z.of_nat (size c') = expectedCount cfg ->
  expectedCount cfg <= MAX_ARRAY_LENGTH ->
  placed h cfg msg (buildResult cfg c') = Some (m', o) ->
  input h cfg msg now s =
  (Ok tt, finished now s1,
   startStatus cfg s ++
   [Status (StCollecting (expectedCount cfg) (expectedCount cfg))] ++ o ++
   [Status (StComplete (Z.of_nat (length (buildResult cfg c')))
              (now - default 0 (collectionStartTime s1)));
    Send primary m']).
Proof.
  intros Hsz Hmax Hpl. apply positionOf_Some in Hp as (v & Hv & Hi).
  rewrite (input_full h cfg msg now s v m' o Hv (index_passes v Hi));
    fold s1; rewrite ?(count_index v Hi), ?(kept_index v p _ _ Hi); done.
Qed.

(** When the host refuses the placement, the cycle is reset. *)
Lemma input_error :
  Z.of_nat (size c') = expectedCount cfg ->
  expectedCount cfg <= MAX_ARRAY_LENGTH ->
  placed h cfg msg (buildResult cfg c') = None ->
  input h cfg msg now s =
  (Ok tt, cleared s1,
   startStatus cfg s ++
   [Status (StCollecting (expectedCount cfg) (expectedCount cfg));
    Status StError; Failed (placeError cfg)]).
Proof.
  intros Hsz Hmax Hpl. apply positionOf_Some in Hp as (v & Hv & Hi).
  rewrite (input_full_error h cfg msg now s v Hv (index_passes v Hi));
    fold s1; rewrite ?(count_index v Hi), ?(kept_index v p _ _ Hi); done.
Qed.

End Index.

(** *** Building the output array *)

Lemma buildResult_length cfg c :
  Z.of_nat (length (buildResult cfg c)) = Z.max 0 (expectedCount cfg).
Proof. unfold buildResult. rewrite length_fmap, length_seqZ. lia. Qed.

Lemma buildResult_lookup cfg c (i : Z) :
  0 <= i < expectedCount cfg ->
  buildResult cfg c !! Z.to_nat i = Some (default JNull (c !! i)).
Proof.
  intros Hi. unfold buildResult. rewrite list_lookup_fmap.
  rewrite lookup_seqZ_lt by lia. cbn. do 3 f_equal. lia.
Qed.

(** *** Storing a list of items *)

Lemma size_storeItem c it : (size c <= size (storeItem c it))%nat.
Proof.
  unfold storeItem. destruct (positionOf it.1) as [p|]; [|lia].
  destruct (c !! p) eqn:E.
  - rewrite map_size_insert_Some; [lia | eauto].
  - rewrite map_size_insert_None by done. lia.
Qed.

Lemma size_storeAll c items : (size c <= size (storeAll c items))%nat.
Proof.
  revert c. induction items as [|it items IH]; intros c; cbn; [lia|].
  etrans; [apply size_storeItem | apply IH].
Qed.

Lemma run_app h cfg evs1 evs2 s :
  run h cfg (evs1 ++ evs2) s =
  let '(s1, o1) := run h cfg evs1 s in
  let '(s2, o2) := run h cfg evs2 s1 in
  (s2, o1 ++ o2).
Proof.
  revert s. induction evs1 as [|[ev now] evs1 IH]; intros s; cbn.
  - destruct (run h cfg evs2 s); reflexivity.
  - destruct (step h cfg ev now s) as [[r s1] o1].
    rewrite IH. destruct (run h cfg evs1 s1) as [s2 o2].
    destruct (run h cfg evs2 s2) as [s3 o3].
    rewrite app_assoc. reflexivity.
Qed.

Lemma run_collecting h cfg items : forall s,
  Js.isInteger (expectedCount cfg) = true ->
  viewStrays s = [] ->
  Forall (inRange cfg) items ->
  Z.of_nat (size (storeAll (view s) items)) < expectedCount cfg ->
  exists s' outs,
    run h cfg (inputs items) s = (s', outs) /\
    Collecting cfg s items s' outs.
Proof.
  intros s Hfin. revert s.
  induction items as [|[msg now] items IH]; intros s Htidy Hall Hsz.
  { exists s, []. split; [reflexivity|].
    constructor; try done. constructor. }
  apply Forall_cons in Hall as [(p & Hp & Hr) Hall]. cbn in Hp.
  cbn [inputs fmap list_fmap run step fst snd].
  pose (s1 := begun cfg now s).
  pose (c' := <[p := dataOf msg]> (collection s1)).
  assert (Hview1 : collection s1 = view s) by apply collection_begun.
  assert (Hc1 : isCollecting s1 = true) by apply isCollecting_begun.
  assert (Hv2 : view (withCollection c' s1) = c').
  { unfold view, withCollection. cbn [isCollecting collection].
    rewrite Hc1. reflexivity. }
  assert (Hs2 : viewStrays (withCollection c' s1) = []).
  { unfold viewStrays, withCollection. cbn [isCollecting strays].
    rewrite Hc1. unfold s1. by rewrite strays_begun. }
  assert (Hstep : storeAll (view s) ((msg, now) :: items) =
                  storeAll (view (withCollection c' s1)) items).
  { rewrite Hv2. unfold storeAll. cbn [foldl]. f_equal.
    unfold storeItem. cbn [fst]. rewrite Hp. unfold c'.
    rewrite Hview1. reflexivity. }
  assert (Hlt : Z.of_nat (size c') < expectedCount cfg).
  { rewrite Hstep, Hv2 in Hsz.
    pose proof (size_storeAll c' items) as Hm. lia. }
  rewrite (input_store h cfg msg now s p Hfin Hp Hr Htidy)
    by (fold s1 c'; lia).
  fold s1 c'.
  destruct (IH (withCollection c' s1) Hs2 Hall) as (s' & outs & Hrun & HC).
  { rewrite <- Hstep. exact Hsz. }
  fold (inputs items). rewrite Hrun.
  eexists _, _. split; [reflexivity|].
  destruct HC as [Hv Hst Hs Hsame Hact Htm].
  constructor.
  - rewrite Hv, Hstep. reflexivity.
  - by rewrite Hst, Hs2, Htidy.
  - apply quiet_app; [|done].
    apply quiet_app; [apply quiet_startStatus|].
    repeat constructor. eauto.
  - discriminate.
  - intros _. destruct items as [|it items'].
    + rewrite (Hsame eq_refl). exact Hc1.
    + apply Hact. discriminate.
  - intros _. cbn [head fmap option_fmap option_map snd default].
    destruct items as [|it items'].
    + rewrite (Hsame eq_refl). cbn. fold s1. auto.
    + destruct Htm as (H1 & H2 & H3); [discriminate|].
      assert (Hb : forall t, begun cfg t (withCollection c' s1) =
                             withCollection c' s1).
      { intros t. unfold begun. cbn. rewrite Hc1. reflexivity. }
      rewrite Hb in H1, H2, H3. cbn in H1, H2, H3. fold s1. auto.
Qed.

Lemma storeAll_app c items1 items2 :
  storeAll c (items1 ++ items2) = storeAll (storeAll c items1) items2.
Proof. unfold storeAll. apply foldl_app. Qed.

Lemma dom_storeAll items : forall ps c,
  positioned items ps ->
  dom (storeAll c items) = dom c ∪ list_to_set ps.
Proof.
  induction items as [|it items IH]; intros ps c Hpos;
    inversion Hpos as [|? p ? ps' Hp Hrest]; subst; cbn.
  - set_solver.
  - fold (storeAll (storeItem c it) items). rewrite (IH ps') by done.
    unfold storeItem. rewrite Hp, dom_insert_L. set_solver.
Qed.

Lemma storeAll_lookup_notin items : forall ps c p,
  positioned items ps -> p ∉ ps ->
  storeAll c items !! p = c !! p.
Proof.
  induction items as [|it items IH]; intros ps c p Hpos Hnot;
    inversion Hpos as [|? q ? ps' Hq Hrest]; subst; cbn; [done|].
  fold (storeAll (storeItem c it) items).
  rewrite (IH ps') by (done || set_solver).
  unfold storeItem. rewrite Hq. apply lookup_insert_ne. set_solver.
Qed.

Lemma storeAll_lookup_nodup items : forall ps c it p,
  positioned items ps -> NoDup ps ->
  it ∈ items -> positionOf it.1 = Some p ->
  storeAll c items !! p = Some (dataOf it.1).
Proof.
  induction items as [|it0 items IH]; intros ps c it p Hpos Hnd Hin Hp;
    inversion Hpos as [|? q ? ps' Hq Hrest]; subst; [by inversion Hin|].
  apply NoDup_cons in Hnd as [Hq_notin Hnd]. cbn.
  fold (storeAll (storeItem c it0) items).
  apply elem_of_cons in Hin as [->|Hin].
  - assert (q = p) as -> by congruence.
    rewrite (storeAll_lookup_notin items ps') by done.
    unfold storeItem. rewrite Hp. apply lookup_insert_eq.
  - by apply (IH ps').
Qed.

Lemma size_storeAll_nodup items ps :
  positioned items ps -> NoDup ps ->
  size (storeAll ∅ items) = length ps.
Proof.
  intros Hpos Hnd. rewrite <- size_dom, (dom_storeAll items ps) by done.
  rewrite dom_empty_L, (left_id_L ∅ (∪)).
  by apply size_list_to_set.
Qed.

Lemma positioned_inRange cfg items ps :
  positioned items ps ->
  (forall p, p ∈ ps -> 0 <= p < expectedCount cfg) ->
  Forall (inRange cfg) items.
Proof.
  induction 1 as [|it p items ps Hp _ IH]; intros Hr; constructor.
  - exists p. split; [done|]. apply Hr. set_solver.
  - apply IH. intros q Hq. apply Hr. set_solver.
Qed.

Lemma positioned_elem items ps it p :
  positioned items ps -> it ∈ items -> positionOf it.1 = Some p -> p ∈ ps.
Proof.
  induction 1 as [|it0 q items ps Hq _ IH]; intros Hin Hp;
    [by inversion Hin|].
  apply elem_of_cons in Hin as [->|Hin].
  - assert (q = p) as -> by congruence. set_solver.
  - apply list_elem_of_further. by apply IH.
Qed.

Lemma view_idle s : isCollecting s = false -> view s = ∅.
Proof. unfold view. by intros ->. Qed.





Lemma storeAll_lookup_other items : forall c p,
  (forall it, it ∈ items -> positionOf it.1 <> Some p) ->
  storeAll c items !! p = c !! p.
Proof.
  induction items as [|it items IH]; intros c p Hno; cbn; [done|].
  fold (storeAll (storeItem c it) items).
  rewrite IH by (intros; apply Hno; set_solver).
  unfold storeItem. destruct (positionOf it.1) as [q|] eqn:Hq; [|done].
  apply lookup_insert_ne. intros ->. by apply (Hno it); [set_solver|].
Qed.

Lemma storeAll_lookup_last c items msg now post p :
  positionOf msg = Some p ->
  (forall it, it ∈ post -> positionOf it.1 <> Some p) ->
  storeAll c (items ++ [(msg, now)] ++ post) !! p = Some (dataOf msg).
Proof.
  intros Hp Hno. rewrite !storeAll_app, storeAll_lookup_other by done.
  cbn. unfold storeItem. cbn. rewrite Hp. apply lookup_insert_eq.
Qed.

Lemma viewStrays_idle s : isCollecting s = false -> viewStrays s = [].
Proof. unfold viewStrays. by intros ->. Qed.

(** The data the handler extracts is the data the message holds. *)
Lemma dataOf_itemData msg :
  is_Some (arrayPosition msg) -> dataOf msg = itemData msg.
Proof.
  unfold arrayPosition, dataOf, itemData. intros [v Hv].
  destruct (Js.truthy (Js.getProp msg "meta")); [|done]. cbn.
  by destruct (Js.isUndefined _).
Qed.

Lemma positioned_data msg p :
  positionOf msg = Some p -> dataOf msg = itemData msg.
Proof.
  intros Hp. apply positionOf_Some in Hp as (v & Hv & _).
  apply dataOf_itemData. eauto.
Qed.

(** *** Timer firings *)

Lemma fire_stale h cfg hd now s :
  Timers.find hd (timers s) = None ->
  fire h cfg hd now s = (Ok tt, s, []).
Proof. intros Hf. munfold. rewrite Hf. reflexivity. Qed.

Lemma fire_timeout h cfg hd now s t m' o :
  Timers.find hd (timers s) = Some t ->
  callback t = HandleTimeout ->
  expectedCount cfg <= MAX_ARRAY_LENGTH ->
  placed h cfg (timeoutMessage h cfg now s)
    (buildResult cfg (collection s)) = Some (m', o) ->
  fire h cfg hd now s =
  (Ok tt, afterTimeout hd now s,
   o ++ [Send secondary m';
         Status (StTimeout
                   (Z.of_nat (length (collectedPositions h (collection s)
                                        (strays s))))
                   (expectedCount cfg))]).
Proof.
  intros Hf Hcb Hmax Hpl. apply Z.ltb_ge in Hmax.
  unfold afterTimeout, cleared, withTimers, timeoutMessage in *.
  munfold. rewrite Hf, Hcb, Hmax.
  cbn -[buildResult place timeoutMeta collectedPositions clearTimeout].
  rewrite place_spec.
  cbn -[buildResult placed timeoutMeta collectedPositions clearTimeout].
  rewrite Hpl.
  cbn -[buildResult placed timeoutMeta collectedPositions clearTimeout].
  rewrite ?app_nil_r. reflexivity.
Qed.

Lemma fire_timeout_error h cfg hd now s t :
  Timers.find hd (timers s) = Some t ->
  callback t = HandleTimeout ->
  expectedCount cfg <= MAX_ARRAY_LENGTH ->
  placed h cfg (timeoutMessage h cfg now s)
    (buildResult cfg (collection s)) = None ->
  fire h cfg hd now s =
  (Throw (placeError cfg), withTimers (clearTimeout hd (timers s)) s, []).
Proof.
  intros Hf Hcb Hmax Hpl. apply Z.ltb_ge in Hmax.
  unfold withTimers, timeoutMessage in *.
  munfold. rewrite Hf, Hcb, Hmax.
  cbn -[buildResult place timeoutMeta collectedPositions clearTimeout].
  rewrite place_spec.
  cbn -[buildResult placed timeoutMeta collectedPositions clearTimeout].
  rewrite Hpl. reflexivity.
Qed.

(** The RangeError of [Array.from] leaves the timeout callback
    uncaught. *)
Lemma fire_timeout_too_long h cfg hd now s t :
  Timers.find hd (timers s) = Some t ->
  callback t = HandleTimeout ->
  MAX_ARRAY_LENGTH < expectedCount cfg ->
  fire h cfg hd now s =
  (Throw (HostError "Invalid array length"),
   withTimers (clearTimeout hd (timers s)) s, []).
Proof.
  intros Hf Hcb Hmax. apply Z.ltb_lt in Hmax.
  unfold withTimers. munfold. rewrite Hf, Hcb, Hmax. reflexivity.
Qed.

Lemma fire_status h cfg hd now s t :
  Timers.find hd (timers s) = Some t ->
  callback t = SetStatusReady ->
  fire h cfg hd now s =
  (Ok tt, withTimers (clearTimeout hd (timers s)) s,
   [Status (StReady (expectedCount cfg))]).
Proof.
  intros Hf Hcb. unfold withTimers. munfold. rewrite Hf, Hcb. reflexivity.
Qed.

Lemma close_spec s : close s = (Ok tt, cleared s, [Status StClear]).
Proof. reflexivity. Qed.

(** *** The positions a timeout reports *)

Lemma elem_of_indices c p : p ∈ indices c <-> is_Some (c !! p).
Proof.
  unfold indices. rewrite merge_sort_Permutation.
  rewrite list_elem_of_fmap. split.
  - intros ([q v] & -> & Hin). apply elem_of_map_to_list in Hin. eauto.
  - intros [v Hv]. exists (p, v). split; [done|].
    by apply elem_of_map_to_list.
Qed.

Lemma indices_sorted c : StronglySorted Z.le (indices c).
Proof. apply (StronglySorted_merge_sort Z.le); apply _. Qed.

Lemma indices_NoDup c : NoDup (indices c).
Proof.
  unfold indices. rewrite merge_sort_Permutation.
  apply NoDup_fst_map_to_list.
Qed.

Lemma indices_length c : length (indices c) = size c.
Proof.
  unfold indices. rewrite merge_sort_Permutation, length_fmap.
  by rewrite length_map_to_list.
Qed.

(** With indices below [2^53] and no other property, the collected
    positions are the indices, ascending. *)
Lemma collectedPositions_tidy h c :
  (forall k, is_Some (c !! k) -> 0 <= k < 2 ^ 53) ->
  collectedPositions h c [] = Some <$> indices c.
Proof.
  intros Hk. unfold collectedPositions, keys, sortPositions.
  cbn [fmap list_fmap]. rewrite app_nil_r, <- list_fmap_compose.
  assert (He : (fun k => Js.parseInt None (JStr k))
                 ∘ (fun i => Js.ToString (JNum i)) <$> indices c
               = Some <$> indices c).
  { apply Forall_fmap_ext, Forall_forall. intros i Hi. cbn.
    apply parseInt_index, Hk. by apply elem_of_indices. }
  rewrite He, (mapM_fmap_Some id Some) by done.
  f_equal. apply (StronglySorted_unique Z.le).
  - apply (StronglySorted_merge_sort Z.le); apply _.
  - apply indices_sorted.
  - apply merge_sort_Permutation.
Qed.


(** *** The invariant of the collector *)

Lemma Inv_initial cfg : Inv cfg initial.
Proof.
  constructor; cbn.
  - apply TimersFacts.wf_empty.
  - intros k [v Hv]. by rewrite lookup_empty in Hv.
  - intros hd Hin. by apply elem_of_nil in Hin.
  - done.
Qed.

Lemma Inv_begun cfg now s : Inv cfg s -> Inv cfg (begun cfg now s).
Proof.
  intros HI. unfold begun.
  destruct (isCollecting s) eqn:Hc; [exact HI|].
  destruct HI as [Hwf Hk Ht Hi].
  destruct (Hi Hc) as (Hnone & Hempty & Hst).
  constructor; cbn [timers collection timeoutHandle isCollecting].
  - by apply TimersFacts.wf_setTimeout.
  - intros k [v Hv]. by rewrite lookup_empty in Hv.
  - intros hd. rewrite TimersFacts.outstanding_setTimeout. cbn.
    intros Hin. apply elem_of_app in Hin as [Hin|Hin].
    + apply Ht in Hin. congruence.
    + apply list_elem_of_singleton in Hin. by subst.
  - discriminate.
Qed.

Lemma Inv_kept cfg s v d :
  Inv cfg s -> isCollecting s = true ->
  Js.lessThan v 0 || Js.atLeast v (expectedCount cfg) = false ->
  Inv cfg (kept v d s).
Proof.
  intros [Hwf Hk Ht Hi] Hc Hr. constructor; cbn; try done.
  - destruct (Js.integerOf v) as [p|] eqn:Hv; [|done].
    intros k [w Hw]. destruct (decide (p = k)) as [->|Hne].
    + by eapply in_range_index.
    + rewrite lookup_insert_ne in Hw by done. eauto.
  - congruence.
Qed.

Lemma Inv_cleared cfg s : Inv cfg s -> Inv cfg (cleared s).
Proof.
  intros [Hwf Hk Ht Hi]. constructor; cbn.
  - destruct (timeoutHandle s); [by apply TimersFacts.wf_clearTimeout|done].
  - intros k [v Hv]. by rewrite lookup_empty in Hv.
  - intros hd Hin. exfalso. destruct (timeoutHandle s) as [hd'|] eqn:E.
    + rewrite TimersFacts.outstanding_clearTimeout in Hin.
      apply list_elem_of_filter in Hin as [Hne Hin].
      apply Ht in Hin. congruence.
    + apply Ht in Hin. congruence.
  - done.
Qed.

Lemma Inv_arm_status cfg s delay now :
  Inv cfg s ->
  Inv cfg (withTimers (setTimeout SetStatusReady delay now (timers s)).2 s).
Proof.
  intros [Hwf Hk Ht Hi]. constructor; cbn [timers collection timeoutHandle
    isCollecting strays withTimers]; try done.
  - by apply TimersFacts.wf_setTimeout.
  - intros hd. rewrite TimersFacts.outstanding_setTimeout. cbn.
    rewrite app_nil_r. apply Ht.
Qed.

Lemma Inv_timer_gone cfg s hd :
  Inv cfg s -> Inv cfg (withTimers (clearTimeout hd (timers s)) s).
Proof.
  intros [Hwf Hk Ht Hi]. constructor; cbn [timers collection timeoutHandle
    isCollecting strays withTimers]; try done.
  - by apply TimersFacts.wf_clearTimeout.
  - intros hd'. rewrite TimersFacts.outstanding_clearTimeout.
    intros Hin. apply list_elem_of_filter in Hin as [_ Hin]. by apply Ht.
Qed.

Lemma input_cases h cfg msg now s :
  InputCase h cfg msg now s (input h cfg msg now s).
Proof.
  destruct (arrayPosition msg) as [v|] eqn:Hp.
  2:{ rewrite input_missing_meta by done. by constructor. }
  destruct (Js.lessThan v 0 || Js.atLeast v (expectedCount cfg)) eqn:Hr.
  { rewrite (input_rejected _ _ _ _ _ v) by done. by constructor. }
  destruct (decide (count (kept v (dataOf msg) (begun cfg now s))
                    = expectedCount cfg)) as [Hsz|Hsz].
  2:{ rewrite (input_kept _ _ _ _ _ v) by done. by constructor. }
  destruct (decide (expectedCount cfg <= MAX_ARRAY_LENGTH)) as [Hmax|Hmax].
  2:{ rewrite (input_too_long _ _ _ _ _ v) by (done || lia).
      by econstructor. }
  destruct (placed h cfg msg
    (buildResult cfg (collection (kept v (dataOf msg) (begun cfg now s)))))
    as [[m' o]|] eqn:Hpl.
  - rewrite (input_full _ _ _ _ _ v m' o) by done. by econstructor.
  - rewrite (input_full_error _ _ _ _ _ v) by done. by econstructor.
Qed.

Lemma input_Inv h cfg msg now s r s' o :
  Inv cfg s -> input h cfg msg now s = (r, s', o) -> Inv cfg s'.
Proof.
  intros HI Hstep. pose proof (input_cases h cfg msg now s) as HC.
  rewrite Hstep in HC.
  pose proof (Inv_begun cfg now s HI) as HI1.
  pose proof (isCollecting_begun cfg now s) as Hc1.
  inversion HC; subst; try done.
  - by apply Inv_kept.
  - apply Inv_cleared, Inv_arm_status, HI1.
  - by apply Inv_cleared.
Qed.

(** A timer firing, by cases. *)
Lemma fire_cases h cfg hd now s :
  fire h cfg hd now s = (Ok tt, s, [])
  \/ (exists m' o,
        placed h cfg (timeoutMessage h cfg now s)
          (buildResult cfg (collection s)) = Some (m', o)
        /\ expectedCount cfg <= MAX_ARRAY_LENGTH
        /\ hd ∈ outstanding isHandleTimeout (timers s)
        /\ fire h cfg hd now s =
           (Ok tt, afterTimeout hd now s,
            o ++ [Send secondary m';
                  Status (StTimeout
                     (Z.of_nat (length (collectedPositions h (collection s)
                                          (strays s))))
                     (expectedCount cfg))]))
  \/ (exists e,
        hd ∈ outstanding isHandleTimeout (timers s)
        /\ fire h cfg hd now s =
           (Throw e, withTimers (clearTimeout hd (timers s)) s, []))
  \/ fire h cfg hd now s =
     (Ok tt, withTimers (clearTimeout hd (timers s)) s,
      [Status (StReady (expectedCount cfg))]).
Proof.
  destruct (Timers.find hd (timers s)) as [t|] eqn:Hf.
  2:{ left. by apply fire_stale. }
  destruct (callback t) eqn:Hcb.
  2:{ do 3 right. by eapply fire_status. }
  assert (Hin : hd ∈ outstanding isHandleTimeout (timers s)).
  { eapply TimersFacts.find_Some_outstanding; [done|]. by rewrite Hcb. }
  destruct (decide (expectedCount cfg <= MAX_ARRAY_LENGTH)) as [Hmax|Hmax].
  2:{ do 2 right. left. eexists. split; [done|].
      eapply fire_timeout_too_long; [done..|lia]. }
  destruct (placed h cfg (timeoutMessage h cfg now s)
              (buildResult cfg (collection s))) as [[m' o]|] eqn:Hpl.
  - right. left. exists m', o. split; [done|]. split; [done|].
    split; [done|]. by eapply fire_timeout.
  - do 2 right. left. eexists. split; [done|]. by eapply fire_timeout_error.
Qed.

Lemma fire_Inv h cfg hd now s r s' o :
  Inv cfg s -> fire h cfg hd now s = (r, s', o) -> Inv cfg s'.
Proof.
  intros HI Hstep.
  destruct (fire_cases h cfg hd now s)
    as [E|[(m' & o' & _ & _ & _ & E)|[(e & _ & E)|E]]];
    rewrite E in Hstep; injection Hstep as _ <- _.
  - done.
  - unfold afterTimeout. apply Inv_arm_status, Inv_cleared, Inv_timer_gone, HI.
  - apply Inv_timer_gone, HI.
  - apply Inv_timer_gone, HI.
Qed.

Lemma step_Inv h cfg ev now s r s' o :
  Inv cfg s -> step h cfg ev now s = (r, s', o) -> Inv cfg s'.
Proof.
  destruct ev as [msg|hd|]; cbn [step].
  - apply input_Inv.
  - apply fire_Inv.
  - rewrite close_spec. intros HI [= _ <- _]. by apply Inv_cleared.
Qed.

Lemma run_Inv h cfg evs : forall s s' outs,
  Inv cfg s -> run h cfg evs s = (s', outs) -> Inv cfg s'.
Proof.
  induction evs as [|[ev now] evs IH]; intros s s' outs HI Hrun; cbn in Hrun.
  - congruence.
  - destruct (step h cfg ev now s) as [[r s1] o1] eqn:Hstep.
    destruct (run h cfg evs s1) as [s2 o2] eqn:Hrest.
    injection Hrun as <- _.
    eapply IH; [|exact Hrest]. eapply step_Inv; eauto.
Qed.

(** Every state reached from a fresh instance satisfies the invariant. *)
Lemma reachable_Inv h cfg evs s outs :
  run h cfg evs initial = (s, outs) -> Inv cfg s.
Proof. apply run_Inv, Inv_initial. Qed.

Lemma reachable_state_Inv h cfg evs : Inv cfg (run h cfg evs initial).1.
Proof.
  destruct (run h cfg evs initial) as [s outs] eqn:Hrun.
  by eapply reachable_Inv.
Qed.

(** Every reachable state that is not collecting is idle in the sense of
    the cycle theorems. *)
Lemma Inv_Idle cfg s : Inv cfg s -> isCollecting s = false -> Idle s.
Proof.
  intros [Hwf _ _ Hi] Hc. destruct (Hi Hc) as [Hn _].
  split; [done|]. split; [done|]. exact Hwf.
Qed.

(** No collection timeout is outstanding when no cycle is on. *)
Lemma Inv_no_timeout cfg s :
  Inv cfg s -> isCollecting s = false ->
  outstanding isHandleTimeout (timers s) = [].
Proof.
  intros [_ _ Ht Hi] Hc. destruct (Hi Hc) as [Hn _].
  destruct (outstanding isHandleTimeout (timers s)) as [|hd l] eqn:E;
    [done|].
  pose proof (Ht hd ltac:(set_solver)). congruence.
Qed.

(** With no cycle on, timer firings update the status and nothing
    else. *)
Lemma fires_quiet h cfg evs : forall s,
  Inv cfg s -> isCollecting s = false -> onlyFires evs ->
  quiet (run h cfg evs s).2
  /\ isCollecting (run h cfg evs s).1 = false
  /\ collection (run h cfg evs s).1 = collection s
  /\ strays (run h cfg evs s).1 = strays s
  /\ timeoutHandle (run h cfg evs s).1 = timeoutHandle s.
Proof.
  induction evs as [|[ev now] evs IH]; intros s HI Hc Hall.
  { cbn. split; [constructor|done]. }
  apply Forall_cons in Hall as [[hd Hev] Hall]. cbn in Hev. subst ev.
  cbn [run step].
  pose proof (Inv_no_timeout cfg s HI Hc) as Hno.
  assert (Hcase : fire h cfg hd now s = (Ok tt, s, [])
    \/ fire h cfg hd now s =
       (Ok tt, withTimers (clearTimeout hd (timers s)) s,
        [Status (StReady (expectedCount cfg))])).
  { destruct (fire_cases h cfg hd now s)
      as [E|[(m' & o' & _ & _ & Hin & _)|[(e & Hin & _)|E]]]; auto;
      rewrite Hno in Hin; by apply elem_of_nil in Hin. }
  destruct Hcase as [E|E]; rewrite E.
  - destruct (IH s HI Hc Hall) as (Hq & H1 & H2 & H3 & H4).
    destruct (run h cfg evs s) as [s2 o2]. cbn in *. auto.
  - destruct (IH (withTimers (clearTimeout hd (timers s)) s))
      as (Hq & H1 & H2 & H3 & H4); [by apply Inv_timer_gone|done|done|].
    destruct (run h cfg evs _) as [s2 o2]. cbn in *.
    split; [|done]. constructor; [eauto|done].
Qed.

Lemma initial_Idle : Idle initial.
Proof. repeat split; constructor. Qed.

(** The state a completed cycle leaves is idle, with the timeout timer
    gone. *)
Lemma finished_Inv cfg now s :
  Inv cfg s -> Inv cfg (finished now s).
Proof. intros HI. apply Inv_cleared, Inv_arm_status, HI. Qed.

(** *** Completion *)

(** C1 (P1, completion).  The collector is in a state reached from a
    fresh instance, with no cycle on, and [expectedCount] is [N] with
    [1 <= N <= 2^32 - 1] (the greatest length of an array).  One tagged
    item per position [0..N-1] is submitted, in any order and with no
    timer firing in between, to a host that accepts the output path.
    Then the run sends exactly one message on the primary channel and
    none on the secondary one, and reports no error.  The message sent
    is the last item's message with the array placed in it, and the
    writes to the context stores are those of this placement.  The array
    has length [N] and holds at index [p] the data ([meta.arrayData], or
    [payload] when that is undefined) of the item tagged [p].  The run
    leaves the collector idle: slots empty, no timeout handle, no
    collection timeout outstanding; and whatever timers fire afterwards,
    nothing is sent on either channel. *)
Theorem collector_completion h cfg evs s (items : list (JsVal * Z))
  (ps : list Z) :
  1 <= expectedCount cfg <= MAX_ARRAY_LENGTH ->
  s = (run h cfg evs initial).1 ->
  isCollecting s = false ->
  positioned items ps ->
  ps ≡ₚ seqZ 0 (expectedCount cfg) ->
  hostAccepts h cfg ->
  exists s' outs lastMsg result m' o,
    run h cfg (inputs items) s = (s', outs) /\
    fst <$> last items = Some lastMsg /\
    placed h cfg lastMsg result = Some (m', o) /\
    sentOn primary outs = [m'] /\
    sentOn secondary outs = [] /\
    stored outs = stored o /\
    reported outs = [] /\
    Z.of_nat (length result) = expectedCount cfg /\
    (forall it p, it ∈ items -> positionOf it.1 = Some p ->
                  result !! Z.to_nat p = Some (itemData it.1)) /\
    isCollecting s' = false /\
    collection s' = ∅ /\ strays s' = [] /\
    timeoutHandle s' = None /\
    outstanding isHandleTimeout (timers s') = [] /\
    forall later, onlyFires later ->
      forall ch, sentOn ch (run h cfg later s').2 = [].
Proof.
  intros [HN Hmax] Hreach Hidle Hpos Hperm Hhost.
  assert (HI : Inv cfg s) by (subst s; apply reachable_state_Inv).
  assert (Hfin : Js.isInteger (expectedCount cfg) = true)
    by by apply finite_bound.
  assert (Hnd : NoDup ps) by (rewrite Hperm; apply NoDup_seqZ).
  assert (Hrange : forall p, p ∈ ps -> 0 <= p < expectedCount cfg).
  { intros p Hp. rewrite Hperm in Hp. apply elem_of_seqZ in Hp. lia. }
  assert (Hlen : Z.of_nat (length ps) = expectedCount cfg).
  { rewrite Hperm, length_seqZ. lia. }
  assert (Hlen' : length items = length ps) by (eapply Forall2_length; eauto).
  destruct (decide (items = [])) as [->|Hne]; [cbn in Hlen'; lia|].
  destruct (exists_last Hne) as (pre & [msg now] & ->).
  apply Forall2_app_inv_l in Hpos as (pps & pl & Hpre & Hlast & ->).
  inversion Hlast as [|? p ? ? Hp Hnil]; subst. inversion Hnil; subst.
  cbn in Hp.
  assert (Hpos : positioned (pre ++ [(msg, now)]) (pps ++ [p])).
  { apply Forall2_app; [done|]. by constructor. }
  apply NoDup_app in Hnd as Hnd'. destruct Hnd' as (Hnd1 & Hdisj & _).
  rewrite length_app in Hlen. cbn in Hlen.
  set (s := (run h cfg evs initial).1) in *.
  assert (Hsz_pre : size (storeAll (view s) pre) = length pps).
  { rewrite view_idle by done. by apply size_storeAll_nodup. }
  destruct (run_collecting h cfg pre s) as (s1 & o1 & Hrun1 & HC);
    [done|by apply viewStrays_idle| |lia|].
  { eapply positioned_inRange; [done|]. intros q Hq. apply Hrange. set_solver. }
  assert (HI1 : Inv cfg s1).
  { eapply run_Inv; [exact HI|exact Hrun1]. }
  assert (Htidy1 : viewStrays s1 = []).
  { rewrite (col_strays _ _ _ _ _ HC). by apply viewStrays_idle. }
  pose (s2 := begun cfg now s1).
  pose (c' := <[p := dataOf msg]> (collection s2)).
  assert (Hc' : c' = storeAll ∅ (pre ++ [(msg, now)])).
  { unfold c', s2. rewrite collection_begun, (col_view _ _ _ _ _ HC).
    rewrite view_idle by done. rewrite storeAll_app. cbn.
    unfold storeItem. cbn. by rewrite Hp. }
  assert (Hsz : Z.of_nat (size c') = expectedCount cfg).
  { rewrite Hc', (size_storeAll_nodup _ (pps ++ [p])) by done.
    rewrite length_app. cbn. lia. }
  destruct (placed h cfg msg (buildResult cfg c')) as [[m' o]|] eqn:Hpl;
    [|by destruct (Hhost msg (buildResult cfg c'))].
  assert (HI2 : Inv cfg (finished now s2)).
  { apply finished_Inv, Inv_begun, HI1. }
  exists (finished now s2), (o1 ++
    (startStatus cfg s1 ++
     [Status (StCollecting (expectedCount cfg) (expectedCount cfg))] ++ o ++
     [Status (StComplete (Z.of_nat (length (buildResult cfg c')))
                (now - default 0 (collectionStartTime s2)));
      Send primary m'])), msg, (buildResult cfg c'), m', o.
  split.
  { unfold inputs. rewrite fmap_app, run_app. fold (inputs pre).
    rewrite Hrun1. cbn [fmap list_fmap run step fst snd].
    rewrite (input_complete h cfg msg now s1 p Hfin Hp) with (m' := m') (o := o);
      try done.
    - rewrite app_nil_r. reflexivity.
    - apply Hrange. set_solver. }
  split; [by rewrite last_snoc|].
  split; [done|].
  pose proof (col_quiet _ _ _ _ _ HC) as Hq1.
  pose proof (quiet_startStatus cfg s1) as Hq2.
  split.
  { rewrite !sentOn_app, (quiet_sentOn _ _ Hq1), (quiet_sentOn _ _ Hq2),
      (placed_silent _ _ _ _ _ _ _ Hpl). reflexivity. }
  split.
  { rewrite !sentOn_app, (quiet_sentOn _ _ Hq1), (quiet_sentOn _ _ Hq2),
      (placed_silent _ _ _ _ _ _ _ Hpl). reflexivity. }
  split.
  { rewrite !stored_app, (quiet_stored _ Hq1), (quiet_stored _ Hq2).
    cbn. by rewrite app_nil_r. }
  split.
  { rewrite !reported_app, (quiet_reported _ Hq1), (quiet_reported _ Hq2),
      (placed_reported _ _ _ _ _ _ Hpl). reflexivity. }
  split; [rewrite buildResult_length; lia|].
  split.
  { intros it q Hin Hq.
    assert (Hqr : 0 <= q < expectedCount cfg).
    { apply Hrange. by eapply positioned_elem. }
    rewrite buildResult_lookup by done.
    rewrite Hc', (storeAll_lookup_nodup _ (pps ++ [p]) _ it q) by done.
    cbn. f_equal. by eapply positioned_data. }
  split; [reflexivity|]. split; [reflexivity|]. split; [reflexivity|].
  split; [reflexivity|].
  split; [by apply (Inv_no_timeout cfg)|].
  intros later Hlater ch. apply quiet_sentOn.
  by apply (fires_quiet h cfg later (finished now s2)).
Qed.

(** *** Timeout *)

Lemma below_max_safe k N :
  0 <= k < N -> N <= MAX_ARRAY_LENGTH -> 0 <= k < 2 ^ 53.
Proof.
  unfold MAX_ARRAY_LENGTH. intros.
  assert (2 ^ 53 = 9007199254740992) by reflexivity. lia.
Qed.


(** *** Cycles with repeated positions *)

(** An open cycle: a non-empty run of in-range items from an idle
    collector that does not fill all the slots leaves it collecting, with
    the timeout timer of the first item outstanding. *)
Lemma run_open_cycle h cfg s items :
  Js.isInteger (expectedCount cfg) = true ->
  Idle s ->
  items <> [] ->
  Forall (inRange cfg) items ->
  Z.of_nat (size (storeAll ∅ items)) < expectedCount cfg ->
  exists s1 o1 hd t,
    run h cfg (inputs items) s = (s1, o1) /\
    quiet o1 /\
    isCollecting s1 = true /\
    collection s1 = storeAll ∅ items /\
    strays s1 = [] /\
    timeoutHandle s1 = Some hd /\
    Timers.find hd (timers s1) = Some t /\
    callback t = HandleTimeout.
Proof.
  intros Hfin (Hidle & Hnone & Hwf) Hne Hall Hsz.
  destruct (run_collecting h cfg items s) as (s1 & o1 & Hrun & HC);
    [done|by apply viewStrays_idle|done|by rewrite view_idle|].
  destruct HC as [Hv Hst Hs Hsame Hact Htm].
  destruct (Htm Hne) as (Ht & Hh & _).
  unfold begun in Ht, Hh. rewrite Hidle in Ht, Hh. cbn in Ht, Hh.
  eexists s1, o1, _, _. split; [done|]. split; [done|].
  split; [by apply Hact|].
  split.
  { rewrite <- (view_idle s Hidle), <- Hv. unfold view. by rewrite Hact. }
  split.
  { rewrite (viewStrays_idle s Hidle) in Hst. unfold viewStrays in Hst.
    by rewrite (Hact Hne) in Hst. }
  split; [exact Hh|]. split.
  - rewrite Ht. by apply TimersFacts.find_setTimeout_new.
  - reflexivity.
Qed.

(** A completing item: after in-range items that leave a slot free, an
    in-range item that fills the last free slot sends the array. *)
Lemma run_completing h cfg s items msg now :
  expectedCount cfg <= MAX_ARRAY_LENGTH ->
  isCollecting s = false ->
  hostAccepts h cfg ->
  Forall (inRange cfg) (items ++ [(msg, now)]) ->
  Z.of_nat (size (storeAll ∅ items)) < expectedCount cfg ->
  Z.of_nat (size (storeAll ∅ (items ++ [(msg, now)]))) = expectedCount cfg ->
  exists s2 o2 m' o,
    run h cfg (inputs (items ++ [(msg, now)])) s = (s2, o2) /\
    placed h cfg msg (buildResult cfg (storeAll ∅ (items ++ [(msg, now)])))
      = Some (m', o) /\
    sentOn primary o2 = [m'] /\
    sentOn secondary o2 = [] /\
    stored o2 = stored o /\
    reported o2 = [] /\
    isCollecting s2 = false.
Proof.
  intros Hmax Hidle Hhost Hall Hlt Heq.
  assert (Hfin : Js.isInteger (expectedCount cfg) = true)
    by (apply finite_bound; lia).
  apply Forall_app in Hall as [Hall Hlast].
  apply Forall_singleton in Hlast as (p & Hp & Hr). cbn in Hp.
  destruct (run_collecting h cfg items s) as (s1 & o1 & Hrun1 & HC);
    [done|by apply viewStrays_idle|done|by rewrite view_idle|].
  assert (Htidy1 : viewStrays s1 = []).
  { rewrite (col_strays _ _ _ _ _ HC). by apply viewStrays_idle. }
  pose (s2 := begun cfg now s1).
  pose (c' := <[p := dataOf msg]> (collection s2)).
  assert (Hc' : c' = storeAll ∅ (items ++ [(msg, now)])).
  { unfold c', s2. rewrite collection_begun, (col_view _ _ _ _ _ HC).
    rewrite view_idle by done. rewrite storeAll_app. cbn.
    unfold storeItem. cbn. by rewrite Hp. }
  rewrite <- Hc' in Heq |- *.
  destruct (placed h cfg msg (buildResult cfg c')) as [[m' o]|] eqn:Hpl;
    [|by destruct (Hhost msg (buildResult cfg c'))].
  eexists _, _, m', o. split.
  { unfold inputs. rewrite fmap_app, run_app. fold (inputs items).
    rewrite Hrun1. cbn [fmap list_fmap run step fst snd].
    rewrite (input_complete h cfg msg now s1 p Hfin Hp Hr Htidy1)
      with (m' := m') (o := o) by done.
    by rewrite app_nil_r. }
  split; [done|].
  pose proof (col_quiet _ _ _ _ _ HC) as Hq1.
  pose proof (quiet_startStatus cfg s1) as Hq2.
  rewrite !sentOn_app, !stored_app, !reported_app,
    !(quiet_sentOn _ _ Hq1), !(quiet_sentOn _ _ Hq2),
    (quiet_stored _ Hq1), (quiet_stored _ Hq2),
    (quiet_reported _ Hq1), (quiet_reported _ Hq2),
    !(placed_silent _ _ _ _ _ _ _ Hpl), (placed_reported _ _ _ _ _ _ Hpl).
  cbn. by rewrite app_nil_r.
Qed.

(** C6 (P3, overwrite).  [expectedCount] is at most [2^32 - 1] and the
    host accepts the output path.  In one cycle (in-range items from an
    idle collector that leave a slot free) an item [m1] at position [p]
    is followed, later, by an item [m2] at the same position, and no
    later item of the cycle is at [p].  Then (1) the handler run of [m2]
    returns normally, sends nothing and reports no error: its only
    output is the collecting status, the number of filled slots is
    unchanged and slot [p] holds the data of [m2]; (2) if the timer
    fires, one message is sent, on the secondary channel, the array
    placed has the data of [m2] at index [p], and the writes to the
    context stores are those of its placement; (3) if a further item
    fills the last slot, one message is sent, on the primary channel,
    the array placed has the data of [m2] at index [p], and the writes
    to the context stores are those of its placement. *)
Theorem collector_overwrite h cfg s pre m1 t1 mid m2 t2 post p :
  expectedCount cfg <= MAX_ARRAY_LENGTH ->
  Idle s ->
  hostAccepts h cfg ->
  positionOf m1 = Some p ->
  positionOf m2 = Some p ->
  (forall it, it ∈ post -> positionOf it.1 <> Some p) ->
  let before := pre ++ [(m1, t1)] ++ mid in
  let items := before ++ [(m2, t2)] ++ post in
  Forall (inRange cfg) items ->
  Z.of_nat (size (storeAll ∅ items)) < expectedCount cfg ->
  (exists sa oa sb,
     run h cfg (inputs before) s = (sa, oa) /\
     input h cfg m2 t2 sa =
     (Ok tt, sb,
      [Status (StCollecting (Z.of_nat (size (collection sa)))
                 (expectedCount cfg))]) /\
     size (collection sb) = size (collection sa) /\
     collection sb !! p = Some (dataOf m2))
  /\ (exists s1 o1 hd,
        run h cfg (inputs items) s = (s1, o1) /\
        (forall ch, sentOn ch o1 = []) /\
        stored o1 = [] /\
        timeoutHandle s1 = Some hd /\
        forall tfire, exists s2 o2 report result m' o,
          fire h cfg hd tfire s1 = (Ok tt, s2, o2) /\
          placed h cfg report result = Some (m', o) /\
          sentOn primary o2 = [] /\
          sentOn secondary o2 = [m'] /\
          stored o2 = stored o /\
          reported o2 = [] /\
          result !! Z.to_nat p = Some (dataOf m2))
  /\ (forall mlast tlast,
        inRange cfg (mlast, tlast) ->
        Z.of_nat (size (storeAll ∅ (items ++ [(mlast, tlast)])))
          = expectedCount cfg ->
        exists s2 o2 result m' o,
          run h cfg (inputs (items ++ [(mlast, tlast)])) s = (s2, o2) /\
          placed h cfg mlast result = Some (m', o) /\
          sentOn primary o2 = [m'] /\
          sentOn secondary o2 = [] /\
          stored o2 = stored o /\
          reported o2 = [] /\
          result !! Z.to_nat p = Some (dataOf m2)).
Proof.
  intros Hmax HIdle Hhost Hp1 Hp2 Hpost before items Hall Hsz.
  pose proof HIdle as (Hidle & Hnone & Hwf).
  assert (Hfin : Js.isInteger (expectedCount cfg) = true)
    by (apply finite_bound; lia).
  assert (Hpr : 0 <= p < expectedCount cfg).
  { rewrite Forall_forall in Hall.
    destruct (Hall (m2, t2)) as (q & Hq & Hqr); [unfold items; set_solver|].
    cbn in Hq. congruence. }
  assert (Hlook : storeAll ∅ items !! p = Some (dataOf m2)).
  { unfold items. by apply storeAll_lookup_last. }
  assert (Hne : items <> []).
  { unfold items. intros E. by apply app_eq_nil in E as [_ E]. }
  split; [|split].
  - (* the duplicate *)
    assert (Hsz_b : Z.of_nat (size (storeAll ∅ before)) < expectedCount cfg).
    { unfold items in Hsz. rewrite storeAll_app in Hsz.
      pose proof (size_storeAll (storeAll ∅ before) ([(m2, t2)] ++ post)).
      lia. }
    destruct (run_open_cycle h cfg s before) as
      (sa & oa & hd & t & Hrun & _ & Hca & Hcol & Hstr & _); try done.
    { unfold before. intros E. apply app_eq_nil in E as [_ E]. done. }
    { unfold items in Hall. by apply Forall_app in Hall as [Hall _]. }
    assert (Hin : is_Some (collection sa !! p)).
    { rewrite Hcol. unfold before. rewrite app_assoc.
      replace ((pre ++ [(m1, t1)]) ++ mid)
        with (pre ++ [(m1, t1)] ++ mid) by by rewrite <- app_assoc.
      destruct (storeAll ∅ (pre ++ [(m1, t1)] ++ mid) !! p) eqn:E; [eauto|].
      exfalso. revert E. rewrite !storeAll_app.
      intros E. apply eq_None_not_Some in E. apply E.
      rewrite <- elem_of_dom.
      clear -Hp1. revert Hp1. generalize (storeAll ∅ pre). intros c Hp1.
      assert (Hmono : forall l c0, p ∈ dom c0 -> p ∈ dom (storeAll c0 l)).
      { induction l as [|it l IH]; intros c0 Hc0; cbn; [done|].
        apply IH. unfold storeItem. destruct (positionOf it.1); [|done].
        rewrite dom_insert_L. set_solver. }
      apply Hmono. cbn. unfold storeItem. cbn. rewrite Hp1.
      rewrite dom_insert_L. set_solver. }
    assert (Hb : begun cfg t2 sa = sa) by (unfold begun; by rewrite Hca).
    assert (Hsame : size (<[p := dataOf m2]> (collection sa))
                    = size (collection sa)).
    { by apply map_size_insert_Some. }
    assert (Htidy : viewStrays sa = []).
    { unfold viewStrays. by rewrite Hca. }
    exists sa, oa, (withCollection (<[p := dataOf m2]> (collection sa)) sa).
    split; [done|]. split; [|split; [exact Hsame|apply lookup_insert_eq]].
    rewrite (input_store h cfg m2 t2 sa p Hfin Hp2 Hpr Htidy); rewrite Hb.
    + unfold startStatus. rewrite Hca, Hsame. reflexivity.
    + rewrite Hsame, Hcol. lia.
  - (* ending by timeout *)
    destruct (run_open_cycle h cfg s items) as
      (s1 & o1 & hd & t & Hrun & Hsil & Hc1 & Hcol & Hstr & Hhd & Hf & Hcb);
      try done.
    exists s1, o1, hd. split; [done|].
    split; [intros ch; by apply quiet_sentOn|].
    split; [by apply quiet_stored|]. split; [done|].
    intros tfire.
    pose (report := timeoutMessage h cfg tfire s1).
    pose (result := buildResult cfg (collection s1)).
    destruct (placed h cfg report result)
      as [[m' o]|] eqn:Hpl;
      [|by destruct (Hhost report result)].
    eexists _, _, report, result, m', o.
    split; [by eapply fire_timeout|]. split; [done|].
    rewrite !sentOn_app, stored_app, reported_app,
      !(placed_silent _ _ _ _ _ _ _ Hpl), (placed_reported _ _ _ _ _ _ Hpl).
    split; [done|]. split; [done|].
    split; [cbn; by rewrite app_nil_r|]. split; [done|].
    unfold result. rewrite buildResult_lookup by done.
    by rewrite Hcol, Hlook.
  - (* ending by completion *)
    intros mlast tlast Hlast Heq.
    destruct (run_completing h cfg s items mlast tlast) as
      (s2 & o2 & m' & o & Hrun & Hpl & Hprim & Hsec & Hsto & Hrep & _);
      try done.
    { apply Forall_app. split; [done|]. by apply Forall_singleton. }
    eexists s2, o2, _, m', o. split; [done|]. split; [exact Hpl|].
    split; [done|]. split; [done|]. split; [done|]. split; [done|].
    rewrite buildResult_lookup by done.
    destruct Hlast as (q & Hq & Hqr). cbn in Hq.
    assert (q <> p).
    { intros ->. rewrite storeAll_app in Heq. cbn in Heq.
      unfold storeItem in Heq. cbn in Heq. rewrite Hq in Heq.
      rewrite map_size_insert_Some in Heq by (rewrite Hlook; eauto). lia. }
    rewrite storeAll_app. cbn. unfold storeItem. cbn. rewrite Hq.
    rewrite lookup_insert_ne by done. by rewrite Hlook.
Qed.

(** *** Errors *)

(** C7, as the code has it.  If the input handler of the collector
    reports an error, the state it leaves is not the state before the
    event: the catch handler has reset the collection.  The handler run
    itself returns normally, nothing is sent on either channel, and the
    collector is idle with empty slots, no start time and no timeout
    handle. *)
Theorem collector_error_resets h cfg msg now s r s' outs e :
  input h cfg msg now s = (r, s', outs) ->
  Failed e ∈ outs ->
  r = Ok tt
  /\ collection s' = ∅ /\ strays s' = [] /\ isCollecting s' = false
  /\ timeoutHandle s' = None /\ collectionStartTime s' = None
  /\ sentOn primary outs = [] /\ sentOn secondary outs = [].
Proof.
  intros Hstep Hfail. pose proof (input_cases h cfg msg now s) as HC.
  rewrite Hstep in HC.
  pose proof (quiet_startStatus cfg s) as Hq.
  assert (Hno : Failed e ∉ startStatus cfg s).
  { intros Hin. unfold quiet in Hq. rewrite Forall_forall in Hq.
    by destruct (Hq _ Hin). }
  inversion HC as [| | |v m' o Hv Hr Hsz Hmax Hpl|]; subst.
  - set_solver.
  - set_solver.
  - set_solver.
  - exfalso. pose proof (placed_no_failed _ _ _ _ _ _ e Hpl). set_solver.
  - split_and!; try done;
      by rewrite sentOn_app, (quiet_sentOn _ _ Hq).
Qed.

(** At most one collection-timeout callback is outstanding, and it is the
    one the state refers to. *)
Lemma Inv_one_timeout cfg s :
  Inv cfg s ->
  (length (outstanding isHandleTimeout (timers s)) <= 1)%nat
  /\ forall hd, hd ∈ outstanding isHandleTimeout (timers s) ->
                timeoutHandle s = Some hd.
Proof.
  intros [[Hnd _] _ Ht _]. split; [|done].
  assert (Hnd' : NoDup (outstanding isHandleTimeout (timers s))).
  { unfold outstanding. eapply sublist_NoDup; [exact Hnd|].
    apply fmap_sublist, sublist_filter. }
  destruct (outstanding isHandleTimeout (timers s)) as [|a [|b l]];
    cbn; try lia.
  exfalso. assert (a = b).
  { pose proof (Ht a ltac:(set_solver)). pose proof (Ht b ltac:(set_solver)).
    congruence. }
  subst. apply NoDup_cons in Hnd' as [Hn _]. set_solver.
Qed.

End ArrayOutFacts.
(** ** Rate-limited queue: the timer and the two implementations *)

Module QueueFacts.
Import Timers QueueCommon QueueSpec.

Lemma TimerOk_initial : TimerOk initial.
Proof. split; [apply TimersFacts.wf_empty|reflexivity]. Qed.

Lemma TimerOk_clearTimer s :
  TimerOk s ->
  TimerOk (clearTimer s) /\ timer (clearTimer s) = None
  /\ pending (timers (clearTimer s)) = [].
Proof.
  intros [Hwf Hh]. unfold clearTimer, TimerOk.
  destruct (timer s) as [h|] eqn:Ht; cbn in *.
  - assert (Hp : filter (fun x : Timer Callback => handle x ≠ h)
                   (pending (timers s)) = []).
    { destruct (pending (timers s)) as [|x [|y l]]; try discriminate.
      injection Hh as Hx. rewrite filter_cons, decide_False by (intros E; done).
      reflexivity. }
    rewrite Hp. split; [split|]; [|done..].
    by apply (TimersFacts.wf_clearTimeout h (timers s)).
  - rewrite Ht. cbn. split; [done|]. split; [done|].
    by destruct (pending (timers s)).
Qed.

Lemma TimerOk_same s s' :
  timer s' = timer s -> timers s' = timers s -> TimerOk s -> TimerOk s'.
Proof. unfold TimerOk. by intros -> ->. Qed.

Lemma TimerOk_arm s q ls delay now :
  Timers.wf (timers s) -> pending (timers s) = [] ->
  TimerOk {| queue := q;
             timer := Some (setTimeout SendFn delay now (timers s)).1;
             lastSent := ls;
             timers := (setTimeout SendFn delay now (timers s)).2 |}.
Proof.
  intros Hwf Hp. split; cbn.
  - by apply (TimersFacts.wf_setTimeout SendFn delay now (timers s)).
  - by rewrite Hp.
Qed.

(** *** Pruning *)

Lemma shiftExpired_app cfg now q :
  (shiftExpired cfg now q).1 ++ (shiftExpired cfg now q).2 = q.
Proof.
  induction q as [|e q IH]; cbn; [done|].
  destruct (timeoutMs cfg <=? now - enqueuedAt e); [|done].
  destruct (shiftExpired cfg now q) as [ex kept]. cbn in *. by rewrite IH.
Qed.

Lemma prune1_inactive cfg now s :
  ageActive cfg = false -> Queue1.pruneExpired cfg now s = (s, []).
Proof.
  unfold ageActive, Queue1.pruneExpired. intros H.
  destruct (useTimeout cfg); cbn in *; [|done].
  apply Z.ltb_ge in H. apply Z.leb_le in H. by rewrite H.
Qed.

Lemma setQueue_id s : setQueue (queue s) s = s.
Proof. by destruct s. Qed.

Lemma prune1_spec cfg now s :
  exists expired kept o,
    Queue1.pruneExpired cfg now s = (setQueue kept s, o)
    /\ queue s = expired ++ kept
    /\ sentOn primary o = []
    /\ sentOn secondary o = Queue1.markTimeout cfg now <$> expired.
Proof.
  unfold Queue1.pruneExpired.
  destruct (negb (useTimeout cfg) || (timeoutMs cfg <=? 0)
            || (Z.of_nat (length (queue s)) =? 0)).
  { exists [], (queue s), []. by rewrite setQueue_id. }
  pose proof (shiftExpired_app cfg now (queue s)) as Happ.
  destruct (shiftExpired cfg now (queue s)) as [ex kept]. cbn in Happ.
  eexists ex, kept, _. split; [reflexivity|]. split; [done|].
  clear Happ. destruct ex as [|e ex]; [done|].
  unfold sentOn. cbn [omap list_omap]. generalize (e :: ex). intros l. split.
  - induction l as [|x l IH]; [done|]. cbn.
    rewrite decide_False by done. exact IH.
  - induction l as [|x l IH]; [done|]. cbn.
    rewrite decide_True by done. by rewrite IH.
Qed.

Lemma prune2_spec cfg now s :
  exists o,
    Queue2.pruneExpired cfg now s = ((Queue1.pruneExpired cfg now s).1, o)
    /\ forall ch, sentOn ch o = [].
Proof.
  unfold Queue2.pruneExpired, Queue1.pruneExpired.
  destruct (negb (useTimeout cfg) || (timeoutMs cfg <=? 0)
            || (Z.of_nat (length (queue s)) =? 0)).
  { by exists []. }
  destruct (shiftExpired cfg now (queue s)) as [ex kept].
  eexists. split; [reflexivity|]. intros ch. by case_match.
Qed.

(** *** The second implementation follows the first *)

Lemma primaryOnly_app a1 a2 b1 b2 :
  primaryOnly a1 a2 -> primaryOnly b1 b2 ->
  primaryOnly (a1 ++ b1) (a2 ++ b2).
Proof.
  unfold primaryOnly. intros [Ha Ha'] [Hb Hb'].
  rewrite !ArrayOutFacts.sentOn_app, Ha, Ha', Hb, Hb'. done.
Qed.

Lemma primaryOnly_prune cfg now s :
  primaryOnly (Queue1.pruneExpired cfg now s).2
              (Queue2.pruneExpired cfg now s).2.
Proof.
  destruct (prune1_spec cfg now s) as (ex & kept & o1 & -> & _ & Hp & _).
  destruct (prune2_spec cfg now s) as (o2 & -> & Ho2).
  cbn. split; [by rewrite Ho2, Hp|apply Ho2].
Qed.

Lemma prune_state cfg now s :
  (Queue2.pruneExpired cfg now s).1 = (Queue1.pruneExpired cfg now s).1.
Proof. by destruct (prune2_spec cfg now s) as (o2 & -> & _). Qed.

Lemma schedule_sim cfg now s :
  Sim (Queue1.scheduleNextSend cfg now s) (Queue2.scheduleNextSend cfg now s).
Proof.
  unfold Queue1.scheduleNextSend, Queue2.scheduleNextSend.
  pose proof (primaryOnly_prune cfg now (clearTimer s)) as Hpo.
  pose proof (prune_state cfg now (clearTimer s)) as Hst.
  destruct (Queue1.pruneExpired cfg now (clearTimer s)) as [s1 o1].
  destruct (Queue2.pruneExpired cfg now (clearTimer s)) as [s2 o2].
  cbn in Hpo, Hst. subst s2.
  destruct (queue s1); split; cbn; try done;
    (apply primaryOnly_app; [done|by split]).
Qed.

Lemma attempt_sim cfg now s :
  Sim (Queue1.attemptSend cfg now s) (Queue2.attemptSend cfg now s).
Proof.
  unfold Queue1.attemptSend, Queue2.attemptSend.
  pose proof (primaryOnly_prune cfg now s) as Hpo.
  pose proof (prune_state cfg now s) as Hst.
  destruct (Queue1.pruneExpired cfg now s) as [s1 o1].
  destruct (Queue2.pruneExpired cfg now s) as [s2 o2].
  cbn in Hpo, Hst. subst s2.
  destruct (queue s1) as [|entry rest].
  { split; cbn; [done|]. apply primaryOnly_app; [done|by split]. }
  destruct (tooSoon cfg s1 now).
  - destruct (schedule_sim cfg now s1) as [Hs Ho].
    destruct (Queue1.scheduleNextSend cfg now s1) as [s3 o3].
    destruct (Queue2.scheduleNextSend cfg now s1) as [s4 o4].
    cbn in Hs, Ho. subst s4. split; cbn; [done|].
    by apply primaryOnly_app.
  - match goal with |- context [Queue1.scheduleNextSend cfg now ?x] =>
      destruct (schedule_sim cfg now x) as [Hs Ho];
      destruct (Queue1.scheduleNextSend cfg now x) as [s3 o3];
      destruct (Queue2.scheduleNextSend cfg now x) as [s4 o4]
    end.
    cbn in Hs, Ho. subst s4. split; cbn; [done|].
    apply primaryOnly_app; [done|].
    apply (primaryOnly_app [_; _] [_; _]); [by split|done].
Qed.

Lemma input_sim cfg m now s :
  Sim (Queue1.input cfg m now s) (Queue2.input cfg m now s).
Proof.
  unfold Queue1.input, Queue2.input.
  pose proof (primaryOnly_prune cfg now s) as Hpo.
  pose proof (prune_state cfg now s) as Hst.
  destruct (Queue1.pruneExpired cfg now s) as [s1 o1].
  destruct (Queue2.pruneExpired cfg now s) as [s2 o2].
  cbn in Hpo, Hst. subst s2.
  destruct (atCapacity cfg s1).
  { split; cbn; [done|]. apply primaryOnly_app; [done|by split]. }
  match goal with |- context [Queue1.attemptSend cfg now ?x] =>
    destruct (attempt_sim cfg now x) as [Hs Ho];
    destruct (Queue1.attemptSend cfg now x) as [s3 o3];
    destruct (Queue2.attemptSend cfg now x) as [s4 o4]
  end.
  cbn in Hs, Ho. subst s4. split; cbn; [done|].
  apply primaryOnly_app; [done|].
  apply (primaryOnly_app [_] [_]); [by split|done].
Qed.

Lemma step_sim cfg ev now s :
  Sim (Queue1.step cfg ev now s) (Queue2.step cfg ev now s).
Proof.
  destruct ev as [m|hd|]; cbn [Queue1.step Queue2.step].
  - apply input_sim.
  - unfold Queue1.fire, Queue2.fire.
    destruct (Timers.find hd (timers s)); [apply attempt_sim|by split].
  - by split.
Qed.

Lemma sentOn_cons_status ch st o :
  sentOn ch (Status st :: o) = sentOn ch o.
Proof. reflexivity. Qed.

Lemma sentOn_cons_send ch m o :
  sentOn ch (Send ch m :: o) = m :: sentOn ch o.
Proof. unfold sentOn. cbn. by rewrite decide_True. Qed.

Lemma sentOn_cons_other ch ch' m o :
  ch' <> ch -> sentOn ch (Send ch' m :: o) = sentOn ch o.
Proof. intros H. unfold sentOn. cbn. by rewrite decide_False. Qed.

Lemma sentAt_app ch (a b : list (Z * Out)) :
  sentAt ch (a ++ b) = sentAt ch a ++ sentAt ch b.
Proof. unfold sentAt. apply omap_app. Qed.

Lemma sentAt_stamp ch now o :
  sentAt ch (stamp now o) = (fun m => (now, m)) <$> sentOn ch o.
Proof.
  unfold sentAt, stamp, sentOn. induction o as [|x o IH]; [done|].
  cbn. destruct x; cbn; try done. destruct (decide (channel = ch)); cbn;
    by rewrite IH.
Qed.

Lemma run_sim cfg evs : forall s,
  (run Queue2.step cfg evs s).1 = (run Queue1.step cfg evs s).1
  /\ sentAt primary (run Queue2.step cfg evs s).2
     = sentAt primary (run Queue1.step cfg evs s).2
  /\ sentAt secondary (run Queue2.step cfg evs s).2 = [].
Proof.
  induction evs as [|[ev now] evs IH]; intros s; cbn [run]; [done|].
  destruct (step_sim cfg ev now s) as [Hs [Hp Hsec]].
  destruct (Queue1.step cfg ev now s) as [s1 o1].
  destruct (Queue2.step cfg ev now s) as [s2 o2].
  cbn [fst snd] in Hs, Hp, Hsec. subst s2.
  destruct (IH s1) as (IHs & IHp & IHsec).
  destruct (run Queue1.step cfg evs s1) as [s3 l3].
  destruct (run Queue2.step cfg evs s1) as [s4 l4].
  cbn [fst snd] in *.
  rewrite !sentAt_app, !sentAt_stamp, Hp, Hsec, IHp, IHsec. done.
Qed.

Lemma drain_sim lates cfg : forall now s,
  (drain Queue2.step lates cfg now s).1 = (drain Queue1.step lates cfg now s).1
  /\ sentAt primary (drain Queue2.step lates cfg now s).2
     = sentAt primary (drain Queue1.step lates cfg now s).2
  /\ sentAt secondary (drain Queue2.step lates cfg now s).2 = [].
Proof.
  induction lates as [|late lates IH]; intros now s; cbn [drain]; [done|].
  destruct (timer s ≫= fun hd => Timers.find hd (timers s)) as [t|]; [|done].
  set (now' := Z.max now (due t) + Z.max late 0).
  destruct (step_sim cfg (EFire (handle t)) now' s) as [Hs [Hp Hsec]].
  cbn [Queue1.step Queue2.step] in *.
  destruct (Queue1.fire cfg (handle t) now' s) as [s1 o1].
  destruct (Queue2.fire cfg (handle t) now' s) as [s2 o2].
  cbn [fst snd] in Hs, Hp, Hsec. subst s2.
  destruct (IH now' s1) as (IHs & IHp & IHsec).
  destruct (drain Queue1.step lates cfg now' s1) as [s3 l3].
  destruct (drain Queue2.step lates cfg now' s1) as [s4 l4].
  cbn [fst snd] in *.
  rewrite !sentAt_app, !sentAt_stamp, Hp, Hsec, IHp, IHsec. done.
Qed.

(** *** The timer discipline is an invariant *)

Lemma prune1_TimerOk cfg now s :
  TimerOk s -> TimerOk (Queue1.pruneExpired cfg now s).1.
Proof.
  destruct (prune1_spec cfg now s) as (ex & kept & o & -> & _).
  by apply TimerOk_same.
Qed.

Lemma schedule1_TimerOk cfg now s :
  TimerOk s -> TimerOk (Queue1.scheduleNextSend cfg now s).1.
Proof.
  intros Hok. unfold Queue1.scheduleNextSend.
  destruct (TimerOk_clearTimer s Hok) as ([Hwf Hh] & Hnone & Hempty).
  destruct (prune1_spec cfg now (clearTimer s)) as (ex & kept & o & -> & _).
  cbn [queue setQueue]. destruct kept as [|e kept]; cbn [fst].
  - by split.
  - by apply (TimerOk_arm (clearTimer s)).
Qed.

Lemma attempt1_TimerOk cfg now s :
  TimerOk s -> TimerOk (Queue1.attemptSend cfg now s).1.
Proof.
  intros Hok. unfold Queue1.attemptSend.
  pose proof (prune1_TimerOk cfg now s Hok) as Hok1.
  destruct (Queue1.pruneExpired cfg now s) as [s1 o1]. cbn [fst] in Hok1.
  destruct (queue s1) as [|entry rest]; [done|].
  destruct (tooSoon cfg s1 now).
  - pose proof (schedule1_TimerOk cfg now s1 Hok1) as H.
    by destruct (Queue1.scheduleNextSend cfg now s1).
  - match goal with |- context [Queue1.scheduleNextSend cfg now ?x] =>
      pose proof (schedule1_TimerOk cfg now x) as H;
      destruct (Queue1.scheduleNextSend cfg now x)
    end.
    apply H. by apply (TimerOk_same s1).
Qed.

Lemma input1_TimerOk cfg m now s :
  TimerOk s -> TimerOk (Queue1.input cfg m now s).1.
Proof.
  intros Hok. unfold Queue1.input.
  pose proof (prune1_TimerOk cfg now s Hok) as Hok1.
  destruct (Queue1.pruneExpired cfg now s) as [s1 o1]. cbn [fst] in Hok1.
  destruct (atCapacity cfg s1); [done|].
  match goal with |- context [Queue1.attemptSend cfg now ?x] =>
    pose proof (attempt1_TimerOk cfg now x) as H;
    destruct (Queue1.attemptSend cfg now x)
  end.
  apply H. by apply (TimerOk_same s1).
Qed.

Lemma fire1_TimerOk cfg hd now s :
  TimerOk s -> TimerOk (Queue1.fire cfg hd now s).1.
Proof.
  intros Hok. unfold Queue1.fire.
  destruct (Timers.find hd (timers s)) as [t|] eqn:Hf; [|done].
  apply attempt1_TimerOk. destruct Hok as [Hwf Hh].
  split; cbn.
  - by apply (TimersFacts.wf_clearTimeout hd (timers s)).
  - unfold Timers.find in Hf.
    destruct (list_find _ _) as [[i x]|] eqn:E; [|discriminate].
    apply list_find_Some in E as (Hi & Hx & _).
    destruct (pending (timers s)) as [|y [|z l]] eqn:Hp.
    + done.
    + destruct i; [|done]. cbn in Hi. injection Hi as ->.
      by rewrite filter_cons, decide_False by (intros E; done).
    + by destruct (timer s).
Qed.

Lemma close_TimerOk s : TimerOk s -> TimerOk (Queue1.close s).1.
Proof.
  intros Hok. destruct (TimerOk_clearTimer s Hok) as (H & _ & _).
  by apply (TimerOk_same (clearTimer s)).
Qed.

Lemma step1_TimerOk cfg ev now s :
  TimerOk s -> TimerOk (Queue1.step cfg ev now s).1.
Proof.
  destruct ev; cbn [Queue1.step];
    [apply input1_TimerOk|apply fire1_TimerOk|apply close_TimerOk].
Qed.

Lemma run1_TimerOk cfg evs : forall s,
  TimerOk s -> TimerOk (run Queue1.step cfg evs s).1.
Proof.
  induction evs as [|[ev now] evs IH]; intros s Hok; cbn [run]; [done|].
  pose proof (step1_TimerOk cfg ev now s Hok) as H1.
  destruct (Queue1.step cfg ev now s) as [s1 o1].
  specialize (IH s1 H1). by destruct (run Queue1.step cfg evs s1).
Qed.

Lemma TimerOk_at_most_one s :
  TimerOk s -> (length (pending (timers s)) <= 1)%nat.
Proof.
  intros [_ Hh]. apply (f_equal length) in Hh. rewrite length_fmap in Hh.
  rewrite Hh. destruct (timer s); cbn; lia.
Qed.

(** *** First in, first out, at the configured pace *)

Lemma spaced_nil T : spaced T [].
Proof. intros i a b H. by rewrite lookup_nil in H. Qed.

Lemma spaced_snoc T ts t :
  spaced T ts -> (forall a, last ts = Some a -> a + T <= t) ->
  spaced T (ts ++ [t]).
Proof.
  intros Hs Hl i a b Ha Hb.
  destruct (decide (S i < length ts)%nat) as [Hlt|Hge].
  - rewrite lookup_app_l in Ha by lia. rewrite lookup_app_l in Hb by lia.
    eauto.
  - assert (S i = length ts) as Hi.
    { apply lookup_lt_Some in Hb. rewrite length_app in Hb. cbn in Hb. lia. }
    rewrite lookup_app_l in Ha by lia.
    rewrite lookup_app_r, Hi, Nat.sub_diag in Hb by lia.
    injection Hb as <-. apply Hl. rewrite last_lookup.
    replace (pred (length ts)) with i by lia. done.
Qed.

Section Pace.
Variable cfg : Config.
Hypothesis Hpace : 0 < intervalMs cfg.
Hypothesis Hage : ageActive cfg = false.
Hypothesis Hcap : capActive cfg = false.

Let T := intervalMs cfg.

Lemma clampDelay_ge d : d <= clampDelay d.
Proof. unfold clampDelay. destruct (d <? 1) eqn:E; lia. Qed.

Lemma schedule1_spec now s :
  TimerOk s ->
  exists s' o,
    Queue1.scheduleNextSend cfg now s = (s', o)
    /\ (forall ch, sentOn ch o = [])
    /\ queue s' = queue s /\ lastSent s' = lastSent s
    /\ TimerOk s' /\ timerDue cfg s'.
Proof.
  intros Hok. pose proof (schedule1_TimerOk cfg now s Hok) as Hok'.
  revert Hok'. unfold Queue1.scheduleNextSend.
  destruct (TimerOk_clearTimer s Hok) as ([Hwf Hh] & Hnone & Hempty).
  rewrite prune1_inactive by done.
  assert (Hq : queue (clearTimer s) = queue s)
    by (unfold clearTimer; by destruct (timer s)).
  assert (Hl : lastSent (clearTimer s) = lastSent s)
    by (unfold clearTimer; by destruct (timer s)).
  destruct (queue (clearTimer s)) as [|e q] eqn:Eq; cbn [fst]; intros Hok'.
  - eexists _, _. split; [reflexivity|]. split; [by intros ch|].
    split; [congruence|]. split; [done|]. split; [done|].
    split; [by rewrite Eq|done].
  - eexists _, _. split; [reflexivity|]. split; [by intros ch|].
    cbn [queue lastSent timer timers]. split; [congruence|]. split; [done|].
    split; [done|]. split; [|done].
    intros _. cbn [queue lastSent timer timers].
    eexists _, _. split; [reflexivity|]. split.
    { by apply TimersFacts.find_setTimeout_new. }
    split; [reflexivity|]. cbn [due].
    unfold tooSoon, elapsedSince. rewrite Hl.
    destruct (lastSent s =? 0) eqn:E0; [left; lia|]. right.
    replace (0 <? intervalMs cfg) with true by (symmetry; apply Z.ltb_lt; lia).
    cbn [andb default].
    match goal with |- context [clampDelay ?d] =>
      pose proof (clampDelay_ge d) end.
    clear Hok'. apply Z.eqb_neq in E0.
    destruct (now - lastSent s <? intervalMs cfg) eqn:E1;
      [apply Z.ltb_lt in E1|apply Z.ltb_ge in E1];
      unfold T, id in *; cbv iota in *; lia.
Qed.

Lemma Core_later ins now now' s log :
  Core cfg ins now s log -> now <= now' -> Core cfg ins now' s log.
Proof.
  intros [H1 H2 H3 H4 H5 H6] Hle. constructor; try done.
  eapply Forall_impl; [exact H6|]. cbn. intros; lia.
Qed.

Lemma Core_silent ins now s s' log o :
  Core cfg ins now s log ->
  (forall ch, sentOn ch o = []) ->
  queue s' = queue s -> lastSent s' = lastSent s -> TimerOk s' ->
  Core cfg ins now s' (log ++ stamp now o).
Proof.
  intros [H1 H2 H3 H4 H5 H6] Ho Hq Hl Hok.
  constructor; rewrite ?sentAt_app, ?sentAt_stamp, ?Ho, ?app_nil_r, ?Hq, ?Hl;
    done.
Qed.

Lemma attempt1_spec ins now0 now s log :
  Core cfg ins now0 s log -> now0 <= now -> 0 < now ->
  (queue s = [] -> timer s = None) ->
  exists s' o,
    Queue1.attemptSend cfg now s = (s', o)
    /\ Core cfg ins now s' (log ++ stamp now o)
    /\ timerDue cfg s'
    /\ (forall e rest,
          queue s = e :: rest -> lastSent s = 0 \/ lastSent s + T <= now ->
          queue s' = rest).
Proof.
  intros HC Hle Hpos Hidle. apply (Core_later _ _ now) in HC; [|done].
  unfold Queue1.attemptSend. rewrite prune1_inactive by done.
  destruct (queue s) as [|entry rest] eqn:Eq.
  { eexists _, _. split; [reflexivity|]. split.
    - apply (Core_silent ins now s); try done. apply HC.
    - split; [|intros e r He; discriminate He].
      split; [intros H; by destruct H|intros _; by apply Hidle]. }
  destruct (tooSoon cfg s now) eqn:Esoon.
  - destruct (schedule1_spec now s (c_ok _ _ _ _ _ HC))
      as (s' & o & Hrun & Hsil & Hq & Hl & Hok & Hdue).
    rewrite Hrun. eexists _, _. split; [reflexivity|]. split.
    { by apply (Core_silent ins now s). }
    split; [done|].
    intros e r _ Hready. exfalso. revert Esoon.
    unfold tooSoon, elapsedSince.
    destruct (lastSent s =? 0) eqn:E0; [by rewrite andb_false_r|].
    replace (now - lastSent s <? intervalMs cfg) with false;
      [by rewrite andb_false_r|].
    symmetry. apply Z.ltb_ge. unfold T in Hready. lia.
  - set (s2 := {| queue := rest; timer := timer s; lastSent := now;
                  timers := timers s |}).
    destruct HC as [H1 H2 H3 H4 H5 H6].
    destruct (schedule1_spec now s2) as
      (s' & o & Hrun & Hsil & Hq & Hl & Hok & Hdue); [done|].
    rewrite Hrun. eexists _, _. split; [reflexivity|].
    split; [|split; [done|]].
    2:{ intros e r [= _ <-] _. by rewrite Hq. }
    assert (Hsent : sentAt primary
              (log ++ stamp now ([] ++
                 [Status (StSending (Z.of_nat (length rest)));
                  Send primary (msg entry)] ++ o))
            = sentAt primary log ++ [(now, msg entry)]).
    { rewrite sentAt_app, sentAt_stamp. cbn [app].
      rewrite sentOn_cons_status, sentOn_cons_send, Hsil. reflexivity. }
    assert (Hsec : sentAt secondary
              (log ++ stamp now ([] ++
                 [Status (StSending (Z.of_nat (length rest)));
                  Send primary (msg entry)] ++ o)) = []).
    { rewrite sentAt_app, sentAt_stamp, H3. cbn [app].
      rewrite sentOn_cons_status, sentOn_cons_other, Hsil by done.
      reflexivity. }
    constructor.
    + done.
    + rewrite Hsent, Hq, fmap_app, <- app_assoc. cbn.
      by rewrite <- H2, Eq.
    + done.
    + rewrite Hsent, fmap_app. apply spaced_snoc; [done|].
      intros a Ha. cbn. revert Esoon. unfold tooSoon, elapsedSince.
      assert (lastSent s = a) as -> by (by rewrite H5, Ha).
      assert (0 < a).
      { rewrite Forall_forall in H6. apply H6.
        apply last_Some in Ha as [l' ->]. set_solver. }
      replace (a =? 0) with false by (symmetry; apply Z.eqb_neq; lia).
      replace (0 <? intervalMs cfg) with true
        by (symmetry; apply Z.ltb_lt; lia).
      cbn [andb]. intros E. apply Z.ltb_ge in E. unfold T. lia.
    + rewrite Hsent, fmap_app. cbn [fmap list_fmap].
      rewrite last_snoc, Hl. reflexivity.
    + rewrite Hsent, fmap_app. apply Forall_app. split; [done|].
      apply Forall_singleton. cbn. lia.
Qed.

Lemma Core_log ins now s log log' :
  sentAt primary log' = sentAt primary log ->
  sentAt secondary log' = sentAt secondary log ->
  Core cfg ins now s log -> Core cfg ins now s log'.
Proof.
  intros Hp Hs [H1 H2 H3 H4 H5 H6]. constructor; rewrite ?Hp, ?Hs; done.
Qed.

Lemma atCapacity_inactive s : atCapacity cfg s = false.
Proof. unfold atCapacity. fold (capActive cfg). by rewrite Hcap. Qed.

Lemma input1_spec ins now0 now s log m :
  Core cfg ins now0 s log -> now0 <= now -> 0 < now ->
  exists s' o,
    Queue1.input cfg m now s = (s', o)
    /\ Core cfg (ins ++ [m]) now s' (log ++ stamp now o)
    /\ timerDue cfg s'.
Proof.
  intros HC Hle Hpos. unfold Queue1.input.
  rewrite prune1_inactive, atCapacity_inactive by done.
  set (s2 := setQueue (queue s ++ [{| msg := m; enqueuedAt := now |}]) s).
  assert (HC2 : Core cfg (ins ++ [m]) now0 s2 log).
  { destruct HC as [H1 H2 H3 H4 H5 H6]. constructor; try done.
    cbn [queue s2 setQueue]. rewrite fmap_app, app_assoc, H2. done. }
  destruct (attempt1_spec (ins ++ [m]) now0 now s2 log HC2 Hle Hpos)
    as (s' & o & Hrun & HC' & Hdue & _).
  { cbn. intros E. by apply app_eq_nil in E as [_ E]. }
  rewrite Hrun. eexists _, _. split; [reflexivity|]. split; [|done].
  eapply Core_log; [| |exact HC'];
    rewrite !sentAt_app, !sentAt_stamp; unfold setStatusQueued; cbn [app];
    by rewrite sentOn_cons_status.
Qed.

Lemma TimerOk_fired s hd t :
  TimerOk s -> Timers.find hd (timers s) = Some t ->
  timer s = Some hd /\ handle t = hd
  /\ TimerOk {| queue := queue s; timer := None; lastSent := lastSent s;
                timers := clearTimeout hd (timers s) |}.
Proof.
  intros [Hwf Hh] Hf. unfold Timers.find in Hf.
  destruct (list_find _ _) as [[i x]|] eqn:E; [|discriminate].
  cbn in Hf. injection Hf as ->.
  apply list_find_Some in E as (Hi & Hx & _).
  destruct (pending (timers s)) as [|y [|z l]] eqn:Hp; [done| |].
  - destruct i; [|done]. cbn in Hi. injection Hi as ->.
    cbn in Hh. destruct (timer s) as [h'|]; [|done]. injection Hh as Hh.
    split; [congruence|]. split; [done|]. split; cbn.
    + by apply (TimersFacts.wf_clearTimeout hd (timers s)).
    + rewrite Hp. by rewrite filter_cons, decide_False by (intros E; done).
  - by destruct (timer s).
Qed.

Lemma fire1_spec ins now0 now s log hd :
  Core cfg ins now0 s log -> timerDue cfg s -> now0 <= now -> 0 < now ->
  exists s' o,
    Queue1.fire cfg hd now s = (s', o)
    /\ Core cfg ins now s' (log ++ stamp now o)
    /\ timerDue cfg s'
    /\ (forall e rest t,
          queue s = e :: rest -> Timers.find hd (timers s) = Some t ->
          due t <= now -> queue s' = rest).
Proof.
  intros HC Hdue Hle Hpos. unfold Queue1.fire.
  destruct (Timers.find hd (timers s)) as [t|] eqn:Hf.
  2:{ eexists _, _. split; [reflexivity|]. cbn. rewrite app_nil_r.
      split; [by apply (Core_later ins now0)|]. split; [done|].
      intros; discriminate. }
  destruct (TimerOk_fired s hd t (c_ok _ _ _ _ _ HC) Hf) as (Htm & Hhd & Hok).
  set (s1 := {| queue := queue s; timer := None; lastSent := lastSent s;
                timers := clearTimeout hd (timers s) |}) in *.
  assert (HC1 : Core cfg ins now0 s1 log).
  { destruct HC as [H1 H2 H3 H4 H5 H6]. by constructor. }
  destruct (attempt1_spec ins now0 now s1 log HC1 Hle Hpos)
    as (s' & o & Hrun & HC' & Hdue' & Hprog); [done|].
  rewrite Hrun. eexists _, _. split; [reflexivity|]. split; [done|].
  split; [done|].
  intros e rest t' Hq [= <-] Hnow. apply (Hprog e rest); [done|].
  cbn [lastSent s1].
  destruct Hdue as [Hd _]. destruct Hd as (hd' & t' & Ht' & Hf' & _ & Hd).
  { by rewrite Hq. }
  assert (hd' = hd) as -> by congruence.
  assert (t' = t) as -> by congruence.
  destruct Hd; [by left|right; lia].
Qed.

Lemma run1_spec evs : forall ins now0 s log,
  Core cfg ins now0 s log -> timerDue cfg s ->
  ascending now0 evs -> noClose evs ->
  exists s' log',
    run Queue1.step cfg evs s = (s', log')
    /\ Core cfg (ins ++ inputsOf evs) (lastTime now0 evs) s' (log ++ log')
    /\ timerDue cfg s'.
Proof.
  induction evs as [|[ev now] evs IH]; intros ins now0 s log HC Hdue Hasc Hnc.
  { exists s, []. split; [done|]. unfold inputsOf, lastTime. cbn.
    by rewrite !app_nil_r. }
  destruct Hasc as (Hle & Hpos & Hasc).
  apply Forall_cons in Hnc as [Hev Hnc]. cbn in Hev.
  assert (Hlast : lastTime now0 ((ev, now) :: evs) = lastTime now evs).
  { unfold lastTime. destruct evs as [|x evs']; [done|].
    rewrite last_cons_cons.
    destruct (last (x :: evs')) eqn:E; [done|]. by apply last_None in E. }
  cbn [run]. destruct ev as [m|hd|]; [| |done]; cbn [Queue1.step].
  - destruct (input1_spec ins now0 now s log m HC Hle Hpos)
      as (s1 & o1 & -> & HC1 & Hdue1).
    destruct (IH _ _ _ _ HC1 Hdue1 Hasc Hnc) as (s2 & l2 & -> & HC2 & Hdue2).
    eexists _, _. split; [reflexivity|]. split; [|done].
    rewrite Hlast. unfold inputsOf in *. cbn [omap list_omap fst].
    rewrite <- !app_assoc in HC2. exact HC2.
  - destruct (fire1_spec ins now0 now s log hd HC Hdue Hle Hpos)
      as (s1 & o1 & -> & HC1 & Hdue1 & _).
    destruct (IH _ _ _ _ HC1 Hdue1 Hasc Hnc) as (s2 & l2 & -> & HC2 & Hdue2).
    eexists _, _. split; [reflexivity|]. split; [|done].
    rewrite Hlast. unfold inputsOf in *. cbn [omap list_omap fst].
    rewrite <- !app_assoc in HC2. exact HC2.
Qed.

Lemma drain1_spec lates : forall ins now0 s log,
  Core cfg ins now0 s log -> timerDue cfg s ->
  (queue s <> [] -> 0 < now0) ->
  (length (queue s) <= length lates)%nat ->
  exists s' log' now',
    drain Queue1.step lates cfg now0 s = (s', log')
    /\ Core cfg ins now' s' (log ++ log')
    /\ queue s' = [] /\ timer s' = None.
Proof.
  induction lates as [|late lates IH]; intros ins now0 s log HC Hdue Hpos Hfuel.
  { destruct (queue s) eqn:Eq; [|cbn in Hfuel; lia].
    exists s, [], now0. rewrite app_nil_r. split; [done|]. split; [done|].
    split; [done|]. by apply Hdue. }
  cbn [drain].
  destruct (queue s) as [|e rest] eqn:Eq.
  { assert (Hnone : timer s = None) by by apply Hdue.
    rewrite Hnone. cbn. exists s, [], now0. by rewrite app_nil_r. }
  destruct Hdue as [Hd Hi]. destruct Hd as (hd & t & Ht & Hf & Hhd & Hd).
  { by rewrite Eq. }
  rewrite Ht. cbn [mbind option_bind]. rewrite Hf. cbn [Queue1.step].
  rewrite Hhd. set (now' := Z.max now0 (due t) + Z.max late 0).
  assert (Hpos' : 0 < now')
    by (specialize (Hpos ltac:(done)); unfold now'; lia).
  destruct (fire1_spec ins now0 now' s log hd HC)
    as (s1 & o1 & -> & HC1 & Hdue1 & Hprog); [|unfold now'; lia|done|].
  { split; [|done]. intros _. by exists hd, t. }
  specialize (Hprog e rest t Eq Hf ltac:(unfold now'; lia)).
  destruct (IH ins _ s1 _ HC1 Hdue1) as (s2 & l2 & now2 & -> & HC2 & Hq2 & Ht2).
  { intros _. done. }
  { rewrite Hprog. cbn in Hfuel. lia. }
  eexists _, _, now2. split; [reflexivity|].
  rewrite app_assoc. done.
Qed.

End Pace.

Lemma Core_initial cfg : Core cfg [] 0 initial [].
Proof.
  constructor; try done; first [apply TimerOk_initial|apply spaced_nil].
Qed.

Lemma timerDue_initial cfg : timerDue cfg initial.
Proof. split; [by intros H|done]. Qed.

Lemma input1_first cfg m t :
  capActive cfg = false -> ageActive cfg = false ->
  sentOn primary (Queue1.input cfg m t initial).2 = [m].
Proof.
  intros Hcap Hage. unfold Queue1.input.
  rewrite prune1_inactive, (atCapacity_inactive cfg Hcap) by done.
  unfold Queue1.attemptSend. rewrite prune1_inactive by done.
  cbn [queue setQueue initial app lastSent timer timers fst snd].
  assert (Hsoon :
    tooSoon cfg (setQueue [{| msg := m; enqueuedAt := t |}] initial) t = false)
    by (unfold tooSoon, elapsedSince; cbn; apply andb_false_r).
  rewrite Hsoon. unfold Queue1.scheduleNextSend.
  rewrite prune1_inactive by done. reflexivity.
Qed.

Lemma queue_pace1 cfg evs lates :
  0 < intervalMs cfg -> capActive cfg = false -> ageActive cfg = false ->
  ascending 0 evs -> noClose evs ->
  (length (inputsOf evs) <= length lates)%nat ->
  exists s1 log1 s2 log2,
    run Queue1.step cfg evs initial = (s1, log1) /\
    drain Queue1.step lates cfg (lastTime 0 evs) s1 = (s2, log2) /\
    snd <$> sentAt primary (log1 ++ log2) = inputsOf evs /\
    sentAt secondary (log1 ++ log2) = [] /\
    spaced (intervalMs cfg) (fst <$> sentAt primary (log1 ++ log2)) /\
    (forall m t rest, evs = (EInput m, t) :: rest ->
       head (sentAt primary (log1 ++ log2)) = Some (t, m)) /\
    queue s2 = [] /\ timer s2 = None.
Proof.
  intros HT Hcap Hage Hasc Hnc Hfuel.
  destruct (run1_spec cfg HT Hage Hcap evs [] 0 initial []
              (Core_initial cfg) (timerDue_initial cfg) Hasc Hnc)
    as (s1 & log1 & Hrun & HC1 & Hdue1).
  cbn [app] in HC1.
  assert (Hlen : (length (queue s1) <= length (inputsOf evs))%nat).
  { rewrite <- (c_fifo _ _ _ _ _ HC1), length_app, !length_fmap. lia. }
  destruct (drain1_spec cfg HT Hage Hcap lates _ _ _ _ HC1 Hdue1)
    as (s2 & log2 & now2 & Hdrain & HC2 & Hq & Ht); [|lia|].
  { intros Hne. destruct evs as [|x evs'] using rev_ind.
    - cbn in Hrun. injection Hrun as <- _. done.
    - clear -Hasc. unfold lastTime. rewrite last_snoc. cbn.
      revert Hasc. generalize 0 at 1. induction evs' as [|[e t] l IH];
        intros t0; cbn; [destruct x; cbn; lia|].
      intros (_ & _ & H). by apply (IH t). }
  exists s1, log1, s2, log2. split; [done|]. split; [done|].
  destruct HC2 as [H1 H2 H3 H4 H5 H6].
  rewrite Hq, app_nil_r in H2. split_and!; try done.
  intros m t rest ->. cbn [run Queue1.step] in Hrun.
  pose proof (input1_first cfg m t Hcap Hage) as Hfirst.
  destruct (Queue1.input cfg m t initial) as [sa oa].
  destruct (run Queue1.step cfg rest sa) as [sb lb].
  injection Hrun as _ <-. cbn [snd] in Hfirst.
  by rewrite !sentAt_app, sentAt_stamp, Hfirst.
Qed.

(** C3 (P5, FIFO and interval).  A queue with a minimum interval [T > 0]
    and neither the capacity nor the age bound in force receives a trace
    of messages and timer firings (timestamps positive and not going
    back; no shutdown), and its pending timer is then left to fire, when
    due or later, as often as there are messages.  In both
    implementations: the messages sent on the primary channel are exactly
    the enqueued ones, in enqueue order; nothing is sent on the secondary
    channel; consecutive primary emissions are at least [T] apart; when
    the trace begins with an enqueue, that message is sent at once; and
    the queue ends empty with no timer pending. *)
Theorem queue_fifo_interval cfg evs lates step :
  0 < intervalMs cfg -> capActive cfg = false -> ageActive cfg = false ->
  ascending 0 evs -> noClose evs ->
  (length (inputsOf evs) <= length lates)%nat ->
  step = Queue1.step \/ step = Queue2.step ->
  exists s1 log1 s2 log2,
    run step cfg evs initial = (s1, log1) /\
    drain step lates cfg (lastTime 0 evs) s1 = (s2, log2) /\
    snd <$> sentAt primary (log1 ++ log2) = inputsOf evs /\
    sentAt secondary (log1 ++ log2) = [] /\
    spaced (intervalMs cfg) (fst <$> sentAt primary (log1 ++ log2)) /\
    (forall m t rest, evs = (EInput m, t) :: rest ->
       head (sentAt primary (log1 ++ log2)) = Some (t, m)) /\
    queue s2 = [] /\ timer s2 = None.
Proof.
  intros HT Hcap Hage Hasc Hnc Hfuel Hstep.
  destruct (queue_pace1 cfg evs lates HT Hcap Hage Hasc Hnc Hfuel)
    as (s1 & log1 & s2 & log2 & Hrun & Hdrain & Hfifo & Hsec & Hsp & Hfst
        & Hq & Ht).
  destruct Hstep as [->| ->]; [by exists s1, log1, s2, log2|].
  destruct (run_sim cfg evs initial) as (Hs & Hp & Hs2).
  rewrite Hrun in Hs, Hp. cbn [fst snd] in Hs, Hp.
  destruct (run Queue2.step cfg evs initial) as [s1' log1'] eqn:Hrun2.
  cbn [fst snd] in Hs, Hp, Hs2. subst s1'.
  destruct (drain_sim lates cfg (lastTime 0 evs) s1) as (Hd & Hdp & Hds).
  rewrite Hdrain in Hd, Hdp. cbn [fst snd] in Hd, Hdp.
  destruct (drain Queue2.step lates cfg (lastTime 0 evs) s1)
    as [s2' log2'] eqn:Hdrain2.
  cbn [fst snd] in Hd, Hdp, Hds. subst s2'.
  exists s1, log1', s2, log2'. split; [done|]. split; [done|].
  rewrite !sentAt_app in *. rewrite Hp, Hdp, Hs2, Hds. by split_and!.
Qed.

(** *** The two implementations compared *)

(** C10, as the code has it.  For every configuration, start state and
    trace of events, the second implementation reaches the same state as
    the first and sends the same messages at the same times on the primary
    channel, and it sends nothing on the secondary channel. *)
Theorem queue_versions_agree_on_primary cfg evs s :
  (run Queue2.step cfg evs s).1 = (run Queue1.step cfg evs s).1
  /\ sentAt primary (run Queue2.step cfg evs s).2
     = sentAt primary (run Queue1.step cfg evs s).2
  /\ sentAt secondary (run Queue2.step cfg evs s).2 = [].
Proof. apply run_sim. Qed.

(** *** Timers *)

(** C8, as the code has it.  In every state the queue reaches (either
    implementation) at most one timer callback is outstanding, and it is
    the one [state.timer] refers to.  In every state the collector
    reaches at most one collection-timeout callback is outstanding, and it
    is the one [timeoutHandle] refers to; the status timers are not
    counted. *)
Theorem one_tracked_timer h acfg aevs qcfg qevs :
  (let s := (run Queue1.step qcfg qevs initial).1 in
   (length (pending (timers s)) <= 1)%nat
   /\ handle <$> pending (timers s) = option_list (timer s))
  /\ (let s := (run Queue2.step qcfg qevs initial).1 in
      (length (pending (timers s)) <= 1)%nat
      /\ handle <$> pending (timers s) = option_list (timer s))
  /\ (let s := (ArrayOut.run h acfg aevs ArrayOut.initial).1 in
      (length (outstanding ArrayOut.isHandleTimeout (ArrayOut.timers s))
         <= 1)%nat
      /\ forall hd,
           hd ∈ outstanding ArrayOut.isHandleTimeout (ArrayOut.timers s) ->
           ArrayOut.timeoutHandle s = Some hd).
Proof.
  pose proof (run1_TimerOk qcfg qevs initial TimerOk_initial) as Hok.
  split_and!.
  - cbn zeta. split; [by apply TimerOk_at_most_one|apply Hok].
  - cbn zeta. destruct (run_sim qcfg qevs initial) as (-> & _).
    split; [by apply TimerOk_at_most_one|apply Hok].
  - cbn zeta. apply (ArrayOutFacts.Inv_one_timeout acfg).
    destruct (ArrayOut.run h acfg aevs ArrayOut.initial) as [s o] eqn:E.
    eapply ArrayOutFacts.reachable_Inv, E.
Qed.

(** *** Overflow *)

Lemma markOverflow_meta cfg s m :
  Js.plainMeta m ->
  let m' := Queue1.markOverflow cfg s m in
  Js.getProp (Js.getProp m' "meta") "queueDropped" = JBool true
  /\ Js.getProp (Js.getProp m' "meta") "queueDropReason" = JStr "overflow"
  /\ Js.getProp (Js.getProp m' "meta") "queueSize"
     = JNum (Z.of_nat (length (queue s)))
  /\ Js.getProp (Js.getProp m' "meta") "queueMaxSize"
     = JNum (maxQueueSize cfg)
  /\ (forall k, k <> "meta"%string -> Js.getProp m' k = Js.getProp m k).
Proof.
  intros Hm. pose proof (JsFacts.isObject_metaOrEmpty m Hm) as HM.
  destruct Hm as [Ho _]. unfold Queue1.markOverflow.
  fold (Js.metaOrEmpty m). cbn zeta.
  assert (H0 : Js.getProp (Js.setProp m "meta" (Js.metaOrEmpty m)) "meta"
               = Js.metaOrEmpty m) by by apply JsFacts.getProp_setProp_eq.
  split_and!.
  1-4: rewrite !JsFacts.getProp_setProp2_eq
         by (rewrite ?JsFacts.isObject_setProp2, ?JsFacts.isObject_setProp;
             done);
       rewrite H0;
       repeat (rewrite JsFacts.getProp_setProp_ne by done);
       by rewrite JsFacts.getProp_setProp_eq
         by (rewrite ?JsFacts.isObject_setProp; done).
  intros k Hk.
  rewrite !JsFacts.getProp_setProp2_ne, JsFacts.getProp_setProp_ne by done.
  reflexivity.
Qed.

(** C4 (overflow drop).  When the capacity bound is in force and the
    queue, after pruning, holds at least [maxQueueSize] entries, the input
    handler leaves the pruned state as it is (the buffered entries, the
    timer and the last emission time; the new message is not appended) and
    sends the incoming message itself on the secondary channel, with
    [meta.queueDropped = true], [meta.queueDropReason = "overflow"],
    [meta.queueSize] the queue length and [meta.queueMaxSize] the
    configured capacity; its other properties are untouched.  (First
    implementation; the message is an object whose [meta] is absent or an
    object.) *)
Theorem queue_overflow_drop cfg s m now :
  capActive cfg = true ->
  maxQueueSize cfg
    <= Z.of_nat (length (queue (Queue1.pruneExpired cfg now s).1)) ->
  Js.plainMeta m ->
  exists m',
    Queue1.input cfg m now s =
    ((Queue1.pruneExpired cfg now s).1,
     (Queue1.pruneExpired cfg now s).2 ++
     [Warn (WCapacityDropped (maxQueueSize cfg));
      Send secondary m';
      Status (StQueued
                (Z.of_nat (length (queue (Queue1.pruneExpired cfg now s).1))))])
    /\ Js.getProp (Js.getProp m' "meta") "queueDropped" = JBool true
    /\ Js.getProp (Js.getProp m' "meta") "queueDropReason" = JStr "overflow"
    /\ Js.getProp (Js.getProp m' "meta") "queueSize"
       = JNum (Z.of_nat (length (queue (Queue1.pruneExpired cfg now s).1)))
    /\ Js.getProp (Js.getProp m' "meta") "queueMaxSize"
       = JNum (maxQueueSize cfg)
    /\ (forall k, k <> "meta"%string -> Js.getProp m' k = Js.getProp m k).
Proof.
  intros Hcap Hfull Hm. unfold Queue1.input.
  destruct (Queue1.pruneExpired cfg now s) as [s1 o1]. cbn [fst snd] in *.
  assert (Hat : atCapacity cfg s1 = true).
  { unfold atCapacity. fold (capActive cfg). rewrite Hcap. cbn.
    by apply Z.leb_le. }
  rewrite Hat. exists (Queue1.markOverflow cfg s1 m).
  split; [reflexivity|]. by apply markOverflow_meta.
Qed.

End QueueFacts.

(** * Further properties

    Properties of the collector, the queue and the tagger beyond the
    documented ones, and properties of the further nodes. *)

(** ** Position tagger: what a tagged message carries *)

Module ArrayInLaws.
Import ArrayIn ArrayInSpec.

Lemma tagMessage_meta node msg p d :
  Js.plainMeta msg ->
  exists meta0,
    Js.isObject meta0 = true
    /\ Js.getProp (tagMessage node msg p d) "meta"
       = Js.setProp (Js.setProp meta0 "arrayPosition" (JNum p)) "arrayData" d.
Proof.
  intros [Ho Hm]. unfold tagMessage.
  set (msg1 := if Js.truthy (Js.getProp msg "meta") then msg
               else Js.setProp msg "meta" (JObj [])).
  assert (Ho1 : Js.isObject msg1 = true).
  { unfold msg1. destruct (Js.truthy _); [done|].
    by rewrite JsFacts.isObject_setProp. }
  assert (Hm1 : Js.isObject (Js.getProp msg1 "meta") = true).
  { unfold msg1. destruct (Js.truthy (Js.getProp msg "meta")) eqn:E.
    - by destruct Hm.
    - by rewrite JsFacts.getProp_setProp_eq. }
  cbn zeta. exists (Js.getProp msg1 "meta"). split; [done|].
  assert (Hfinal : Js.getProp
            (Js.setProp2 (Js.setProp2 msg1 "meta" "arrayPosition" (JNum p))
               "meta" "arrayData" d) "meta"
          = Js.setProp (Js.setProp (Js.getProp msg1 "meta")
                          "arrayPosition" (JNum p)) "arrayData" d).
  { rewrite !JsFacts.getProp_setProp2_eq
      by (rewrite ?JsFacts.isObject_setProp2; done). reflexivity. }
  destruct (String.eqb (inputPathType node) "msg"
            && String.eqb (Js.trim (inputPath node)) "payload").
  - by rewrite JsFacts.getProp_setProp_ne, Hfinal.
  - exact Hfinal.
Qed.

Lemma tagMessage_other node msg p d k :
  k <> "meta"%string -> k <> "payload"%string ->
  Js.getProp (tagMessage node msg p d) k = Js.getProp msg k.
Proof.
  intros Hk1 Hk2. unfold tagMessage.
  set (msg1 := if Js.truthy (Js.getProp msg "meta") then msg
               else Js.setProp msg "meta" (JObj [])).
  assert (H1 : Js.getProp msg1 k = Js.getProp msg k).
  { unfold msg1. destruct (Js.truthy _); [done|].
    by rewrite JsFacts.getProp_setProp_ne. }
  cbn zeta.
  destruct (String.eqb (inputPathType node) "msg"
            && String.eqb (Js.trim (inputPath node)) "payload");
    rewrite ?JsFacts.getProp_setProp_ne by done;
    by rewrite !JsFacts.getProp_setProp2_ne.
Qed.

Lemma tagMessage_payload node msg p d :
  Js.isObject msg = true ->
  String.eqb (inputPathType node) "msg"
  && String.eqb (Js.trim (inputPath node)) "payload" = true ->
  Js.getProp (tagMessage node msg p d) "payload" = d.
Proof.
  intros Ho Hmirror. unfold tagMessage. cbn zeta. rewrite Hmirror.
  apply JsFacts.getProp_setProp_eq.
  rewrite !JsFacts.isObject_setProp2.
  destruct (Js.truthy _); [done|]. by rewrite JsFacts.isObject_setProp.
Qed.

(** X18.  What the collector reads from a message the tagger has sent is what
    the tagger wrote.  Every message the tagger sends is the incoming
    message with its other properties untouched; the collector finds in
    it the resolved position, which is not negative, and as data the
    value read at the input path, with [null] standing for a value that
    is not defined; and when the input path is [msg.payload] the payload
    holds that data too.  (The incoming message is an object whose [meta]
    is absent or an object.) *)
Theorem tagged_message_is_read_back h node msg :
  Js.plainMeta msg ->
  Forall (fun m' => exists p read,
            resolveArrayPosition h (arrayPositionType node)
              (arrayPositionValue node) msg = Ok p
            /\ readInput h node msg = Some read
            /\ 0 <= p
            /\ ArrayOut.positionOf m' = Some p
            /\ ArrayOut.dataOf m' = (if Js.isUndefined read then JNull else read)
            /\ (String.eqb (inputPathType node) "msg"
                && String.eqb (Js.trim (inputPath node)) "payload" = true ->
                Js.getProp m' "payload" = ArrayOut.dataOf m')
            /\ (forall k, k <> "meta"%string -> k <> "payload"%string ->
                          Js.getProp m' k = Js.getProp msg k))
    (sentOn primary (input h node msg)).
Proof.
  intros Hm. unfold input.
  destruct (resolveArrayPosition _ _ _ _) as [p|e] eqn:Hres; [|constructor].
  destruct (readInput h node msg) as [read|] eqn:Hread; [|constructor].
  assert (Hp : 0 <= p).
  { revert Hres. unfold resolveArrayPosition.
    fold (unspecified (arrayPositionValue node)).
    destruct (unspecified _); [intros [= <-]; done|]. cbn zeta.
    fold (lookedUp h (arrayPositionType node) (arrayPositionValue node) msg).
    destruct (lookedUp _ _ _ _) as [resolved|]; [|done].
    destruct (Js.parseInt None resolved) as [n|]; [|done].
    destruct (n <? 0) eqn:E; [done|]. intros [= <-]. by apply Z.ltb_ge. }
  set (d := if Js.isUndefined read then JNull else read).
  assert (Hd : Js.isUndefined d = false).
  { unfold d. by destruct read. }
  assert (Hsent : sentOn primary
            ((let '(arrayData, warned) :=
                if Js.isUndefined read
                then (JNull, [Warn (WNoData (inputPathType node)
                                      (inputPath node))])
                else (read, []) in
              warned ++
              [Status (StPosition p);
               Send primary (tagMessage node msg p arrayData)]))
          = [tagMessage node msg p d]).
  { unfold d. destruct (Js.isUndefined read); reflexivity. }
  rewrite Hsent. constructor; [|constructor].
  exists p, read. split; [done|]. split; [done|]. split; [done|].
  destruct (tagMessage_meta node msg p d Hm) as (meta0 & Ho0 & Hmeta).
  assert (Hpos : Js.getProp (Js.getProp (tagMessage node msg p d) "meta")
                   "arrayPosition" = JNum p).
  { rewrite Hmeta, JsFacts.getProp_setProp_ne by done.
    by rewrite JsFacts.getProp_setProp_eq. }
  assert (Hdata : Js.getProp (Js.getProp (tagMessage node msg p d) "meta")
                    "arrayData" = d).
  { rewrite Hmeta. apply JsFacts.getProp_setProp_eq.
    by rewrite JsFacts.isObject_setProp. }
  assert (Htruthy : Js.truthy (Js.getProp (tagMessage node msg p d) "meta")
                    = true).
  { rewrite Hmeta. destruct meta0; done. }
  assert (HdataOf : ArrayOut.dataOf (tagMessage node msg p d) = d).
  { unfold ArrayOut.dataOf. by rewrite Htruthy, Hdata, Hd. }
  split_and!.
  - unfold ArrayOut.positionOf, ArrayOut.arrayPosition.
    by rewrite Htruthy, Hpos.
  - exact HdataOf.
  - intros Hmirror. rewrite HdataOf.
    apply tagMessage_payload; [by destruct Hm|done].
  - intros k Hk1 Hk2. by apply tagMessage_other.
Qed.

End ArrayInLaws.

(** ** Ordered collector: what every run keeps *)

Module ArrayOutLaws.
Import Timers ArrayOut ArrayOutSpec ArrayOutTrace.
Import ArrayOutFacts.

(** *** Counting slots *)

Lemma size_in_range cfg (c : gmap Z JsVal) :
  (forall k, is_Some (c !! k) -> 0 <= k < expectedCount cfg) ->
  Z.of_nat (size c) <= Z.max 0 (expectedCount cfg).
Proof.
  intros Hk.
  assert (Hsub : dom c ⊆ (list_to_set (seqZ 0 (expectedCount cfg)) : gset Z)).
  { intros k Hin. apply elem_of_dom in Hin. apply Hk in Hin.
    apply elem_of_list_to_set, elem_of_seqZ. lia. }
  apply subseteq_size in Hsub.
  rewrite size_dom, size_list_to_set, length_seqZ in Hsub by apply NoDup_seqZ.
  lia.
Qed.

Lemma full_in_range cfg (c : gmap Z JsVal) i :
  (forall k, is_Some (c !! k) -> 0 <= k < expectedCount cfg) ->
  Z.of_nat (size c) = expectedCount cfg ->
  0 <= i < expectedCount cfg -> is_Some (c !! i).
Proof.
  intros Hk Hsz Hi.
  assert (Hsub : dom c ⊆ (list_to_set (seqZ 0 (expectedCount cfg)) : gset Z)).
  { intros k Hin. apply elem_of_dom in Hin. apply Hk in Hin.
    apply elem_of_list_to_set, elem_of_seqZ. lia. }
  apply set_subseteq_size_eq in Hsub.
  - apply elem_of_dom. rewrite Hsub.
    apply elem_of_list_to_set, elem_of_seqZ. lia.
  - rewrite size_dom, size_list_to_set, length_seqZ by apply NoDup_seqZ. lia.
Qed.

Lemma missing_count cfg (c : gmap Z JsVal) :
  (forall k, is_Some (c !! k) -> 0 <= k < expectedCount cfg) ->
  Z.of_nat (length (indices c))
  + Z.of_nat (length (missingPositions cfg c))
  = Z.max 0 (expectedCount cfg).
Proof.
  intros Hk. unfold missingPositions.
  set (L := seqZ 0 (expectedCount cfg)).
  assert (Hperm : filter (fun i => c !! i ≠ None) L ≡ₚ indices c).
  { apply NoDup_Permutation.
    - apply NoDup_filter, NoDup_seqZ.
    - apply indices_NoDup.
    - intros p. rewrite list_elem_of_filter, elem_of_indices.
      unfold L. rewrite elem_of_seqZ, <- not_eq_None_Some. split.
      + by intros [? _].
      + intros Hs. split; [done|].
        apply not_eq_None_Some, Hk in Hs. lia. }
  rewrite <- Hperm.
  pose proof (filter_app_complement (fun i => c !! i = None) L) as Hc.
  apply Permutation_length in Hc. rewrite length_app in Hc.
  unfold L in Hc at 3. rewrite length_seqZ in Hc. lia.
Qed.

(** *** Runs of items whose positions are integers *)

Lemma Kept_initial cfg : Kept cfg initial.
Proof. split; [apply Inv_initial|]. split; [|done]. intros H. discriminate. Qed.

Lemma strays_begun_tidy cfg now s :
  strays s = [] -> strays (begun cfg now s) = [].
Proof. intros Hs. unfold begun. by destruct (isCollecting s). Qed.

Lemma indexed_position msg v :
  indexed msg -> arrayPosition msg = Some v ->
  exists p, Js.integerOf v = Some p /\ positionOf msg = Some p.
Proof.
  intros [Hn|[p Hp]] Hv; [congruence|].
  exists p. split; [|done]. unfold positionOf in Hp. by rewrite Hv in Hp.
Qed.

(** The state after an item at an index has been stored. *)
Lemma kept_Kept cfg now s v p d :
  Kept cfg s ->
  Js.integerOf v = Some p ->
  Js.lessThan v 0 || Js.atLeast v (expectedCount cfg) = false ->
  let s1 := kept v d (begun cfg now s) in
  Inv cfg s1 /\ strays s1 = []
  /\ collection s1 = <[p := d]> (view s)
  /\ 1 <= count s1 <= expectedCount cfg
  /\ count s1 = Z.of_nat (size (collection s1)).
Proof.
  intros (HI & HP & Hs) Hv Hr s1.
  pose proof (Inv_begun cfg now s HI) as HI1.
  pose proof (isCollecting_begun cfg now s) as Hc1.
  pose proof (Inv_kept cfg _ v d HI1 Hc1 Hr) as HI2. fold s1 in HI2.
  assert (Hs1 : strays s1 = []).
  { unfold s1. rewrite (kept_index v p _ _ Hv). cbn.
    by apply strays_begun_tidy. }
  assert (Hcol : collection s1 = <[p := d]> (view s)).
  { unfold s1. rewrite (kept_index v p _ _ Hv). cbn.
    by rewrite collection_begun. }
  split; [done|]. split; [done|]. split; [done|].
  rewrite (count_tidy s1 Hs1).
  pose proof (size_in_range cfg _ (inv_keys cfg _ HI2)) as Hle.
  assert (Hpos : (0 < size (collection s1))%nat).
  { destruct (size (collection s1)) eqn:E; [|lia].
    apply map_size_empty_inv in E. rewrite Hcol in E.
    exfalso. exact (insert_non_empty _ _ _ E). }
  lia.
Qed.

Lemma input_Kept h cfg msg now s r s' o :
  indexed msg -> Kept cfg s ->
  input h cfg msg now s = (r, s', o) -> Kept cfg s'.
Proof.
  intros Hix HK Hstep. pose proof HK as (HI & HP & Hs).
  pose proof (input_cases h cfg msg now s) as HC. rewrite Hstep in HC.
  pose proof (Inv_begun cfg now s HI) as HI1.
  inversion HC as [| |v Hv Hr Hsz|v m' o' Hv Hr Hsz Hmax Hpl|v e Hv Hr Hsz];
    subst; try done.
  - destruct (indexed_position msg v Hix Hv) as (p & Hp & _).
    destruct (kept_Kept cfg now s v p (dataOf msg) HK Hp Hr)
      as (HI2 & Hs2 & _ & Hc2 & _).
    split; [done|]. split; [|done]. intros _. lia.
  - split; [apply Inv_cleared, Inv_arm_status, HI1|]. split; [|done].
    intros H. discriminate.
  - split; [by apply Inv_cleared|]. split; [|done]. intros H. discriminate.
Qed.

Lemma fire_Kept h cfg hd now s r s' o :
  Kept cfg s -> fire h cfg hd now s = (r, s', o) -> Kept cfg s'.
Proof.
  intros (HI & HP & Hs) Hstep.
  split; [by eapply fire_Inv|].
  destruct (fire_cases h cfg hd now s)
    as [E|[(m' & o' & _ & _ & _ & E)|[(e & _ & E)|E]]];
    rewrite E in Hstep; injection Hstep as _ <- _; done.
Qed.

Lemma step_Kept h cfg ev now s r s' o :
  match ev with EInput msg => indexed msg | _ => True end ->
  Kept cfg s -> step h cfg ev now s = (r, s', o) -> Kept cfg s'.
Proof.
  destruct ev as [msg|hd|]; cbn [step].
  - apply input_Kept.
  - intros _. apply fire_Kept.
  - rewrite close_spec. intros _ (HI & _ & _) [= _ <- _].
    split; [by apply Inv_cleared|]. split; [|done]. intros H. discriminate.
Qed.

Lemma run_Kept h cfg evs : forall s,
  indexedTrace evs -> Kept cfg s -> Kept cfg (run h cfg evs s).1.
Proof.
  induction evs as [|[ev now] evs IH]; intros s Hix HK; cbn [run]; [done|].
  apply Forall_cons in Hix as [Hev Hix]. cbn in Hev.
  destruct (step h cfg ev now s) as [[r s1] o1] eqn:Hstep.
  pose proof (step_Kept _ _ _ _ _ _ _ _ Hev HK Hstep) as HK1.
  specialize (IH s1 Hix HK1).
  by destruct (run h cfg evs s1) as [s2 o2].
Qed.

Lemma indexedTrace_snoc evs ev now :
  indexedTrace (evs ++ [(ev, now)]) ->
  indexedTrace evs /\ match ev with EInput msg => indexed msg | _ => True end.
Proof.
  unfold indexedTrace. rewrite Forall_app, Forall_singleton. by cbn.
Qed.

(** X28.  In every state a fresh collector reaches, the indices of the
    collection are in [0, expectedCount).  When every position submitted
    is an integer, the collection has no other property, and a cycle in
    progress has at least one slot filled and at least one slot
    empty. *)
Theorem collector_slots_are_indices h cfg evs :
  (forall k, is_Some (collection (run h cfg evs initial).1 !! k) ->
             0 <= k < expectedCount cfg)
  /\ (indexedTrace evs ->
      strays (run h cfg evs initial).1 = []
      /\ (isCollecting (run h cfg evs initial).1 = true ->
          1 <= Z.of_nat (size (collection (run h cfg evs initial).1))
            < expectedCount cfg)).
Proof.
  split.
  - apply (inv_keys cfg), reachable_state_Inv.
  - intros Hix.
    destruct (run_Kept h cfg evs initial Hix (Kept_initial cfg))
      as (_ & HP & Hs).
    split; [done|]. intros Hc. specialize (HP Hc).
    by rewrite (count_tidy _ Hs) in HP.
Qed.

(** *** What each output carries *)

Lemma input_outputs h cfg msg now s :
  indexed msg -> Kept cfg s ->
  sentOn secondary (input h cfg msg now s).2 = []
  /\ Forall (fun m' => exists p o',
               positionOf msg = Some p
               /\ placed h cfg msg
                    (buildResult cfg (<[p := dataOf msg]> (view s)))
                  = Some (m', o')
               /\ stored (input h cfg msg now s).2 = stored o'
               /\ gapless cfg (<[p := dataOf msg]> (view s))
                    (buildResult cfg (<[p := dataOf msg]> (view s))))
       (sentOn primary (input h cfg msg now s).2).
Proof.
  intros Hix HK. pose proof HK as (HI & HP & Hs).
  pose proof (input_cases h cfg msg now s) as HC.
  pose proof (quiet_startStatus cfg s) as Hq.
  destruct (input h cfg msg now s) as [[r s'] outs] eqn:Hstep. cbn [snd].
  inversion HC as [| |v Hv Hr Hsz|v m' o' Hv Hr Hsz Hmax Hpl|v e Hv Hr Hsz];
    subst; try (by split);
    rewrite ?sentOn_app, ?(quiet_sentOn _ _ Hq); try (by split).
  destruct (indexed_position msg v Hix Hv) as (p & Hp & Hpos).
  destruct (kept_Kept cfg now s v p (dataOf msg) HK Hp Hr)
    as (HI2 & Hs2 & Hcol & Hc2 & Hcount).
  rewrite Hcol in Hpl. rewrite Hcount, Hcol in Hsz.
  rewrite !sentOn_status, !sentOn_app, !(placed_silent _ _ _ _ _ _ _ Hpl).
  split; [done|]. cbn. unfold sentOn. cbn.
  constructor; [|constructor]. exists p, o'. split; [done|].
  split; [done|]. split.
  { rewrite !stored_app, (quiet_stored _ Hq), stored_status, stored_app.
    cbn. by rewrite app_nil_r. }
  split.
  - rewrite buildResult_length. lia.
  - intros i Hi.
    destruct (full_in_range cfg (<[p := dataOf msg]> (view s)) i) as [w Hw];
      [|done|done|].
    { rewrite <- Hcol. apply (inv_keys cfg _ HI2). }
    exists w. split; [done|].
    by rewrite buildResult_lookup, Hw.
Qed.

Lemma fire_outputs h cfg hd now s :
  metaKept h cfg -> Kept cfg s ->
  sentOn primary (fire h cfg hd now s).2 = []
  /\ Forall (fun m' => partialReport cfg (Js.getProp m' "meta"))
       (sentOn secondary (fire h cfg hd now s).2).
Proof.
  intros Hmeta (HI & HP & Hs).
  destruct (fire_cases h cfg hd now s)
    as [E|[(m' & o' & Hpl & Hmax & Hin & E)|[(e & _ & E)|E]]];
    rewrite E; cbn [snd]; try (by split).
  rewrite !sentOn_app, !(placed_silent _ _ _ _ _ _ _ Hpl).
  split; [done|]. unfold sentOn. cbn.
  constructor; [|constructor].
  rewrite (Hmeta _ _ _ _ Hpl).
  assert (Hc : isCollecting s = true).
  { destruct (isCollecting s) eqn:Ec; [done|].
    destruct (inv_idle cfg s HI Ec) as [Hnone _].
    apply (inv_timer cfg s HI) in Hin. congruence. }
  specialize (HP Hc). rewrite (count_tidy s Hs) in HP.
  pose proof (missing_count cfg (collection s) (inv_keys cfg s HI)) as Hm.
  assert (Hcollected : collectedPositions h (collection s) (strays s)
                       = Some <$> indices (collection s)).
  { rewrite Hs. apply collectedPositions_tidy. intros k Hk.
    apply (below_max_safe k (expectedCount cfg)); [|done].
    by apply (inv_keys cfg s HI). }
  exists (Z.of_nat (size (collection s))),
    (missingPositions cfg (collection s)).
  unfold timeoutMessage. cbn. rewrite Hcollected, length_fmap, indices_length.
  rewrite indices_length in Hm.
  split_and!; try reflexivity; try lia.
Qed.

(** X13.  Every position submitted is an integer, and the placement at
    the output path leaves [meta] as it is.  Then every message on the
    second output is a timeout report of a cycle that was really
    partial: its [meta] is flagged [timeout], counts at least one
    collected position and fewer than [expectedCount], and the collected
    count and the number of missing positions add up to [expectedCount].
    This holds for every event in every state a fresh collector
    reaches. *)
Theorem timeout_report_is_partial h cfg evs ev now :
  metaKept h cfg ->
  indexedTrace (evs ++ [(ev, now)]) ->
  Forall (fun m' => partialReport cfg (Js.getProp m' "meta"))
    (sentOn secondary (step h cfg ev now (run h cfg evs initial).1).2).
Proof.
  intros Hmeta Hix. apply indexedTrace_snoc in Hix as [Hix Hev].
  pose proof (run_Kept h cfg evs initial Hix (Kept_initial cfg)) as HK.
  destruct ev as [msg|hd|]; cbn [step].
  - destruct (input_outputs h cfg msg now _ Hev HK) as [-> _]. constructor.
  - by apply fire_outputs.
  - rewrite close_spec. constructor.
Qed.

(** X14.  Every position submitted is an integer.  Then every message on
    the first output carries a complete array: the event is an item at a
    position [p], the array is built from the slots of the cycle with
    the data of the item at [p], it has [expectedCount] elements, and
    each of them is the value held by the slot of its position, none a
    filler.  The message is the incoming message of the event with the
    array placed in it, and the writes to the context stores are those
    of this placement. *)
Theorem completed_array_has_no_gap h cfg evs ev now :
  indexedTrace (evs ++ [(ev, now)]) ->
  Forall (fun m' => exists msg p o',
            ev = EInput msg
            /\ positionOf msg = Some p
            /\ placed h cfg msg
                 (buildResult cfg
                    (<[p := dataOf msg]> (view (run h cfg evs initial).1)))
               = Some (m', o')
            /\ stored (step h cfg ev now (run h cfg evs initial).1).2
               = stored o'
            /\ gapless cfg
                 (<[p := dataOf msg]> (view (run h cfg evs initial).1))
                 (buildResult cfg
                    (<[p := dataOf msg]> (view (run h cfg evs initial).1))))
    (sentOn primary (step h cfg ev now (run h cfg evs initial).1).2).
Proof.
  intros Hix. apply indexedTrace_snoc in Hix as [Hix Hev].
  pose proof (run_Kept h cfg evs initial Hix (Kept_initial cfg)) as HK.
  pose proof HK as (HI & _).
  destruct ev as [msg|hd|]; cbn [step].
  - destruct (input_outputs h cfg msg now _ Hev HK) as [_ Hp].
    eapply Forall_impl; [exact Hp|]. cbn. intros m' (p & o' & ? & ? & ? & ?).
    by exists msg, p, o'.
  - destruct (fire_cases h cfg hd now (run h cfg evs initial).1)
      as [E|[(m' & o' & Hpl & _ & _ & E)|[(e & _ & E)|E]]];
      rewrite E; cbn [snd]; try constructor.
    rewrite sentOn_app, (placed_silent _ _ _ _ _ _ _ Hpl). constructor.
  - rewrite close_spec. constructor.
Qed.

(** *** Close *)

(** X15.  Closing the collector ends the cycle in progress without output:
    the timeout timer is cancelled, and whatever timer handles fire after
    the close, nothing is sent on any output and the collector stays idle
    with empty slots. *)
Theorem collector_close_is_silent h cfg evs t fires :
  onlyFires fires ->
  let r := run h cfg ((EClose, t) :: fires) (run h cfg evs initial).1 in
  isCollecting r.1 = false
  /\ collection r.1 = ∅
  /\ strays r.1 = []
  /\ timeoutHandle r.1 = None
  /\ outstanding isHandleTimeout (timers r.1) = []
  /\ forall ch, sentOn ch r.2 = [].
Proof.
  intros Hf. cbn zeta. cbn [run step]. rewrite close_spec.
  pose proof (reachable_state_Inv h cfg evs) as HI.
  set (s := (run h cfg evs initial).1) in *.
  pose proof (Inv_cleared cfg s HI) as HI1.
  destruct (fires_quiet h cfg fires (cleared s) HI1 eq_refl Hf)
    as (Hq & Hc2 & Hcol & Hstr & Hhd).
  assert (HI2 : Inv cfg (run h cfg fires (cleared s)).1).
  { destruct (run h cfg fires (cleared s)) as [s2 o2] eqn:Hrun.
    eapply run_Inv; [exact HI1|exact Hrun]. }
  pose proof (Inv_no_timeout cfg _ HI2 Hc2) as Hno.
  destruct (run h cfg fires (cleared s)) as [s2 o2]. cbn [fst snd] in *.
  split_and!; try done. intros ch.
  rewrite sentOn_app. by apply quiet_sentOn.
Qed.

(** *** The deadline of a cycle *)

(** X16.  The timeout of a cycle is counted from its first item, for a
    timeout of at most [2^31 - 1] ms (the greatest delay of a timer):
    after any number of further items that do not complete the cycle,
    the timeout timer is still the one armed by the first item, due
    [timeout] ms (at least 1 ms) after it, and the start time of the
    cycle is the time of the first item. *)
Theorem timeout_counts_from_first_item h cfg s m0 t0 rest :
  timeout cfg <= 2147483647 ->
  Js.isInteger (expectedCount cfg) = true ->
  Idle s ->
  Forall (inRange cfg) ((m0, t0) :: rest) ->
  Z.of_nat (size (storeAll ∅ ((m0, t0) :: rest))) < expectedCount cfg ->
  exists hd t,
    timeoutHandle (run h cfg (inputs ((m0, t0) :: rest)) s).1 = Some hd
    /\ Timers.find hd (timers (run h cfg (inputs ((m0, t0) :: rest)) s).1)
       = Some t
    /\ callback t = HandleTimeout
    /\ due t = t0 + Z.max 1 (timeout cfg)
    /\ collectionStartTime (run h cfg (inputs ((m0, t0) :: rest)) s).1
       = Some t0.
Proof.
  intros Hbound Hfin (Hidle & Hnone & Hwf) Hall Hsz.
  destruct (run_collecting h cfg ((m0, t0) :: rest) s Hfin)
    as (s1 & o1 & Hrun & HC); [by apply viewStrays_idle|done| |].
  { by rewrite (view_idle s Hidle). }
  rewrite Hrun. cbn [fst].
  destruct HC as [_ _ _ _ _ Htm].
  destruct Htm as (Ht & Hh & Hst); [done|].
  cbn [head fmap option_fmap option_map snd default] in Ht, Hh, Hst.
  unfold begun in Ht, Hh, Hst. rewrite Hidle in Ht, Hh, Hst.
  cbn [timers timeoutHandle collectionStartTime] in Ht, Hh, Hst.
  eexists _, _. rewrite Hh, Ht, Hst.
  split; [reflexivity|].
  split; [by apply TimersFacts.find_setTimeout_new|].
  split_and!; try done. cbn. f_equal. unfold clampDelay.
  destruct (timeout cfg <? 1) eqn:E;
    [apply Z.ltb_lt in E|apply Z.ltb_ge in E]; lia.
Qed.

(** *** Messages that are ignored *)

Lemma input_ignored h cfg msg now s :
  ignored cfg msg ->
  exists w, input h cfg msg now s = (Ok tt, s, [Warn w]).
Proof.
  unfold ignored. destruct (arrayPosition msg) as [v|] eqn:Hp.
  - intros Hr. rewrite (input_rejected _ _ _ _ _ v) by done. eauto.
  - intros _. rewrite input_missing_meta by done. eauto.
Qed.

(** X17.  A message without a numeric position, or whose position is a
    number below 0 or at least [expectedCount] (NaN is neither), leaves
    no trace but its warning: a run with the message and the run without
    it reach the same state and send the same messages on every
    output. *)
Theorem ignored_message_changes_nothing h cfg evs1 evs2 msg t s :
  ignored cfg msg ->
  (run h cfg (evs1 ++ (EInput msg, t) :: evs2) s).1
  = (run h cfg (evs1 ++ evs2) s).1
  /\ forall ch,
       sentOn ch (run h cfg (evs1 ++ (EInput msg, t) :: evs2) s).2
       = sentOn ch (run h cfg (evs1 ++ evs2) s).2.
Proof.
  intros Hig. rewrite !run_app.
  destruct (run h cfg evs1 s) as [s1 o1]. cbn [run step].
  destruct (input_ignored h cfg msg t s1 Hig) as (w & ->).
  destruct (run h cfg evs2 s1) as [s2 o2]. cbn [fst snd].
  split; [done|]. intros ch. by rewrite !sentOn_app.
Qed.

End ArrayOutLaws.
(** ** Rate-limited queue: what happens to every entry *)

Module QueueLaws.
Import Timers QueueCommon QueueSpec QueueTrace.
Import QueueFacts.

Lemma shiftExpired_spec cfg now q :
  Forall (fun e => timeoutMs cfg <= now - enqueuedAt e)
    (shiftExpired cfg now q).1
  /\ forall e rest, (shiftExpired cfg now q).2 = e :: rest ->
                    now - enqueuedAt e < timeoutMs cfg.
Proof.
  induction q as [|x q IH]; cbn; [split; [constructor|done]|].
  destruct (timeoutMs cfg <=? now - enqueuedAt x) eqn:E.
  - destruct (shiftExpired cfg now q) as [ex kept]. cbn in *.
    destruct IH as [IH1 IH2].
    split; [constructor; [by apply Z.leb_le|done]|done].
  - cbn. split; [constructor|]. intros e rest [= <- <-]. by apply Z.leb_gt.
Qed.

Lemma sentOn_timeouts cfg now (l : list Entry) :
  sentOn primary
    ((fun entry => Send secondary (Queue1.markTimeout cfg now entry)) <$> l)
  = []
  /\ sentOn secondary
       ((fun entry => Send secondary (Queue1.markTimeout cfg now entry)) <$> l)
     = Queue1.markTimeout cfg now <$> l.
Proof.
  unfold sentOn. split.
  - induction l as [|x l IH]; [done|]. cbn.
    rewrite decide_False by done. exact IH.
  - induction l as [|x l IH]; [done|]. cbn.
    rewrite decide_True by done. by rewrite IH.
Qed.

Lemma prune1_moves cfg now s :
  exists E kept o,
    Queue1.pruneExpired cfg now s = (setQueue kept s, o)
    /\ queue s = E ++ kept
    /\ sentOn primary o = []
    /\ sentOn secondary o = Queue1.markTimeout cfg now <$> E
    /\ Forall (expiredAt cfg now) E
    /\ (forall e rest, kept = e :: rest -> freshAt cfg now e).
Proof.
  unfold Queue1.pruneExpired.
  destruct (negb (useTimeout cfg) || (timeoutMs cfg <=? 0)
            || (Z.of_nat (length (queue s)) =? 0)) eqn:G.
  { exists [], (queue s), []. rewrite setQueue_id. split_and!; try done.
    intros e rest Hq Hage. unfold ageActive in Hage.
    apply andb_true_iff in Hage as [Hu Ht]. apply Z.ltb_lt in Ht.
    rewrite Hu in G. cbn in G.
    apply orb_true_iff in G as [G|G].
    - apply Z.leb_le in G. lia.
    - apply Z.eqb_eq in G. rewrite Hq in G. cbn in G. lia. }
  apply orb_false_iff in G as [G _]. apply orb_false_iff in G as [Gu Gt].
  assert (Hage : ageActive cfg = true).
  { unfold ageActive. apply negb_false_iff in Gu. rewrite Gu. cbn.
    apply Z.leb_gt in Gt. by apply Z.ltb_lt. }
  pose proof (shiftExpired_app cfg now (queue s)) as Happ.
  destruct (shiftExpired_spec cfg now (queue s)) as [Hex Hkept].
  destruct (shiftExpired cfg now (queue s)) as [ex kept]. cbn in *.
  eexists ex, kept, _. split; [reflexivity|]. split; [done|].
  assert (Hall : Forall (expiredAt cfg now) ex).
  { eapply Forall_impl; [exact Hex|]. by intros e He. }
  assert (Hfresh : forall e rest, kept = e :: rest -> freshAt cfg now e).
  { intros e rest Hq _. by eapply Hkept. }
  destruct ex as [|e ex]; [done|].
  destruct (sentOn_timeouts cfg now (e :: ex)) as [Hp Hs].
  split_and!; try done.
Qed.

Lemma queue_clearTimer s : queue (clearTimer s) = queue s.
Proof. unfold clearTimer. by destruct (timer s). Qed.

Lemma lastSent_clearTimer s : lastSent (clearTimer s) = lastSent s.
Proof. unfold clearTimer. by destruct (timer s). Qed.

Lemma tooSoon_lastSent cfg s1 s2 now :
  lastSent s1 = lastSent s2 -> tooSoon cfg s1 now = tooSoon cfg s2 now.
Proof. unfold tooSoon, elapsedSince. by intros ->. Qed.

Lemma schedule1_moves cfg now s :
  exists E,
    queue s = E ++ queue (Queue1.scheduleNextSend cfg now s).1
    /\ lastSent (Queue1.scheduleNextSend cfg now s).1 = lastSent s
    /\ sentOn primary (Queue1.scheduleNextSend cfg now s).2 = []
    /\ sentOn secondary (Queue1.scheduleNextSend cfg now s).2
       = Queue1.markTimeout cfg now <$> E
    /\ Forall (expiredAt cfg now) E.
Proof.
  unfold Queue1.scheduleNextSend.
  destruct (prune1_moves cfg now (clearTimer s))
    as (E & kept & o & -> & Hq & Hp & Hs & Hex & _).
  rewrite queue_clearTimer in Hq. exists E.
  cbn [queue setQueue]. destruct kept as [|e kept];
    cbn [fst snd queue lastSent setQueue setTimeout];
    rewrite !ArrayOutFacts.sentOn_app, Hp, Hs, ?lastSent_clearTimer, ?app_nil_r;
    split_and!; try done.
  by rewrite app_nil_r in Hq.
Qed.

Lemma attempt1_moves cfg now s :
  exists E1 sent E2,
    queue s = E1 ++ sent ++ E2 ++ queue (Queue1.attemptSend cfg now s).1
    /\ sentOn primary (Queue1.attemptSend cfg now s).2 = msg <$> sent
    /\ sentOn secondary (Queue1.attemptSend cfg now s).2
       = Queue1.markTimeout cfg now <$> (E1 ++ E2)
    /\ (length sent <= 1)%nat
    /\ Forall (expiredAt cfg now) (E1 ++ E2)
    /\ Forall (freshAt cfg now) sent
    /\ (sent = [] ->
        lastSent (Queue1.attemptSend cfg now s).1 = lastSent s)
    /\ (sent <> [] ->
        lastSent (Queue1.attemptSend cfg now s).1 = now
        /\ tooSoon cfg s now = false).
Proof.
  unfold Queue1.attemptSend.
  destruct (prune1_moves cfg now s)
    as (E1 & kept & o1 & -> & Hq & Hp1 & Hs1 & Hex1 & Hfresh).
  cbn [queue setQueue]. destruct kept as [|entry rest].
  { exists E1, [], []. cbn [fst snd queue lastSent setQueue app].
    rewrite !ArrayOutFacts.sentOn_app, Hp1, Hs1, !app_nil_r.
    rewrite app_nil_r in Hq. split_and!; try done. cbn; lia. }
  rewrite (tooSoon_lastSent cfg _ s now) by done.
  destruct (tooSoon cfg s now) eqn:Hsoon.
  - destruct (schedule1_moves cfg now (setQueue (entry :: rest) s))
      as (E2 & Hq2 & Hl2 & Hp2 & Hs2 & Hex2).
    destruct (Queue1.scheduleNextSend cfg now _) as [s2 o2].
    cbn [fst snd queue lastSent setQueue] in *.
    exists E1, [], E2. cbn [app fmap list_fmap].
    rewrite !ArrayOutFacts.sentOn_app, Hp1, Hs1, Hp2, Hs2, fmap_app, Hq, Hq2.
    split_and!; try done; [cbn; lia|by apply Forall_app].
  - match goal with |- context [Queue1.scheduleNextSend cfg now ?x] =>
      destruct (schedule1_moves cfg now x)
        as (E2 & Hq2 & Hl2 & Hp2 & Hs2 & Hex2);
      destruct (Queue1.scheduleNextSend cfg now x) as [s3 o3]
    end.
    cbn [fst snd queue lastSent setQueue timer timers] in *.
    exists E1, [entry], E2.
    rewrite !ArrayOutFacts.sentOn_app, Hp1, Hs1, Hp2, Hs2, fmap_app, Hq, Hq2.
    rewrite sentOn_cons_status, sentOn_cons_send, sentOn_cons_status.
    rewrite (sentOn_cons_other secondary primary) by done.
    split_and!; try done.
    + by apply Forall_app.
    + constructor; [|constructor]. by eapply Hfresh.
Qed.

Lemma step1_moves cfg ev now s :
  Moves cfg ev now s (Queue1.step cfg ev now s).1 (Queue1.step cfg ev now s).2.
Proof.
  destruct ev as [m|hd|]; cbn [Queue1.step].
  - unfold Queue1.input.
    destruct (prune1_moves cfg now s)
      as (E & kept & o1 & -> & Hq & Hp1 & Hs1 & Hex1 & _).
    destruct (atCapacity cfg (setQueue kept s)) eqn:Hcap.
    + right; left. exists m, E. cbn [fst snd queue setQueue lastSent].
      rewrite !ArrayOutFacts.sentOn_app, Hp1, Hs1.
      unfold atCapacity in Hcap. cbn [queue setQueue] in Hcap.
      apply andb_true_iff in Hcap as [Hc Hl]. apply Z.leb_le in Hl.
      by split_and!.
    + left.
      match goal with |- context [Queue1.attemptSend cfg now ?x] =>
        destruct (attempt1_moves cfg now x)
          as (E1 & sent & E2 & Hq2 & Hp2 & Hs2 & Hlen & Hex2 & Hfr & Hl0 & Hl1);
        destruct (Queue1.attemptSend cfg now x) as [s3 o3]
      end.
      cbn [fst snd queue setQueue lastSent] in *.
      exists (E ++ E1), sent, E2. cbn [arrival].
      rewrite !ArrayOutFacts.sentOn_app, Hp1, Hs1, Hp2, Hs2.
      split_and!; try done.
      * by rewrite Hq, <- !app_assoc, Hq2.
      * cbn. by rewrite !fmap_app, <- !app_assoc.
      * rewrite <- app_assoc. apply Forall_app in Hex2 as [??].
        by repeat apply Forall_app_2.
      * intros Hc Hlen0.
        assert (Hk : Z.of_nat (length kept) < maxQueueSize cfg).
        { unfold atCapacity in Hcap. cbn [queue setQueue] in Hcap.
          unfold capActive in Hc. rewrite Hc in Hcap. cbn in Hcap.
          by apply Z.leb_gt in Hcap. }
        assert (Hl : length (kept ++ [{| msg := m; enqueuedAt := now |}])
                     = length (E1 ++ sent ++ E2 ++ queue s3))
          by (by rewrite Hq2).
        rewrite !length_app in Hl. cbn in Hl. lia.
  - unfold Queue1.fire. destruct (Timers.find hd (timers s)) as [t|].
    + left.
      match goal with |- context [Queue1.attemptSend cfg now ?x] =>
        destruct (attempt1_moves cfg now x)
          as (E1 & sent & E2 & Hq2 & Hp2 & Hs2 & Hlen & Hex2 & Hfr & Hl0 & Hl1);
        destruct (Queue1.attemptSend cfg now x) as [s3 o3]
      end.
      cbn [fst snd queue lastSent arrival] in *.
      exists E1, sent, E2. rewrite app_nil_r.
      split_and!; try done.
      intros Hc Hlen0.
      assert (Hl : length (queue s) = length (E1 ++ sent ++ E2 ++ queue s3))
        by (by rewrite <- Hq2).
      rewrite !length_app in Hl. lia.
    + left. exists [], [], []. cbn. rewrite app_nil_r.
      split_and!; try done. lia.
  - right; right. cbn. split_and!; try done. apply lastSent_clearTimer.
Qed.

Lemma step2_queue cfg ev now s :
  (Queue2.step cfg ev now s).1 = (Queue1.step cfg ev now s).1.
Proof. by destruct (step_sim cfg ev now s) as [? _]. Qed.

(** *** Every message is accounted for *)

Lemma run1_count cfg evs : forall s,
  noClose evs ->
  (length (queue s) + length (inputsOf evs))%nat
  = (length (sentAt primary (run Queue1.step cfg evs s).2)
     + length (sentAt secondary (run Queue1.step cfg evs s).2)
     + length (queue (run Queue1.step cfg evs s).1))%nat.
Proof.
  induction evs as [|[ev now] evs IH]; intros s Hnc; cbn [run].
  { cbn. lia. }
  apply Forall_cons in Hnc as [Hev Hnc]. cbn in Hev.
  pose proof (step1_moves cfg ev now s) as HM.
  destruct (Queue1.step cfg ev now s) as [s1 o1]. cbn [fst snd] in HM.
  specialize (IH s1 Hnc).
  destruct (run Queue1.step cfg evs s1) as [s2 l2]. cbn [fst snd] in *.
  rewrite !sentAt_app, !sentAt_stamp, !length_app, !length_fmap.
  assert (Hin : length (inputsOf ((ev, now) :: evs))
                = (length (arrival ev now) + length (inputsOf evs))%nat).
  { unfold inputsOf. cbn. by destruct ev. }
  rewrite Hin.
  destruct HM as [(E1 & sent & E2 & Hq & Hp & Hs & _)
                 |[(m & E & -> & Hq & Hp & Hs & _)|(-> & _)]]; [| |done].
  - assert (Hl : length (queue s ++ arrival ev now)
                 = length (E1 ++ sent ++ E2 ++ queue s1)) by (by rewrite Hq).
    rewrite Hp, Hs, !length_fmap. rewrite !length_app in *. lia.
  - assert (Hl : length (queue s) = length (E ++ queue s1)) by (by rewrite Hq).
    rewrite Hp, Hs, !length_app, !length_fmap. rewrite !length_app in *.
    cbn. lia.
Qed.

(** X6.  No message is lost by the first implementation while the node is
    open: of the messages received, each has been forwarded on the first
    output, or routed to the second, or is still in the queue. *)
Theorem queue_accounts_for_every_message cfg evs :
  noClose evs ->
  length (inputsOf evs)
  = (length (sentAt primary (run Queue1.step cfg evs initial).2)
     + length (sentAt secondary (run Queue1.step cfg evs initial).2)
     + length (queue (run Queue1.step cfg evs initial).1))%nat.
Proof. intros Hnc. by rewrite <- (run1_count cfg evs initial Hnc). Qed.

(** *** Order *)

Lemma inputsOf_cons ev now evs :
  inputsOf ((ev, now) :: evs) = (msg <$> arrival ev now) ++ inputsOf evs.
Proof. unfold inputsOf. cbn. by destruct ev. Qed.

Lemma moves_sublist cfg ev now s s' o :
  Moves cfg ev now s s' o ->
  sentOn primary o ++ (msg <$> queue s')
  `sublist_of` (msg <$> queue s) ++ (msg <$> arrival ev now).
Proof.
  intros [(E1 & sent & E2 & Hq & Hp & _)
         |[(m & E & -> & Hq & Hp & _)|(-> & Hq & Hp & _)]].
  - rewrite <- fmap_app, Hq, Hp, !fmap_app.
    apply sublist_inserts_l, sublist_app; [done|].
    by apply sublist_inserts_l.
  - rewrite Hp, Hq, fmap_app. cbn.
    apply sublist_inserts_r, sublist_inserts_l. done.
  - rewrite Hp, Hq. cbn. apply sublist_nil_l.
Qed.

Lemma run1_order cfg evs : forall s,
  (snd <$> sentAt primary (run Queue1.step cfg evs s).2)
    ++ (msg <$> queue (run Queue1.step cfg evs s).1)
  `sublist_of` (msg <$> queue s) ++ inputsOf evs.
Proof.
  induction evs as [|[ev now] evs IH]; intros s; cbn [run].
  { cbn. by rewrite app_nil_r. }
  pose proof (moves_sublist _ _ _ _ _ _ (step1_moves cfg ev now s)) as HM.
  destruct (Queue1.step cfg ev now s) as [s1 o1]. cbn [fst snd] in HM.
  specialize (IH s1).
  destruct (run Queue1.step cfg evs s1) as [s2 l2]. cbn [fst snd] in *.
  rewrite sentAt_app, sentAt_stamp, fmap_app, <- list_fmap_compose.
  rewrite inputsOf_cons, <- app_assoc.
  assert (Hid : (snd ∘ (fun m : JsVal => (now, m))) <$> sentOn primary o1
                = sentOn primary o1).
  { rewrite <- (list_fmap_id (sentOn primary o1)) at 2.
    by apply list_fmap_ext. }
  rewrite Hid.
  transitivity (sentOn primary o1 ++ (msg <$> queue s1) ++ inputsOf evs).
  - by apply sublist_app.
  - rewrite !app_assoc. by apply sublist_app.
Qed.

(** X7.  The queue never reorders and never duplicates: under every
    configuration and for every trace of messages, timer firings and
    closes, the messages forwarded on the first output are, in order, a
    subsequence of the messages received.  This holds for both
    implementations. *)
Theorem queue_keeps_arrival_order cfg evs :
  (snd <$> sentAt primary (run Queue1.step cfg evs initial).2
     `sublist_of` inputsOf evs)
  /\ (snd <$> sentAt primary (run Queue2.step cfg evs initial).2
        `sublist_of` inputsOf evs).
Proof.
  assert (H1 : snd <$> sentAt primary (run Queue1.step cfg evs initial).2
               `sublist_of` inputsOf evs).
  { etransitivity; [|apply (run1_order cfg evs initial)].
    by apply sublist_inserts_r. }
  split; [done|].
  destruct (run_sim cfg evs initial) as (_ & -> & _). done.
Qed.

(** *** The pace under every configuration *)

Lemma run1_pace cfg evs : forall s t0 (times : list Z),
  ascending t0 evs ->
  lastSent s = default 0 (last times) ->
  spaced (intervalMs cfg) times ->
  Forall (fun t => 0 < t <= t0) times ->
  spaced (intervalMs cfg)
    (times ++ (fst <$> sentAt primary (run Queue1.step cfg evs s).2)).
Proof.
  induction evs as [|[ev now] evs IH]; intros s t0 times Hasc Hlast Hsp Hall;
    cbn [run].
  { cbn. by rewrite app_nil_r. }
  cbn in Hasc. destruct Hasc as (Ht0 & Hpos & Hasc).
  pose proof (step1_moves cfg ev now s) as HM.
  destruct (Queue1.step cfg ev now s) as [s1 o1]. cbn [fst snd] in HM.
  specialize (IH s1 now).
  destruct (run Queue1.step cfg evs s1) as [s2 l2]. cbn [fst snd] in *.
  rewrite sentAt_app, sentAt_stamp, fmap_app, <- list_fmap_compose, app_assoc.
  assert (Hlater : Forall (fun t => 0 < t <= now) times).
  { eapply Forall_impl; [exact Hall|]. cbn. intros; lia. }
  assert (Hquiet : sentOn primary o1 = [] -> lastSent s1 = lastSent s ->
    spaced (intervalMs cfg)
      ((times ++ (fst ∘ (fun m : JsVal => (now, m)) <$> sentOn primary o1))
         ++ (fst <$> sentAt primary l2))).
  { intros -> Hl. cbn. rewrite app_nil_r. apply IH; try done. congruence. }
  destruct HM as [(E1 & sent & E2 & _ & Hp & _ & Hlen & _ & _ & Hl0 & Hl1 & _)
                 |[(m & E & _ & _ & Hp & _ & _ & _ & _ & Hl)
                  |(_ & _ & Hp & Hl)]].
  - destruct sent as [|e [|e' sent]]; [| |cbn in Hlen; lia].
    + apply Hquiet; [done|by apply Hl0].
    + destruct Hl1 as [Hl1 Hsoon]; [done|].
      rewrite Hp. cbn [fmap list_fmap compose fst].
      apply IH; try done.
      * rewrite last_snoc. done.
      * apply spaced_snoc; [done|]. intros a Ha.
        rewrite Ha in Hlast. cbn in Hlast.
        apply Forall_forall with (x := a) in Hall; [|by apply last_Some_elem_of].
        unfold tooSoon, elapsedSince in Hsoon.
        destruct (0 <? intervalMs cfg) eqn:Hint; cbn in Hsoon.
        -- destruct (lastSent s =? 0) eqn:Hz; [apply Z.eqb_eq in Hz; lia|].
           apply Z.ltb_ge in Hsoon. lia.
        -- apply Z.ltb_ge in Hint. lia.
      * apply Forall_app. split; [done|]. constructor; [lia|constructor].
  - by apply Hquiet.
  - apply Hquiet; [apply Hp|done].
Qed.

(** X8.  The minimum interval holds under every configuration, with or
    without the capacity and age bounds and across closes: when the clock
    does not go back, two consecutive messages on the first output are at
    least [intervalMs] apart.  This holds for both implementations. *)
Theorem queue_interval_always cfg evs :
  ascending 0 evs ->
  spaced (intervalMs cfg)
    (fst <$> sentAt primary (run Queue1.step cfg evs initial).2)
  /\ spaced (intervalMs cfg)
       (fst <$> sentAt primary (run Queue2.step cfg evs initial).2).
Proof.
  intros Hasc.
  assert (H1 : spaced (intervalMs cfg)
                 (fst <$> sentAt primary (run Queue1.step cfg evs initial).2)).
  { apply (run1_pace cfg evs initial 0 []); try done. }
  split; [done|].
  destruct (run_sim cfg evs initial) as (_ & -> & _). done.
Qed.

(** *** Freshness *)

Lemma moves_queue_from cfg ev now s s' o e :
  Moves cfg ev now s s' o -> e ∈ queue s' -> e ∈ queue s ++ arrival ev now.
Proof.
  intros [(E1 & sent & E2 & Hq & _)
         |[(m & E & -> & Hq & _)|(-> & Hq & _)]] He.
  - rewrite Hq. set_solver.
  - rewrite Hq. set_solver.
  - rewrite Hq in He. set_solver.
Qed.

Lemma run1_fresh cfg evs : forall s,
  Forall (fun tm =>
    exists e, (e ∈ queue s \/ (EInput (msg e), enqueuedAt e) ∈ evs)
              /\ msg e = tm.2
              /\ freshAt cfg tm.1 e)
    (sentAt primary (run Queue1.step cfg evs s).2).
Proof.
  induction evs as [|[ev now] evs IH]; intros s; cbn [run]; [constructor|].
  pose proof (step1_moves cfg ev now s) as HM.
  destruct (Queue1.step cfg ev now s) as [s1 o1]. cbn [fst snd] in HM.
  specialize (IH s1).
  destruct (run Queue1.step cfg evs s1) as [s2 l2]. cbn [fst snd] in *.
  rewrite sentAt_app, sentAt_stamp. apply Forall_app. split.
  - assert (Harr : forall e, e ∈ queue s ++ arrival ev now ->
        e ∈ queue s \/ (EInput (msg e), enqueuedAt e) ∈ (ev, now) :: evs).
    { intros e [?|He]%elem_of_app; [by left|right].
      destruct ev; cbn in He; try by apply elem_of_nil in He.
      apply list_elem_of_singleton in He as ->. cbn. left. }
    destruct HM as [(E1 & sent & E2 & Hq & Hp & _ & _ & _ & Hfr & _)
                   |[(m & E & _ & _ & Hp & _)|(_ & _ & Hp & _)]];
      rewrite Hp; [|by constructor..].
    apply Forall_fmap, Forall_fmap, Forall_forall. intros e He. cbn.
    exists e. split_and!; [|done|].
    + apply Harr. rewrite Hq. set_solver.
    + by apply (proj1 (Forall_forall _ _) Hfr).
  - eapply Forall_impl; [exact IH|]. cbn.
    intros [t m] (e & [He|He] & Hm & Hf); exists e; (split_and!; [|done..]).
    + apply (moves_queue_from _ _ _ _ _ _ _ HM) in He.
      apply elem_of_app in He as [?|He]; [by left|right].
      destruct ev; cbn in He; try by apply elem_of_nil in He.
      apply list_elem_of_singleton in He as ->. cbn. left.
    + right. by right.
Qed.

(** X9.  No stale message is forwarded: when the age bound is in force, every
    message on the first output was received less than [timeoutMs]
    before it was sent.  This holds for both implementations. *)
Theorem queue_forwards_fresh_only cfg evs :
  ageActive cfg = true ->
  Forall (fun tm => exists t0, (EInput tm.2, t0) ∈ evs
                               /\ tm.1 - t0 < timeoutMs cfg)
    (sentAt primary (run Queue1.step cfg evs initial).2)
  /\ Forall (fun tm => exists t0, (EInput tm.2, t0) ∈ evs
                                  /\ tm.1 - t0 < timeoutMs cfg)
       (sentAt primary (run Queue2.step cfg evs initial).2).
Proof.
  intros Hage.
  assert (H1 : Forall (fun tm => exists t0, (EInput tm.2, t0) ∈ evs
                                            /\ tm.1 - t0 < timeoutMs cfg)
                 (sentAt primary (run Queue1.step cfg evs initial).2)).
  { eapply Forall_impl; [apply (run1_fresh cfg evs initial)|]. cbn.
    intros [t m] (e & [He|He] & Hm & Hf); [by apply elem_of_nil in He|].
    cbn in *. subst m. exists (enqueuedAt e). split; [done|]. by apply Hf. }
  split; [done|].
  destruct (run_sim cfg evs initial) as (_ & -> & _). done.
Qed.

(** *** Capacity *)

Lemma moves_capacity cfg ev now s s' o :
  Moves cfg ev now s s' o ->
  capActive cfg = true ->
  Z.of_nat (length (queue s)) <= maxQueueSize cfg ->
  Z.of_nat (length (queue s')) <= maxQueueSize cfg.
Proof.
  intros [(E1 & sent & E2 & _ & _ & _ & _ & _ & _ & _ & _ & Hc)
         |[(m & E & -> & Hq & _)|(-> & Hq & _)]] Hcap Hlen.
  - by apply Hc.
  - assert (Hl : length (queue s) = length (E ++ queue s'))
      by (by rewrite <- Hq).
    rewrite length_app in Hl. lia.
  - rewrite Hq. cbn. unfold capActive in Hcap.
    apply andb_true_iff in Hcap as [_ ?%Z.ltb_lt]. lia.
Qed.

Lemma run1_capacity cfg evs : forall s,
  capActive cfg = true ->
  Z.of_nat (length (queue s)) <= maxQueueSize cfg ->
  Z.of_nat (length (queue (run Queue1.step cfg evs s).1)) <= maxQueueSize cfg.
Proof.
  induction evs as [|[ev now] evs IH]; intros s Hcap Hlen; cbn [run]; [done|].
  pose proof (moves_capacity _ _ _ _ _ _ (step1_moves cfg ev now s) Hcap Hlen)
    as HM.
  destruct (Queue1.step cfg ev now s) as [s1 o1]. cbn [fst snd] in HM.
  specialize (IH s1 Hcap HM).
  by destruct (run Queue1.step cfg evs s1) as [s2 l2].
Qed.

(** X10.  With the capacity bound in force the queue never holds more than
    [maxQueueSize] messages, in any state either implementation reaches. *)
Theorem queue_never_exceeds_capacity cfg evs :
  capActive cfg = true ->
  Z.of_nat (length (queue (run Queue1.step cfg evs initial).1))
    <= maxQueueSize cfg
  /\ Z.of_nat (length (queue (run Queue2.step cfg evs initial).1))
       <= maxQueueSize cfg.
Proof.
  intros Hcap.
  assert (H1 : Z.of_nat (length (queue (run Queue1.step cfg evs initial).1))
               <= maxQueueSize cfg).
  { apply run1_capacity; [done|]. cbn. unfold capActive in Hcap.
    apply andb_true_iff in Hcap as [_ ?%Z.ltb_lt]. lia. }
  split; [done|].
  destruct (run_sim cfg evs initial) as (-> & _). done.
Qed.

(** *** Close *)

Lemma find_no_pending {C : Type} hd (t : Table C) :
  pending t = [] -> Timers.find hd t = None.
Proof. unfold Timers.find. by intros ->. Qed.

Lemma run_fires_idle step cfg fires : forall s,
  (forall hd now s, pending (timers s) = [] ->
                    step cfg (EFire hd) now s = (s, [])) ->
  pending (timers s) = [] ->
  onlyFires fires ->
  (run step cfg fires s).1 = s
  /\ forall ch, sentAt ch (run step cfg fires s).2 = [].
Proof.
  induction fires as [|[ev now] fires IH]; intros s Hstep Hp Hf; cbn [run];
    [done|].
  apply Forall_cons in Hf as [[hd Hev] Hf]. cbn in Hev. subst ev.
  rewrite (Hstep hd now s Hp).
  destruct (IH s Hstep Hp Hf) as [IH1 IH2].
  destruct (run step cfg fires s) as [s2 l2]. cbn [fst snd] in *.
  split; [done|]. intros ch. by rewrite sentAt_app, IH2.
Qed.

Lemma fire1_idle cfg hd now s :
  pending (timers s) = [] -> Queue1.step cfg (EFire hd) now s = (s, []).
Proof.
  intros Hp. cbn. unfold Queue1.fire. by rewrite find_no_pending.
Qed.

Lemma fire2_idle cfg hd now s :
  pending (timers s) = [] -> Queue2.step cfg (EFire hd) now s = (s, []).
Proof.
  intros Hp. cbn. unfold Queue2.fire. by rewrite find_no_pending.
Qed.

Lemma close_then_fires step cfg t fires s :
  (forall hd now s, pending (timers s) = [] ->
                    step cfg (EFire hd) now s = (s, [])) ->
  (forall now s, step cfg EClose now s
                 = (setQueue [] (clearTimer s), [Status StIdle])) ->
  TimerOk s -> onlyFires fires ->
  let r := run step cfg ((EClose, t) :: fires) s in
  queue r.1 = [] /\ timer r.1 = None /\ pending (timers r.1) = []
  /\ forall ch, sentAt ch r.2 = [].
Proof.
  intros Hfire Hclose Hok Hf. cbn [run]. rewrite Hclose.
  destruct (TimerOk_clearTimer s Hok) as (_ & Ht & Hp).
  set (s1 := setQueue [] (clearTimer s)).
  assert (Hp1 : pending (timers s1) = []) by done.
  destruct (run_fires_idle step cfg fires s1 Hfire Hp1 Hf) as [H1 H2].
  destruct (run step cfg fires s1) as [s2 l2]. cbn [fst snd] in *.
  subst s2. by split_and!.
Qed.

(** X11.  Closing the node discards what is queued without sending it and
    cancels the pending timer: after a close, whatever timer handles fire,
    nothing is sent on any output and the queue stays empty, in both
    implementations. *)
Theorem queue_close_discards cfg evs t fires :
  onlyFires fires ->
  (let r := run Queue1.step cfg ((EClose, t) :: fires)
              (run Queue1.step cfg evs initial).1 in
   queue r.1 = [] /\ timer r.1 = None /\ pending (timers r.1) = []
   /\ forall ch, sentAt ch r.2 = [])
  /\ (let r := run Queue2.step cfg ((EClose, t) :: fires)
                 (run Queue2.step cfg evs initial).1 in
      queue r.1 = [] /\ timer r.1 = None /\ pending (timers r.1) = []
      /\ forall ch, sentAt ch r.2 = []).
Proof.
  intros Hf.
  pose proof (run1_TimerOk cfg evs initial TimerOk_initial) as Hok.
  split.
  - by apply (close_then_fires Queue1.step); [apply fire1_idle|..].
  - destruct (run_sim cfg evs initial) as (-> & _).
    by apply (close_then_fires Queue2.step); [apply fire2_idle|..].
Qed.

(** *** What the second output carries *)

Lemma markTimeout_meta cfg now e :
  Js.plainMeta (msg e) ->
  let m' := Queue1.markTimeout cfg now e in
  Js.getProp (Js.getProp m' "meta") "queueDropped" = JBool true
  /\ Js.getProp (Js.getProp m' "meta") "queueDropReason" = JStr "timeout"
  /\ Js.getProp (Js.getProp m' "meta") "queuedDuration"
     = JNum (now - enqueuedAt e)
  /\ Js.getProp (Js.getProp m' "meta") "queueTimeout" = JNum (timeoutMs cfg).
Proof.
  intros Hm. pose proof (JsFacts.isObject_metaOrEmpty _ Hm) as HM.
  destruct Hm as [Ho _]. unfold Queue1.markTimeout.
  fold (Js.metaOrEmpty (msg e)). cbn zeta.
  assert (H0 : Js.getProp (Js.setProp (msg e) "meta" (Js.metaOrEmpty (msg e)))
                 "meta" = Js.metaOrEmpty (msg e))
    by by apply JsFacts.getProp_setProp_eq.
  split_and!;
    rewrite !JsFacts.getProp_setProp2_eq
      by (rewrite ?JsFacts.isObject_setProp2, ?JsFacts.isObject_setProp;
          done);
    rewrite H0;
    repeat (rewrite JsFacts.getProp_setProp_ne by done);
    by rewrite JsFacts.getProp_setProp_eq
      by (rewrite ?JsFacts.isObject_setProp; done).
Qed.

Lemma moves_flagged cfg ev now s s' o :
  Moves cfg ev now s s' o ->
  Forall (fun e => Js.plainMeta (msg e)) (queue s ++ arrival ev now) ->
  Forall (flagged cfg) (sentOn secondary o)
  /\ Forall (fun e => Js.plainMeta (msg e)) (queue s').
Proof.
  assert (Hexp : forall E,
    Forall (expiredAt cfg now) E ->
    Forall (fun e => Js.plainMeta (msg e)) E ->
    Forall (flagged cfg) (Queue1.markTimeout cfg now <$> E)).
  { intros E Hex Hpl. apply Forall_fmap, Forall_forall. intros e He.
    apply (proj1 (Forall_forall _ _) Hex) in He as Hx.
    apply (proj1 (Forall_forall _ _) Hpl) in He as Hp.
    destruct Hx as [_ Hx].
    destruct (markTimeout_meta cfg now e Hp) as (H1 & H2 & H3 & H4).
    split; [done|]. left. split_and!; try done. eauto. }
  intros [(E1 & sent & E2 & Hq & _ & Hs & _ & Hex & _)
         |[(m & E & -> & Hq & _ & Hs & Hex & _)|(-> & Hq & Hs & _)]] Hall.
  - rewrite Hq in Hall. rewrite Hs. split.
    + apply Hexp; [done|].
      apply Forall_app in Hall as [H1 Hall]. apply Forall_app in Hall as [_ Hall].
      apply Forall_app in Hall as [H2 _]. by apply Forall_app.
    + apply Forall_app in Hall as [_ Hall]. apply Forall_app in Hall as [_ Hall].
      by apply Forall_app in Hall as [_ Hall].
  - rewrite Hs. cbn [arrival] in Hall. apply Forall_app in Hall as [Hall Hm].
    rewrite Hq in Hall. apply Forall_app in Hall as [HE Hq'].
    split; [|done]. apply Forall_app. split; [by apply Hexp|].
    constructor; [|constructor].
    apply Forall_cons in Hm as [Hm _]. cbn in Hm.
    destruct (markOverflow_meta cfg s' m Hm) as (H1 & H2 & _ & H4 & _).
    split; [done|]. by right.
  - rewrite Hs, Hq. by split.
Qed.

Lemma run1_flagged cfg evs : forall s,
  Forall (fun e => Js.plainMeta (msg e)) (queue s) ->
  Forall Js.plainMeta (inputsOf evs) ->
  Forall (fun tm => flagged cfg tm.2)
    (sentAt secondary (run Queue1.step cfg evs s).2).
Proof.
  induction evs as [|[ev now] evs IH]; intros s Hq Hin; cbn [run];
    [constructor|].
  rewrite inputsOf_cons in Hin. apply Forall_app in Hin as [Harr Hin].
  pose proof (step1_moves cfg ev now s) as HM.
  destruct (Queue1.step cfg ev now s) as [s1 o1]. cbn [fst snd] in HM.
  apply moves_flagged in HM as [Hfl Hq1].
  2:{ apply Forall_app. split; [done|].
      destruct ev; cbn in *; [|constructor..].
      apply Forall_cons in Harr as [Hm _]. by constructor. }
  specialize (IH s1 Hq1 Hin).
  destruct (run Queue1.step cfg evs s1) as [s2 l2]. cbn [fst snd] in *.
  rewrite sentAt_app, sentAt_stamp. apply Forall_app. split; [|done].
  by apply Forall_fmap.
Qed.

(** X12.  In the first implementation every message on the second output says
    why it is there: it carries [meta.queueDropped = true] and either the
    reason [timeout], the configured timeout and a queued duration that
    reached it, or the reason [overflow] and the configured capacity.
    (The messages received are objects whose [meta] is absent or an
    object.) *)
Theorem queue_drops_are_flagged cfg evs :
  Forall Js.plainMeta (inputsOf evs) ->
  Forall (fun tm => flagged cfg tm.2)
    (sentAt secondary (run Queue1.step cfg evs initial).2).
Proof. intros Hin. by apply run1_flagged. Qed.

End QueueLaws.

(** ** Array selector *)

Module ArraySelectFacts.
Import ArraySelect.

(** *** The index loop *)

Lemma loop_bounds fuel : forall i bound step,
  0 <= step -> Forall (fun x => i <= x < bound) (loop fuel i bound step).
Proof.
  induction fuel as [|fuel IH]; intros i bound step Hs; cbn; [constructor|].
  destruct (i <? bound) eqn:E; [|constructor].
  apply Z.ltb_lt in E. constructor; [lia|].
  eapply Forall_impl; [apply IH; lia|]. cbn. intros; lia.
Qed.

(** With a positive step the fuel [bound - i] is never used up: the loop
    ends because its condition fails, and it has produced the arithmetic
    progression from [i] below [bound]. *)
Lemma loop_progression fuel : forall i bound step,
  0 < step -> bound - i <= Z.of_nat fuel ->
  loop fuel i bound step =
  (fun k => i + k * step) <$> seqZ 0 ((bound - i + step - 1) / step).
Proof.
  induction fuel as [|fuel IH]; intros i bound step Hs Hf.
  - cbn. rewrite seqZ_nil; [done|].
    apply Z.lt_succ_r, Z.div_lt_upper_bound; lia.
  - cbn [loop]. destruct (i <? bound) eqn:E.
    + apply Z.ltb_lt in E.
      assert (Hq : (bound - i + step - 1) / step
                   = Z.succ ((bound - (i + step) + step - 1) / step)).
      { replace (bound - i + step - 1)
          with ((bound - (i + step) + step - 1) + 1 * step) by lia.
        rewrite Z.div_add by lia. lia. }
      assert (0 <= (bound - (i + step) + step - 1) / step).
      { apply Z.div_pos; lia. }
      rewrite Hq, seqZ_cons by lia. cbn [fmap list_fmap].
      rewrite Z.pred_succ. f_equal; [lia|].
      rewrite IH by lia.
      change (Z.succ 0) with (1 + 0). rewrite <- fmap_add_seqZ, <- list_fmap_compose.
      apply list_fmap_ext. intros _ k _. cbn. lia.
    + apply Z.ltb_ge in E. rewrite seqZ_nil; [done|].
      apply Z.lt_succ_r, Z.div_lt_upper_bound; lia.
Qed.

Lemma loop_seqZ i bound :
  loop (Z.to_nat (bound - i)) i bound 1 = seqZ i (bound - i).
Proof.
  rewrite loop_progression by lia.
  replace ((bound - i + 1 - 1) / 1) with (bound - i)
    by (rewrite Z.div_1_r; lia).
  transitivity (Z.add i <$> seqZ 0 (bound - i)).
  - apply list_fmap_ext. intros _ k _. lia.
  - rewrite fmap_add_seqZ. f_equal. lia.
Qed.

Lemma range_bounds n start end_ step indices :
  0 <= step ->
  range n start end_ step = Some indices ->
  indices <> [] /\ Forall (fun i => 0 <= i < n) indices.
Proof.
  intros Hs. unfold range.
  set (first := Z.max 0 _). set (bound := Z.min n _).
  pose proof (loop_bounds (Z.to_nat (bound - first)) first bound step Hs) as Hb.
  destruct (loop _ first bound step) as [|i l]; [done|].
  intros [= <-]. split; [done|].
  eapply Forall_impl; [exact Hb|]. cbn. intros; lia.
Qed.

Lemma range_progression n start end_ step :
  0 < step ->
  let first := Z.max 0 (normalise n start) in
  let bound := Z.min n (normalise n end_) in
  range n start end_ step =
  if first <? bound
  then Some ((fun k => first + k * step)
               <$> seqZ 0 ((bound - first + step - 1) / step))
  else None.
Proof.
  intros Hs first bound. unfold range. fold first bound.
  rewrite loop_progression by lia.
  destruct (first <? bound) eqn:E.
  - apply Z.ltb_lt in E.
    assert (0 < (bound - first + step - 1) / step).
    { apply Z.div_str_pos; lia. }
    rewrite seqZ_cons by lia. reflexivity.
  - apply Z.ltb_ge in E. rewrite seqZ_nil; [done|].
    apply Z.lt_succ_r, Z.div_lt_upper_bound; lia.
Qed.

(** *** Splitting *)

Lemma split_no_separator c s :
  JsStr.includes c s = false -> JsStr.split c s = [s].
Proof.
  induction s as [|a r IH]; cbn; [done|].
  destruct (Ascii.eqb a c); cbn; [done|]. intros H. by rewrite IH.
Qed.

Lemma split_length c s :
  (2 <= length (JsStr.split c s))%nat -> JsStr.includes c s = true.
Proof.
  destruct (JsStr.includes c s) eqn:E; [done|].
  rewrite split_no_separator by done. cbn. lia.
Qed.

Lemma listItem_bounds n part i :
  listItem n part = Some i -> 0 <= i < n.
Proof.
  unfold listItem. destruct (Js.parseInt _ _) as [index|]; [|done].
  cbn zeta. unfold inBounds.
  destruct ((0 <=? _) && (_ <? n)) eqn:E; [|done]. intros [= <-].
  apply andb_true_iff in E as [?%Z.leb_le ?%Z.ltb_lt]. lia.
Qed.

(** *** What a selection selects *)

Lemma parseSelection_bounds selection arrayLength indices :
  parseSelection selection arrayLength = Ok (Some indices) ->
  indices <> [] /\ Forall (fun i => 0 <= i < arrayLength) indices.
Proof.
  unfold parseSelection. destruct selection as [| |b|z| |neg ds pt|s|l|ps];
    try (destruct (Js.truthy _); discriminate).
  destruct (String.eqb s "" || String.eqb (Js.trim s) ""); [done|].
  cbn zeta. destruct (isIntLiteral (Js.trim s)).
  { destruct (Js.parseInt None _) as [index|]; [|done].
    unfold inBounds.
    destruct ((0 <=? _) && (_ <? arrayLength)) eqn:E; [|done].
    intros [= <-]. split; [done|]. constructor; [|constructor].
    apply andb_true_iff in E as [?%Z.leb_le ?%Z.ltb_lt]. lia. }
  destruct (JsStr.includes "," (Js.trim s)).
  { destruct (omap _ _) as [|i l] eqn:E; [done|]. intros [= <-].
    split; [done|]. rewrite <- E. apply Forall_forall. intros x Hx.
    apply list_elem_of_omap in Hx as (part & _ & Hx).
    by apply listItem_bounds in Hx. }
  destruct (JsStr.includes ":" (Js.trim s)); [|done].
  destruct (JsStr.split ":" (Js.trim s)) as [|p0 [|p1 [|p2 [|p3 ps]]]];
    try done.
  - intros [= H]. by apply range_bounds in H.
  - intros [= H]. apply range_bounds in H; [done|].
    destruct (parseOr p2 1 <=? 0) eqn:E; [lia|]. apply Z.leb_gt in E. lia.
Qed.

(** X1.  Every selection that is accepted names at least one index, and all
    its indices are positions of the array: the handler never reads
    outside the input array. *)
Theorem selection_indices_in_bounds selection arrayLength indices :
  parseSelection selection arrayLength = Ok (Some indices) ->
  indices <> [] /\ Forall (fun i => 0 <= i < arrayLength) indices.
Proof. apply parseSelection_bounds. Qed.

(** X2.  A selection [a:b] selects the run of consecutive indices from
    [max(0, start)] up to, but not including, [min(length, end)].  A start
    that is absent, unparsable or 0 is 0; an end that is absent,
    unparsable or 0 is the length of the array; a negative bound counts
    from the end.  An empty run is no selection. *)
Theorem selection_range s p0 p1 n :
  isIntLiteral (Js.trim s) = false ->
  JsStr.includes "," (Js.trim s) = false ->
  JsStr.split ":" (Js.trim s) = [p0; p1] ->
  let first := Z.max 0 (normalise n (parseOr p0 0)) in
  let bound := Z.min n (normalise n (parseOr p1 n)) in
  parseSelection (JStr s) n =
  Ok (if first <? bound then Some (seqZ first (bound - first)) else None).
Proof.
  intros Hlit Hcomma Hsplit first bound. unfold parseSelection.
  assert (Hcolon : JsStr.includes ":" (Js.trim s) = true).
  { apply split_length. rewrite Hsplit. cbn. lia. }
  assert (Hne : String.eqb s "" || String.eqb (Js.trim s) "" = false).
  { apply orb_false_iff. split.
    - destruct s; [|done]. cbn in Hcolon. done.
    - destruct (Js.trim s); [|done]. cbn in Hcolon. done. }
  rewrite Hne. cbn zeta. rewrite Hlit, Hcomma, Hcolon, Hsplit.
  f_equal. unfold range. fold first bound. rewrite loop_seqZ.
  destruct (first <? bound) eqn:E.
  - apply Z.ltb_lt in E. rewrite seqZ_cons by lia. reflexivity.
  - apply Z.ltb_ge in E. rewrite seqZ_nil by lia. reflexivity.
Qed.

(** X3.  A selection [a:b:c] selects every [step]-th index of the run of
    [a:b], starting with its first: [first], [first + step], ... below
    [min(length, end)].  A step that is absent, unparsable, 0 or negative
    is 1. *)
Theorem selection_step_range s p0 p1 p2 n :
  isIntLiteral (Js.trim s) = false ->
  JsStr.includes "," (Js.trim s) = false ->
  JsStr.split ":" (Js.trim s) = [p0; p1; p2] ->
  let first := Z.max 0 (normalise n (parseOr p0 0)) in
  let bound := Z.min n (normalise n (parseOr p1 n)) in
  let step := if parseOr p2 1 <=? 0 then 1 else parseOr p2 1 in
  0 < step
  /\ parseSelection (JStr s) n =
     Ok (if first <? bound
         then Some ((fun k => first + k * step)
                      <$> seqZ 0 ((bound - first + step - 1) / step))
         else None).
Proof.
  intros Hlit Hcomma Hsplit first bound step.
  assert (Hstep : 0 < step).
  { unfold step. destruct (parseOr p2 1 <=? 0) eqn:E; [lia|].
    by apply Z.leb_gt in E. }
  split; [done|]. unfold parseSelection.
  assert (Hcolon : JsStr.includes ":" (Js.trim s) = true).
  { apply split_length. rewrite Hsplit. cbn. lia. }
  assert (Hne : String.eqb s "" || String.eqb (Js.trim s) "" = false).
  { apply orb_false_iff. split.
    - destruct s; [|done]. cbn in Hcolon. done.
    - destruct (Js.trim s); [|done]. cbn in Hcolon. done. }
  rewrite Hne. cbn zeta. rewrite Hlit, Hcomma, Hcolon, Hsplit.
  f_equal. fold step. by rewrite range_progression.
Qed.

(** *** The input handler *)

Lemma nth_elem inputArray i :
  0 <= i < Z.of_nat (length inputArray) ->
  inputArray !! Z.to_nat i = Some (JsStr.nth inputArray i).
Proof.
  intros Hi. unfold JsStr.nth.
  destruct (i <? 0) eqn:E; [apply Z.ltb_lt in E; lia|].
  destruct (inputArray !! Z.to_nat i) eqn:El; [done|].
  apply lookup_ge_None in El. lia.
Qed.

(** X4.  The handler forwards at most one message, and it forwards one exactly
    when the input path holds an array, the selection is accepted for its
    length, and the host takes the result at the output path.  The
    message is then the fresh object the result was written to, not the
    incoming message. *)
Theorem selector_forwards_iff h node msg :
  (length (forwarded (input h node msg)) <= 1)%nat
  /\ forall m,
       m ∈ forwarded (input h node msg) <->
       exists inputArray indices stored,
         readInput h node msg = Some (JArr inputArray)
         /\ parseSelection (selection node) (Z.of_nat (length inputArray))
            = Ok (Some indices)
         /\ writeOutput h node (shape node (JsStr.nth inputArray <$> indices))
            = Some (m, stored).
Proof.
  assert (Hw : forall r m stored,
            writeOutput h node r = Some (m, stored) ->
            forwarded stored = []).
  { intros r m stored. unfold writeOutput.
    repeat case_match; intros; simplify_option_eq; done. }
  unfold input.
  destruct (readInput h node msg) as [v|] eqn:Hread.
  2:{ split; [cbn; lia|]. intros m. split; [by intros ?%elem_of_nil|].
      intros (?&?&?&?&_); done. }
  destruct v as [| |b|z| |neg ds pt|s|inputArray|ps];
    try (split; [cbn; lia|]; intros m;
         (split; [by intros ?%elem_of_nil|]); intros (?&?&?&?&_); done).
  destruct (Z.of_nat (length inputArray) =? 0) eqn:Hlen.
  { apply Z.eqb_eq in Hlen.
    split; [cbn; lia|]. intros m. split; [by intros ?%elem_of_nil|].
    intros (a & indices & stored & [= <-] & Hp & _).
    apply parseSelection_bounds in Hp as [Hne Hall].
    destruct indices as [|i l]; [done|].
    apply Forall_cons in Hall as [? _]. lia. }
  destruct (parseSelection (selection node) _) as [[[|i rest]|]|e] eqn:Hp.
  - split; [cbn; lia|]. intros m. split; [by intros ?%elem_of_nil|].
    intros (a & indices & stored & [= <-] & Hp' & _).
    rewrite Hp in Hp'. injection Hp' as <-.
    by apply parseSelection_bounds in Hp as [Hne _].
  - destruct (writeOutput h node _) as [[outputMsg stored]|] eqn:Hout.
    + assert (Hf : forwarded
                (stored ++
                 [Shown (Selected
                           (Z.of_nat (length (JsStr.nth inputArray
                                                <$> i :: rest)))
                           (Z.of_nat (length inputArray)));
                  Forward outputMsg; ResetLater 2000]) = [outputMsg]).
      { unfold forwarded. rewrite omap_app.
        fold (forwarded stored). by rewrite (Hw _ _ _ Hout). }
      rewrite Hf. split; [cbn; lia|]. intros m.
      rewrite list_elem_of_singleton. split.
      * intros ->. by exists inputArray, (i :: rest), stored.
      * intros (a & indices & stored' & [= <-] & Hp' & Hout').
        rewrite Hp in Hp'. injection Hp' as <-.
        rewrite Hout in Hout'. by injection Hout' as <- _.
    + split; [cbn; lia|]. intros m. split; [by intros ?%elem_of_nil|].
      intros (a & indices & stored & [= <-] & Hp' & Hout').
      rewrite Hp in Hp'. injection Hp' as <-. by rewrite Hout in Hout'.
  - split; [cbn; lia|]. intros m. split; [by intros ?%elem_of_nil|].
    intros (a & indices & stored & [= <-] & Hp' & _).
    by rewrite Hp in Hp'.
  - split; [cbn; lia|]. intros m. split; [by intros ?%elem_of_nil|].
    intros (a & indices & stored & [= <-] & Hp' & _).
    by rewrite Hp in Hp'.
Qed.

(** X5.  The result of an accepted selection is made of elements of the input
    array, one per index and in the order of the indices.  One index
    gives the element itself unless the node is configured to always
    return an array; several indices, or that configuration, give the
    array of the elements. *)
Theorem selector_result_shape node inputArray indices :
  parseSelection (selection node) (Z.of_nat (length inputArray))
    = Ok (Some indices) ->
  let selectedItems := JsStr.nth inputArray <$> indices in
  Forall2 (fun i v => inputArray !! Z.to_nat i = Some v) indices selectedItems
  /\ (asArray node = false ->
      forall i, indices = [i] ->
        inputArray !! Z.to_nat i = Some (shape node selectedItems))
  /\ (asArray node = true \/ (2 <= length indices)%nat ->
      shape node selectedItems = JArr selectedItems).
Proof.
  intros Hp selectedItems.
  apply parseSelection_bounds in Hp as [Hne Hall].
  split_and!.
  - unfold selectedItems. apply Forall2_fmap_r, Forall_Forall2_diag.
    eapply Forall_impl; [exact Hall|]. intros i Hi. by apply nth_elem.
  - intros Has i ->. unfold shape, selectedItems. rewrite Has. cbn.
    apply Forall_cons in Hall as [Hi _].
    rewrite (nth_elem _ _ Hi). unfold JsStr.nth at 1. cbn. done.
  - intros Hor. unfold shape.
    destruct (asArray node); [done|]. destruct Hor as [|Hlen]; [done|].
    unfold selectedItems. rewrite length_fmap. cbn.
    destruct (1 <? Z.of_nat (length indices)) eqn:E; [done|].
    apply Z.ltb_ge in E. lia.
Qed.

End ArraySelectFacts.

(** ** The metrics key *)

Module NodeUtilsFacts.
Import NodeUtils NodeUtilsSpec.

Lemma keyChar_not_underscore a : isKeyChar a = true -> Ascii.eqb a "_" = false.
Proof.
  intros H. destruct (Ascii.eqb a "_") eqn:E; [|done].
  apply Ascii.eqb_eq in E. subst a. discriminate.
Qed.

Lemma all_underscoreRuns s : forall b,
  JsStr.all isKeyOrUnderscore (underscoreRuns b s) = true.
Proof.
  induction s as [|a r IH]; intros b; cbn; [done|].
  destruct (isKeyChar a) eqn:E.
  - cbn. unfold isKeyOrUnderscore at 1. by rewrite E, IH.
  - destruct b; [apply IH|]. cbn. by rewrite IH.
Qed.

Lemma single_underscoreRuns s : forall b,
  hasDoubleUnderscore (underscoreRuns b s) = false
  /\ (b = true -> startsWithUnderscore (underscoreRuns b s) = false).
Proof.
  induction s as [|a r IH]; intros b; cbn; [done|].
  destruct (isKeyChar a) eqn:E.
  - cbn. rewrite (keyChar_not_underscore a E). cbn.
    split; [apply IH|done].
  - destruct b; [apply IH|]. cbn.
    destruct (IH true) as [-> ->]; done.
Qed.

Lemma all_dropLeading p s :
  JsStr.all p s = true -> JsStr.all p (dropLeading s) = true.
Proof.
  induction s as [|a r IH]; cbn; [done|].
  intros [Ha Hr]%andb_true_iff. destruct (Ascii.eqb a "_"); [by apply IH|].
  cbn. by rewrite Ha, Hr.
Qed.

Lemma single_dropLeading s :
  hasDoubleUnderscore s = false -> hasDoubleUnderscore (dropLeading s) = false.
Proof.
  induction s as [|a r IH]; cbn; [done|].
  intros [H1 H2]%orb_false_iff. destruct (Ascii.eqb a "_") eqn:E; [by apply IH|].
  cbn. by rewrite E, H2.
Qed.

Lemma starts_dropLeading s : startsWithUnderscore (dropLeading s) = false.
Proof.
  induction s as [|a r IH]; cbn; [done|].
  destruct (Ascii.eqb a "_") eqn:E; [exact IH|]. cbn. exact E.
Qed.

Lemma all_dropTrailing p s :
  JsStr.all p s = true -> JsStr.all p (dropTrailing s) = true.
Proof.
  induction s as [|a r IH]; cbn; [done|].
  intros [Ha Hr]%andb_true_iff.
  destruct (Ascii.eqb a "_" && String.eqb (dropTrailing r) ""); [done|].
  cbn. by rewrite Ha, IH.
Qed.

Lemma starts_dropTrailing s :
  startsWithUnderscore s = false ->
  startsWithUnderscore (dropTrailing s) = false.
Proof.
  destruct s as [|a r]; cbn; [done|]. intros E. by rewrite E.
Qed.

Lemma starts_dropTrailing_le s :
  startsWithUnderscore (dropTrailing s) = true ->
  startsWithUnderscore s = true.
Proof.
  destruct s as [|a r]; cbn; [done|].
  destruct (Ascii.eqb a "_" && String.eqb (dropTrailing r) ""); [done|].
  done.
Qed.

Lemma single_dropTrailing s :
  hasDoubleUnderscore s = false ->
  hasDoubleUnderscore (dropTrailing s) = false.
Proof.
  induction s as [|a r IH]; cbn; [done|].
  intros [H1 H2]%orb_false_iff.
  destruct (Ascii.eqb a "_" && String.eqb (dropTrailing r) ""); [done|].
  cbn. rewrite (IH H2), orb_false_r.
  destruct (Ascii.eqb a "_"); [|done]. cbn in *.
  destruct (startsWithUnderscore (dropTrailing r)) eqn:E; [|done].
  apply starts_dropTrailing_le in E. congruence.
Qed.

Lemma ends_dropTrailing s : endsWithUnderscore (dropTrailing s) = false.
Proof.
  induction s as [|a r IH]; cbn; [done|].
  destruct (Ascii.eqb a "_" && String.eqb (dropTrailing r) "") eqn:E; [done|].
  cbn. destruct (dropTrailing r) as [|b r'] eqn:E'; [|exact IH].
  cbn in E. by rewrite andb_true_r in E.
Qed.

Lemma getPerformanceKey_isKey node : isKey (getPerformanceKey node) = true.
Proof.
  unfold getPerformanceKey.
  set (t := JsStr.toLowerCase _). cbn zeta.
  set (key := dropTrailing (dropLeading (underscoreRuns false t))).
  destruct (String.eqb key "") eqn:E; [reflexivity|].
  unfold isKey. rewrite E. cbn.
  destruct (single_underscoreRuns t false) as [Hs _].
  unfold key.
  rewrite all_dropTrailing by apply all_dropLeading, all_underscoreRuns.
  rewrite starts_dropTrailing by apply starts_dropLeading.
  rewrite ends_dropTrailing.
  by rewrite single_dropTrailing by by apply single_dropLeading.
Qed.

(** X19.  The metrics key is always usable as one segment of a property path:
    whatever the node's name and type are, the key is not empty, holds
    lower-case letters, digits and underscores only (so no dot), and has
    no underscore at either end and no two in a row. *)
Theorem performance_key_is_well_formed node :
  isKey (getPerformanceKey node) = true.
Proof. apply getPerformanceKey_isKey. Qed.

(** *** Keys are fixed points *)

Lemma revString_revString s : forall a b,
  Js.revString a (Js.revString b s) = Js.revString (s +:+ a) b.
Proof.
  induction s as [|c r IH]; intros a b; [done|].
  cbn [Js.revString]. by rewrite IH.
Qed.

Lemma app_empty_r (s : string) : s +:+ "" = s.
Proof.
  induction s as [|c r IH]; [done|].
  change (String c r +:+ "") with (String c (r +:+ "")). by rewrite IH.
Qed.

Lemma all_revString p s : forall acc,
  JsStr.all p (Js.revString acc s) = JsStr.all p acc && JsStr.all p s.
Proof.
  induction s as [|c r IH]; intros acc; cbn; [by rewrite andb_true_r|].
  rewrite IH. cbn. destruct (p c), (JsStr.all p acc), (JsStr.all p r); done.
Qed.

Lemma skipWhite_plain backwards s :
  JsStr.all (fun a => negb (Js.isWhite a) && (Js.byte a <? 128)) s = true ->
  Js.skipWhite backwards s = s.
Proof.
  destruct s as [|a r]; cbn [JsStr.all Js.skipWhite]; [done|].
  intros [[Ha Hb]%andb_true_iff Hr]%andb_true_iff.
  apply negb_true_iff in Ha. apply Z.ltb_lt in Hb. rewrite Ha.
  destruct r as [|b r2]; [done|].
  assert (H2 : (if backwards then Js.isWhite2 b a else Js.isWhite2 a b)
               = false).
  { unfold Js.isWhite2. destruct backwards.
    - apply andb_false_iff. right. apply Z.eqb_neq. lia.
    - apply andb_false_iff. left. apply Z.eqb_neq. lia. }
  rewrite H2. destruct r2 as [|c r3]; [done|].
  assert (H3 : (if backwards then Js.isWhite3 c b a else Js.isWhite3 a b c)
               = false).
  { unfold Js.isWhite3. destruct backwards.
    - replace (Js.byte a =? 128) with false by (symmetry; apply Z.eqb_neq; lia).
      replace (Js.byte a =? 159) with false by (symmetry; apply Z.eqb_neq; lia).
      replace (Js.byte a =? 191) with false by (symmetry; apply Z.eqb_neq; lia).
      replace (Js.byte a =? 168) with false by (symmetry; apply Z.eqb_neq; lia).
      replace (Js.byte a =? 169) with false by (symmetry; apply Z.eqb_neq; lia).
      replace (Js.byte a =? 175) with false by (symmetry; apply Z.eqb_neq; lia).
      replace (128 <=? Js.byte a) with false by (symmetry; apply Z.leb_gt; lia).
      by rewrite !andb_false_r.
    - replace (Js.byte a =? 225) with false by (symmetry; apply Z.eqb_neq; lia).
      replace (Js.byte a =? 226) with false by (symmetry; apply Z.eqb_neq; lia).
      replace (Js.byte a =? 227) with false by (symmetry; apply Z.eqb_neq; lia).
      replace (Js.byte a =? 239) with false by (symmetry; apply Z.eqb_neq; lia).
      done. }
  by rewrite H3.
Qed.

Lemma trim_plain s :
  JsStr.all (fun a => negb (Js.isWhite a) && (Js.byte a <? 128)) s = true ->
  Js.trim s = s.
Proof.
  intros H. unfold Js.trim, Js.trimStart. rewrite (skipWhite_plain false s H).
  rewrite skipWhite_plain by (by rewrite all_revString).
  rewrite revString_revString. cbn. apply app_empty_r.
Qed.

Lemma all_impl (p q : ascii -> bool) s :
  (forall a, p a = true -> q a = true) ->
  JsStr.all p s = true -> JsStr.all q s = true.
Proof.
  intros Hpq. induction s as [|a r IH]; cbn; [done|].
  intros [Ha Hr]%andb_true_iff. by rewrite (Hpq a Ha), IH.
Qed.

Lemma keyOrUnderscore_code a :
  isKeyOrUnderscore a = true ->
  97 <= JsStr.code a <= 122 \/ 48 <= JsStr.code a <= 57 \/ JsStr.code a = 95.
Proof.
  unfold isKeyOrUnderscore, isKeyChar. cbn zeta.
  intros [[H|H]%orb_true_iff|H]%orb_true_iff.
  - apply andb_true_iff in H as [?%Z.leb_le ?%Z.leb_le]. lia.
  - apply andb_true_iff in H as [?%Z.leb_le ?%Z.leb_le]. lia.
  - apply Ascii.eqb_eq in H. subst a. by right; right.
Qed.

Lemma toLowerCase_key s :
  JsStr.all isKeyOrUnderscore s = true -> JsStr.toLowerCase s = s.
Proof.
  induction s as [|a r IH]; cbn; [done|].
  intros [Ha Hr]%andb_true_iff. rewrite (IH Hr). f_equal.
  apply keyOrUnderscore_code in Ha. unfold JsStr.lowerChar.
  destruct ((65 <=? JsStr.code a) && (JsStr.code a <=? 90)) eqn:E; [|done].
  apply andb_true_iff in E as [?%Z.leb_le ?%Z.leb_le]. lia.
Qed.

Lemma underscoreRuns_key s : forall b,
  JsStr.all isKeyOrUnderscore s = true ->
  hasDoubleUnderscore s = false ->
  (b = true -> startsWithUnderscore s = false) ->
  underscoreRuns b s = s.
Proof.
  induction s as [|a r IH]; intros b; cbn; [done|].
  intros [Ha Hr]%andb_true_iff [H1 H2]%orb_false_iff Hb.
  destruct (isKeyChar a) eqn:E.
  - f_equal. by apply IH.
  - unfold isKeyOrUnderscore in Ha. rewrite E in Ha. cbn in Ha.
    rewrite Ha in H1. cbn in H1.
    destruct b; [by rewrite Hb in Ha|].
    apply Ascii.eqb_eq in Ha. subst a. f_equal. by apply IH.
Qed.

Lemma dropLeading_key s : startsWithUnderscore s = false -> dropLeading s = s.
Proof. destruct s as [|a r]; cbn; [done|]. by intros ->. Qed.

Lemma dropTrailing_key s : endsWithUnderscore s = false -> dropTrailing s = s.
Proof.
  induction s as [|a r IH]; cbn; [done|].
  destruct r as [|b r'].
  - cbn. intros ->. done.
  - intros H. rewrite (IH H). by rewrite andb_false_r.
Qed.

Lemma key_fixed k :
  isKey k = true -> getPerformanceKey (JObj [("name", JStr k)]) = k.
Proof.
  unfold isKey.
  intros [[[[Hne Hall]%andb_true_iff Hst]%andb_true_iff Hen]%andb_true_iff
            Hdb]%andb_true_iff.
  apply negb_true_iff in Hne, Hst, Hen, Hdb.
  assert (Htrim : Js.trim k = k).
  { apply trim_plain. eapply all_impl; [|exact Hall].
    intros a Ha. apply keyOrUnderscore_code in Ha.
    unfold Js.isWhite, Js.byte. cbn zeta. fold (JsStr.code a).
    apply andb_true_iff. split; [|apply Z.ltb_lt; lia].
    apply negb_true_iff, orb_false_iff. split.
    - apply andb_false_iff.
      destruct (9 <=? JsStr.code a) eqn:E1; [right|by left].
      apply Z.leb_gt. apply Z.leb_le in E1. lia.
    - apply Z.eqb_neq. lia. }
  assert (Htr : Js.truthy (JStr k) = true) by (cbn; by rewrite Hne).
  unfold getPerformanceKey. cbn [Js.truthy Js.getProp Js.assocGet].
  change (String.eqb "name" "name") with true. cbn [default id Js.ToString].
  rewrite !Htr, !Htrim, !Htr. cbn [Js.ToString]. rewrite Htrim.
  rewrite (toLowerCase_key k Hall).
  rewrite (underscoreRuns_key k false Hall Hdb) by done.
  rewrite (dropLeading_key k Hst), (dropTrailing_key k Hen).
  by rewrite Hne.
Qed.

(** X20.  Normalising is idempotent: a node named by a metrics key has that
    key, so the key of a node whose name is another node's key is the
    same key. *)
Theorem performance_key_is_idempotent node :
  getPerformanceKey (JObj [("name", JStr (getPerformanceKey node))])
  = getPerformanceKey node.
Proof. apply key_fixed, getPerformanceKey_isKey. Qed.

End NodeUtilsFacts.

(** ** File sink: extensions and file names *)

Module SaveFileFacts.
Import SaveFile SaveFileSpec.

(** X23.  The default extension of what an extension stands for stands for the
    same: when [mapExtension] knows an extension, the type it gives is one
    the handler writes, and the default extension of that type (and
    image format) is mapped to the same type and format again. *)
Theorem extension_round_trip ext type format :
  mapExtension ext = Some (type, format) ->
  type ∈ supportedTypes
  /\ defaultExtension type (default "" format) <> ""%string
  /\ mapExtension (defaultExtension type (default "" format))
     = Some (type, format).
Proof.
  unfold mapExtension. destruct (String.eqb ext ""); [done|]. cbn zeta.
  repeat case_match; intros [= <- <-]; (split; [set_solver|by split]).
Qed.

Lemma firstFree_cons fileExists join folderPath f names :
  firstFree fileExists join folderPath (f :: names)
  = if fileExists (join folderPath f)
    then firstFree fileExists join folderPath names
    else Some f.
Proof.
  unfold firstFree. rewrite filter_cons.
  destruct (fileExists (join folderPath f)) eqn:E.
  - by rewrite decide_False by done.
  - by rewrite decide_True by done.
Qed.

Lemma probe_spec fileExists join folderPath baseName extension fuel :
  forall filename counter,
    2 <= counter <= 1000 ->
    1001 - counter <= Z.of_nat fuel ->
    probe fileExists join fuel folderPath baseName extension filename counter
    = match firstFree fileExists join folderPath
              (filename :: (variant baseName extension
                              <$> seqZ counter (1000 - counter))) with
      | Some f => Ok f
      | None => Throw (HostError
                         "Too many file variations exist in target folder.")
      end.
Proof.
  induction fuel as [|fuel IH]; intros filename counter Hc Hf; [lia|].
  cbn [probe]. rewrite firstFree_cons.
  destruct (fileExists (join folderPath filename)); [|done].
  destruct (1000 <? counter + 1) eqn:E.
  - apply Z.ltb_lt in E. assert (counter = 1000) as -> by lia. done.
  - apply Z.ltb_ge in E. rewrite IH by lia.
    rewrite (seqZ_cons counter) by lia. cbn [fmap list_fmap].
    by replace (Z.pred (1000 - counter)) with (1000 - (counter + 1)) by lia.
Qed.

(** X24.  With overwrite protection the handler writes to the first name, among
    the plain name and its variants numbered 2 to 999, for which no file
    exists; so it never writes over an existing file.  When all 999 names
    are taken it fails, and the variant numbered 1000 is not tried. *)
Theorem overwrite_protection fileExists join folderPath baseName extension :
  chooseName fileExists join folderPath baseName extension true
  = match firstFree fileExists join folderPath
            (candidates baseName extension) with
    | Some f => Ok f
    | None => Throw (HostError
                       "Too many file variations exist in target folder.")
    end
  /\ forall f,
       chooseName fileExists join folderPath baseName extension true = Ok f ->
       f ∈ candidates baseName extension
       /\ fileExists (join folderPath f) = false.
Proof.
  assert (Heq : chooseName fileExists join folderPath baseName extension true
    = match firstFree fileExists join folderPath
              (candidates baseName extension) with
      | Some f => Ok f
      | None => Throw (HostError
                         "Too many file variations exist in target folder.")
      end).
  { unfold chooseName. cbn zeta. rewrite probe_spec by lia. reflexivity. }
  split; [exact Heq|]. intros f. rewrite Heq.
  destruct (firstFree _ _ _ _) as [f'|] eqn:E; [|done]. intros [= ->].
  unfold firstFree in E. apply head_Some_elem_of in E.
  apply list_elem_of_filter in E as [Hfree Hin]. done.
Qed.

End SaveFileFacts.

(** ** Event-loop watchdog *)

Module BlockDetectFacts.
Import BlockDetect BlockDetectSpec.

Lemma statusOf_not_warn cfg st :
  match statusOf cfg st with Warn _ => false | _ => true end = true.
Proof. unfold statusOf. by repeat case_match. Qed.

(** What a tick does to the alert bookkeeping. *)
Lemma tick_cases cfg env s :
  let over := geq (max (tick cfg env s).1.1) (thresholdMs cfg) in
  let count := if over then overThresholdCount s + 1 else 0 in
  let s' := (tick cfg env s).1.2 in
  let o := (tick cfg env s).2 in
  (exists st, o = [statusOf cfg st; Warn st]
              /\ consecutive cfg <= count
              /\ geq (inject_Z (dateNow env - lastAlertAt s)) (cooldownMs cfg)
                 = true
              /\ overThresholdCount s' = 0
              /\ lastAlertAt s' = dateNow env)
  \/ (exists st, o = [statusOf cfg st]
                 /\ lastAlertAt s' = lastAlertAt s
                 /\ ((consecutive cfg <= count /\ overThresholdCount s' = 0)
                     \/ (count < consecutive cfg
                         /\ overThresholdCount s' = count))).
Proof.
  unfold tick.
  destruct (if monitorAvailable cfg
            then (readHistogramStats cfg env, fallbackPrev s)
            else readFallbackStats cfg env s) as [st prev].
  cbn zeta.
  set (count := if geq (max st) (thresholdMs cfg)
                then overThresholdCount s + 1 else 0).
  destruct (consecutive cfg <=? count) eqn:E.
  - apply Z.leb_le in E.
    destruct (geq (inject_Z (dateNow env - lastAlertAt s)) (cooldownMs cfg))
      eqn:Hc; cbn [fst snd].
    + left. exists st. by split_and!.
    + right. exists st. split_and!; try done. by left.
  - apply Z.leb_gt in E. cbn [fst snd]. right. exists st.
    split_and!; try done. by right.
Qed.

Lemma alerted_iff cfg env s :
  existsb (fun o => match o with Warn _ => true | _ => false end)
    (tick cfg env s).2 = true ->
  geq (inject_Z (dateNow env - lastAlertAt s)) (cooldownMs cfg) = true
  /\ lastAlertAt (tick cfg env s).1.2 = dateNow env
  /\ consecutive cfg
     <= (if geq (max (tick cfg env s).1.1) (thresholdMs cfg)
         then overThresholdCount s + 1 else 0).
Proof.
  destruct (tick_cases cfg env s)
    as [(st & -> & Hc & Hg & _ & Hl)|(st & -> & _)].
  - done.
  - cbn. pose proof (statusOf_not_warn cfg st) as H.
    destruct (statusOf cfg st); done.
Qed.

Lemma quiet_keeps cfg env s :
  existsb (fun o => match o with Warn _ => true | _ => false end)
    (tick cfg env s).2 = false ->
  lastAlertAt (tick cfg env s).1.2 = lastAlertAt s.
Proof.
  destruct (tick_cases cfg env s)
    as [(st & -> & _)|(st & _ & Hl & _)]; [|done].
  cbn. by rewrite orb_true_r.
Qed.

(** *** The cooldown *)

Lemma run_cooldown cfg envs : forall s,
  (forall first, head (alertTimes (run cfg envs s).2) = Some first ->
     geq (inject_Z (first - lastAlertAt s)) (cooldownMs cfg) = true)
  /\ forall i a b,
       alertTimes (run cfg envs s).2 !! i = Some a ->
       alertTimes (run cfg envs s).2 !! S i = Some b ->
       geq (inject_Z (b - a)) (cooldownMs cfg) = true.
Proof.
  induction envs as [|env envs IH]; intros s; cbn [run]; [done|].
  pose proof (alerted_iff cfg env s) as Ha.
  pose proof (quiet_keeps cfg env s) as Hq.
  destruct (tick cfg env s) as [[st s1] o]. cbn [fst snd] in Ha, Hq.
  destruct (IH s1) as [IH1 IH2].
  destruct (run cfg envs s1) as [s2 log]. cbn [fst snd] in *.
  set (entry := {| stats := st; at_ := dateNow env; outs := o |}).
  change (existsb _ o) with (alerted entry) in Ha, Hq.
  unfold alertTimes. rewrite filter_cons.
  destruct (decide (alerted entry = true)) as [E|E].
  - cbn [fmap list_fmap at_ entry].
    destruct (Ha E) as (Hg & Hl & _). split.
    + by intros first [= <-].
    + intros [|i] a b; cbn.
      * intros [= <-] Hb. rewrite <- Hl. apply IH1.
        unfold alertTimes. by rewrite head_lookup.
      * apply IH2.
  - apply not_true_is_false in E. rewrite <- (Hq E). by split.
Qed.

(** X25.  Two warnings in a row are at least [cooldownMs] apart, whatever the
    readings are. *)
Theorem alerts_respect_cooldown cfg envs t0 i a b :
  alertTimes (run cfg envs (initial t0)).2 !! i = Some a ->
  alertTimes (run cfg envs (initial t0)).2 !! S i = Some b ->
  (cooldownMs cfg <= inject_Z (b - a))%Q.
Proof.
  intros Ha Hb. apply Qle_bool_iff.
  by apply (proj2 (run_cooldown cfg envs (initial t0)) i a b).
Qed.

(** *** The run of readings before a warning *)

Lemma run_streak cfg envs : forall s (history : list Entry),
  1 <= consecutive cfg ->
  0 <= overThresholdCount s < consecutive cfg ->
  overThresholdCount s <= Z.of_nat (length history) ->
  (forall j, Z.of_nat (length history) - overThresholdCount s <= Z.of_nat j
             < Z.of_nat (length history) ->
     exists ej, history !! j = Some ej /\ overThreshold cfg ej = true) ->
  forall i e,
    (length history <= i)%nat ->
    (history ++ (run cfg envs s).2) !! i = Some e ->
    alerted e = true ->
    consecutive cfg <= Z.of_nat i + 1
    /\ forall j, Z.of_nat i + 1 - consecutive cfg <= Z.of_nat j <= Z.of_nat i ->
         exists ej, (history ++ (run cfg envs s).2) !! j = Some ej
                    /\ overThreshold cfg ej = true.
Proof.
  induction envs as [|env envs IH];
    intros s history Hcons Hcount Hlen Hhist i e Hi.
  { cbn [run snd]. rewrite app_nil_r. intros He.
    apply lookup_lt_Some in He. lia. }
  cbn [run].
  pose proof (tick_cases cfg env s) as Hcases.
  pose proof (alerted_iff cfg env s) as Ha.
  destruct (tick cfg env s) as [[st s1] o] eqn:Htick. cbn [fst snd] in *.
  set (entry := {| stats := st; at_ := dateNow env; outs := o |}).
  set (count := if geq (max st) (thresholdMs cfg)
                then overThresholdCount s + 1 else 0) in *.
  assert (Hover : 0 < count -> overThreshold cfg entry = true
                               /\ count = overThresholdCount s + 1).
  { unfold count, overThreshold. cbn [stats entry].
    destruct (geq (max st) (thresholdMs cfg)); [done|lia]. }
  assert (Hcount_le : count <= consecutive cfg).
  { unfold count. destruct (geq _ _); lia. }
  (* the readings that end with this tick *)
  assert (Hnew : forall j,
    Z.of_nat (length history) + 1 - count <= Z.of_nat j
    < Z.of_nat (length history) + 1 ->
    exists ej, (history ++ [entry]) !! j = Some ej
               /\ overThreshold cfg ej = true).
  { intros j Hj.
    destruct (decide (j = length history)) as [->|Hne].
    - exists entry. split.
      + rewrite lookup_app_r by lia. by rewrite Nat.sub_diag.
      + apply Hover. lia.
    - assert (0 < count) as Hpos by lia.
      destruct (Hover Hpos) as [_ Hc].
      destruct (Hhist j) as (ej & Hej & Ho); [lia|].
      exists ej. split; [|done]. by apply lookup_app_l_Some. }
  assert (Hcount1 : 0 <= overThresholdCount s1 < consecutive cfg
                    /\ overThresholdCount s1 <= count).
  { assert (0 <= count) by (unfold count; destruct (geq _ _); lia).
    destruct Hcases as [(st' & _ & _ & _ & -> & _)
                       |(st' & _ & _ & [[_ ->]|[? ->]])]; lia. }
  destruct (run cfg envs s1) as [s2 log] eqn:Hrun. cbn [snd].
  change (history ++ entry :: log) with (history ++ [entry] ++ log).
  rewrite app_assoc.
  destruct (decide (i = length history)) as [->|Hne].
  - rewrite lookup_app_l by (rewrite length_app; cbn; lia).
    rewrite lookup_app_r by lia. rewrite Nat.sub_diag. cbn.
    intros [= <-] Hal. unfold alerted in Hal. cbn [outs entry] in Hal.
    destruct (Ha Hal) as (_ & _ & Hge).
    assert (count = consecutive cfg) as Heq by lia.
    split; [lia|]. intros j Hj.
    destruct (Hnew j) as (ej & Hej & Ho); [lia|].
    exists ej. split; [|done]. by apply lookup_app_l_Some.
  - intros He Hal.
    assert (Hlen1 : overThresholdCount s1
                    <= Z.of_nat (length (history ++ [entry]))).
    { rewrite length_app. cbn. unfold count in Hcount1.
      destruct (geq _ _); lia. }
    pose proof (IH s1 (history ++ [entry]) Hcons (proj1 Hcount1) Hlen1) as IH'.
    rewrite Hrun in IH'. cbn [snd] in IH'.
    apply (IH' ltac:(
      intros j Hj; rewrite length_app in Hj; cbn in Hj;
      apply Hnew; lia) i e); try done.
    rewrite length_app. cbn. lia.
Qed.

(** X26.  A warning comes only at the end of [consecutive] readings in a row
    that reached the threshold: when the tick number [i] warns, at least
    [consecutive] ticks have run, and each of the last [consecutive]
    readings, this one included, reached [thresholdMs]. *)
Theorem alert_needs_consecutive_readings cfg envs t0 i e :
  1 <= consecutive cfg ->
  (run cfg envs (initial t0)).2 !! i = Some e ->
  alerted e = true ->
  consecutive cfg <= Z.of_nat i + 1
  /\ forall j, Z.of_nat i + 1 - consecutive cfg <= Z.of_nat j <= Z.of_nat i ->
       exists ej, (run cfg envs (initial t0)).2 !! j = Some ej
                  /\ overThreshold cfg ej = true.
Proof.
  intros Hcons He Hal.
  pose proof (run_streak cfg envs (initial t0) [] Hcons) as H.
  cbn [initial overThresholdCount length app] in H.
  apply (H ltac:(lia) ltac:(lia) ltac:(intros; lia) i e); [lia|done|done].
Qed.

(** *** The colour of the status *)

Lemma statusOf_fill cfg st :
  alert st = geq (max st) (thresholdMs cfg) ->
  exists fill shape text,
    statusOf cfg st = Status fill shape text
    /\ (fill = "red"%string \/ fill = "green"%string).
Proof.
  intros Hal. unfold statusOf. rewrite Hal.
  destruct (showStats cfg), (geq (max st) (thresholdMs cfg)); eauto 10.
Qed.

Lemma tick_fill cfg env s :
  Forall (fun fill => fill = "red"%string \/ fill = "green"%string)
    (omap (fun o => match o with
                    | Status fill _ _ => Some fill
                    | _ => None
                    end) (tick cfg env s).2).
Proof.
  unfold tick.
  assert (Hal : alert (if monitorAvailable cfg
                       then (readHistogramStats cfg env, fallbackPrev s)
                       else readFallbackStats cfg env s).1
                = geq (max (if monitorAvailable cfg
                            then (readHistogramStats cfg env, fallbackPrev s)
                            else readFallbackStats cfg env s).1)
                      (thresholdMs cfg)).
  { by destruct (monitorAvailable cfg). }
  destruct (if monitorAvailable cfg
            then (readHistogramStats cfg env, fallbackPrev s)
            else readFallbackStats cfg env s) as [st prev].
  cbn [fst] in Hal. cbn zeta.
  destruct (statusOf_fill cfg st Hal) as (fill & shape & text & Hs & Hf).
  repeat case_match; cbn [snd omap]; rewrite Hs;
    cbn;
    repeat (apply Forall_cons_2; [exact Hf|]); apply Forall_nil_2.
Qed.

(** X27.  The status is red when the reading reached the threshold and green
    otherwise: both implementations of the reading set [alert] by the
    very comparison the status makes, so the yellow status is never
    shown. *)
Theorem status_is_red_or_green cfg envs s :
  Forall (fun fill => fill = "red"%string \/ fill = "green"%string)
    (fills (run cfg envs s).2).
Proof.
  revert s. induction envs as [|env envs IH]; intros s; cbn [run].
  { constructor. }
  pose proof (tick_fill cfg env s) as Ht.
  destruct (tick cfg env s) as [[st s1] o]. cbn [snd] in Ht.
  specialize (IH s1). destruct (run cfg envs s1) as [s2 log].
  cbn [snd] in *. unfold fills in *. cbn [mbind list_bind].
  apply Forall_app. by split.
Qed.

End BlockDetectFacts.

(** ** Scenarios

    The theorems above at concrete inputs, and the inputs at which the
    code departs from the wording of the specification. *)

Module Scenarios.
Import Timers Scenario.

Example parseInt_hex : Js.parseInt None (JStr "  0x1F") = Some 31.
Proof. reflexivity. Qed.
Example parseInt_prefix : Js.parseInt None (JStr "12abc") = Some 12.
Proof. reflexivity. Qed.
Example parseInt_nan : Js.parseInt None (JStr "abc") = None.
Proof. reflexivity. Qed.
Example parseInt_neg : Js.parseInt None (JNum (-7)) = Some (-7).
Proof. reflexivity. Qed.
Example parseInt_radix10 : Js.parseInt (Some 10) (JStr "0x1F") = Some 0.
Proof. reflexivity. Qed.
Example trim_example : Js.trim "  payload " = "payload"%string.
Proof. reflexivity. Qed.

(** The scenario of the specification: positions 1 and 0 arrive, the
    timer fires at t = 1000. *)
Example timeout_scenario :
  sentOn secondary
    (ArrayOut.run host cfg3
       (ArrayOutSpec.inputs items2 ++ [(ArrayOut.EFire 1%nat, 1000)])
       ArrayOut.initial).2
  = [JObj
       [("meta",
         JObj [("timeout", JBool true); ("missingPositions", JArr [JNum 2]);
               ("collectedPositions", JArr [JNum 0; JNum 1]);
               ("expectedCount", JNum 3); ("collectedCount", JNum 2);
               ("elapsed", JNum 1000)]);
        ("payload", JArr [JStr "a"; JStr "b"; JNull])]].
Proof. vm_compute. reflexivity. Qed.

Example completion_scenario :
  sentOn primary
    (ArrayOut.run host cfg3 (ArrayOutSpec.inputs items3) ArrayOut.initial).2
  = [JObj
       [("meta", JObj [("arrayPosition", JNum 2); ("arrayData", JStr "c")]);
        ("payload", JArr [JStr "a"; JStr "b"; JStr "c"])]].
Proof. vm_compute. reflexivity. Qed.

Example tagger_literal :
  ArrayIn.input host (ArrayIn.create "" "" "" (JNum 2))
    (JObj [("payload", JStr "x")])
  = [Status (StPosition 2);
     Send primary
       (JObj [("payload", JStr "x");
              ("meta", JObj [("arrayPosition", JNum 2);
                             ("arrayData", JStr "x")])])].
Proof. vm_compute. reflexivity. Qed.

Example tagger_lookup :
  sentOn primary
    (ArrayIn.input host (ArrayIn.create "" "" "msg" (JStr "index"))
       (JObj [("payload", JStr "x"); ("index", JStr "1")]))
  = [JObj [("payload", JStr "x"); ("index", JStr "1");
           ("meta", JObj [("arrayPosition", JNum 1);
                          ("arrayData", JStr "x")])]].
Proof. vm_compute. reflexivity. Qed.

Example tagger_invalid :
  ArrayIn.input host (ArrayIn.create "" "" "num" (JStr "abc"))
    (JObj [("payload", JStr "x")])
  = [Warn (WResolveFailed (InvalidPosition (JStr "abc") (JStr "abc")));
     Status StInvalidPosition].
Proof. vm_compute. reflexivity. Qed.

(** [parseInt] reads the leading integer. *)
Example tagger_prefix :
  ArrayIn.resolveArrayPosition host "num" (JStr "3.7") (JObj []) = Ok 3.
Proof. vm_compute. reflexivity. Qed.

Example tagger_blank :
  ArrayIn.resolveArrayPosition host "num" (JStr "  ") (JObj []) = Ok 0.
Proof. vm_compute. reflexivity. Qed.

(** Age eviction: the entry queued at t = 2 is evicted, with its
    metadata, by the pruning of the enqueue at t = 60. *)
Example eviction_scenario :
  QueueCommon.sentAt secondary
    (QueueCommon.run Queue1.step ageCfg
       [(QueueCommon.EInput (JObj [("payload", JStr "a")]), 1);
        (QueueCommon.EInput (JObj [("payload", JStr "b")]), 2);
        (QueueCommon.EInput (JObj [("payload", JStr "c")]), 60)]
       QueueCommon.initial).2
  = [(60,
      JObj [("payload", JStr "b");
            ("meta", JObj [("queueDropped", JBool true);
                           ("queueDropReason", JStr "timeout");
                           ("queuedDuration", JNum 58);
                           ("queueTimeout", JNum 50)])])].
Proof. vm_compute. reflexivity. Qed.

Example pacing_scenario :
  (fun r => QueueCommon.sentAt primary
              (r.2 ++ (QueueCommon.drain Queue1.step [0; 5; 0] paceCfg 3 r.1).2))
    (QueueCommon.run Queue1.step paceCfg burst QueueCommon.initial)
  = [(1, JObj [("payload", JStr "a")]);
     (101, JObj [("payload", JStr "b")]);
     (206, JObj [("payload", JStr "c")])].
Proof. vm_compute. reflexivity. Qed.

(** A number that is not an integer, and NaN, as property names. *)
Example stray_names :
  Js.ToString (JDec false 5 0) = "0.5"%string
  /\ Js.ToString JNaN = "NaN"%string
  /\ Js.parseInt None (JStr "0.5") = Some 0
  /\ Js.parseInt None (JStr "NaN") = None.
Proof. by vm_compute. Qed.

Lemma host_accepts cfg :
  invalidPath (ArrayOut.outputPath cfg) = false ->
  ArrayOutSpec.hostAccepts host cfg.
Proof.
  intros Hp m r. unfold ArrayOutSpec.placed. cbn. rewrite Hp. cbn.
  by repeat case_match.
Qed.


Lemma collector_completion_witness :
  exists s' outs,
    ArrayOut.run host cfg3 (ArrayOutSpec.inputs items3) ArrayOut.initial
      = (s', outs)
    /\ sentOn primary outs
       = [JObj
            [("meta", JObj [("arrayPosition", JNum 2);
                            ("arrayData", JStr "c")]);
             ("payload", JArr [JStr "a"; JStr "b"; JStr "c"])]]
    /\ sentOn secondary outs = []
    /\ ArrayOutSpec.stored outs = []
    /\ ArrayOutSpec.reported outs = []
    /\ ArrayOut.isCollecting s' = false
    /\ ArrayOut.collection s' = ∅
    /\ ArrayOut.timeoutHandle s' = None
    /\ outstanding ArrayOut.isHandleTimeout (ArrayOut.timers s') = []
    /\ sentOn secondary
         (ArrayOut.run host cfg3 [(ArrayOut.EFire 1%nat, 1000)] s').2 = [].
Proof.
  destruct (ArrayOutFacts.collector_completion host cfg3 []
              ArrayOut.initial items3 [1; 0; 2])
    as (s' & outs & lastMsg & result & m' & o & Hrun & Hlast & Hpl & Hp & Hs
        & Hsto & Hrep & Hlen & Hres & Hc & Hcol & Hstr & Hhd & Hno & Hlater).
  - cbn. unfold ArrayOut.MAX_ARRAY_LENGTH. lia.
  - reflexivity.
  - reflexivity.
  - repeat constructor.
  - change (seqZ 0 (ArrayOut.expectedCount cfg3)) with [0; 1; 2].
    apply perm_swap.
  - by apply host_accepts.
  - exists s', outs. split; [exact Hrun|].
    injection Hlast as <-.
    assert (Hm' : m' = JObj
            [("meta", JObj [("arrayPosition", JNum 2);
                            ("arrayData", JStr "c")]);
             ("payload", JArr [JStr "a"; JStr "b"; JStr "c"])]).
    { vm_compute in Hrun. injection Hrun as _ <-.
      vm_compute in Hp. by injection Hp as <-. }
    assert (Ho : o = []).
    { vm_compute in Hpl. by injection Hpl as _ <-. }
    rewrite Hp, Hm', Hsto, Ho.
    split_and!; try done.
    apply Hlater. repeat constructor. by exists 1%nat.
Defined.


(** C5 at an explicit input: positions that are numbers but not
    integers.  A fresh collector that expects 2 items receives an item
    whose position is NaN: the position is a number, it is neither below
    0 nor at least 2, so the item starts a cycle and is stored under the
    property [NaN] of the collection, a key outside [0, 2); a second
    item, at position 0.5, is stored under the property [0.5].  The
    collection then has 2 properties, the cycle completes, and the array
    sent on the first output is [[null, null]]. *)
Lemma collector_stray_position :
  exists s1 outs1 s2 outs2,
    ArrayOut.input host cfg2
      (JObj [("meta", JObj [("arrayPosition", JNaN);
                            ("arrayData", JStr "x")])]) 0 ArrayOut.initial
      = (Ok tt, s1, outs1)
    /\ outs1 = [Status (StCollecting 1 2); Status (StCollecting 1 2)]
    /\ ArrayOut.isCollecting s1 = true
    /\ ArrayOut.timeoutHandle s1 = Some 1%nat
    /\ ArrayOut.collectionStartTime s1 = Some 0
    /\ ArrayOut.keys (ArrayOut.collection s1) (ArrayOut.strays s1) = ["NaN"]
    /\ ArrayOut.strays s1 = [("NaN", JStr "x")]
    /\ ArrayOut.input host cfg2
         (JObj [("meta", JObj [("arrayPosition", JDec false 5 0);
                               ("arrayData", JStr "y")])]) 10 s1
       = (Ok tt, s2, outs2)
    /\ sentOn primary outs2
       = [JObj [("meta", JObj [("arrayPosition", JDec false 5 0);
                               ("arrayData", JStr "y")]);
                ("payload", JArr [JNull; JNull])]].
Proof.
  eexists _, _, _, _. split; [vm_compute; reflexivity|].
  split_and!; reflexivity.
Qed.

Lemma collector_overwrite_witness :
  exists s1 o1 hd s2 o2,
    ArrayOut.run host cfg3
      (ArrayOutSpec.inputs
         [(ArrayOut.tagged 0 (JStr "a"), 0);
          (ArrayOut.tagged 1 (JStr "b"), 10);
          (ArrayOut.tagged 0 (JStr "c"), 20)]) ArrayOut.initial = (s1, o1)
    /\ (forall ch, sentOn ch o1 = [])
    /\ ArrayOutSpec.reported o1 = []
    /\ ArrayOut.timeoutHandle s1 = Some hd
    /\ ArrayOut.fire host cfg3 hd 1000 s1 = (Ok tt, s2, o2)
    /\ sentOn primary o2 = []
    /\ (exists m', sentOn secondary o2 = [m']
                   /\ Js.getProp m' "payload"
                      = JArr [JStr "c"; JStr "b"; JNull]).
Proof.
  destruct (ArrayOutFacts.collector_overwrite host cfg3 ArrayOut.initial
              [] (ArrayOut.tagged 0 (JStr "a")) 0
              [(ArrayOut.tagged 1 (JStr "b"), 10)]
              (ArrayOut.tagged 0 (JStr "c")) 20 [] 0)
    as (_ & (s1 & o1 & hd & Hrun & Hsil & _ & Hhd & Hfire) & _).
  - cbn. unfold ArrayOut.MAX_ARRAY_LENGTH. lia.
  - apply ArrayOutFacts.initial_Idle.
  - by apply host_accepts.
  - reflexivity.
  - reflexivity.
  - intros it Hit. by apply elem_of_nil in Hit.
  - repeat constructor; eexists; (split; [reflexivity|cbn; lia]).
  - vm_compute. reflexivity.
  - destruct (Hfire 1000)
      as (s2 & o2 & report & result & m' & o & Hf & Hpl & Hp & Hs & _ & _
          & Hres).
    exists s1, o1, hd, s2, o2.
    split; [exact Hrun|]. split; [exact Hsil|].
    vm_compute in Hrun. injection Hrun as <- <-.
    split; [reflexivity|]. split; [exact Hhd|].
    vm_compute in Hhd. injection Hhd as <-.
    split; [exact Hf|]. split; [exact Hp|].
    exists m'. split; [exact Hs|].
    vm_compute in Hf. injection Hf as <- <-.
    vm_compute in Hs. injection Hs as <-. reflexivity.
Defined.

Lemma collector_error_resets_witness :
  failedRun.1.1 = Ok tt
  /\ ArrayOut.collection failedRun.1.2 = ∅
  /\ ArrayOut.strays failedRun.1.2 = []
  /\ ArrayOut.isCollecting failedRun.1.2 = false
  /\ ArrayOut.timeoutHandle failedRun.1.2 = None
  /\ ArrayOut.collectionStartTime failedRun.1.2 = None
  /\ sentOn primary failedRun.2 = [] /\ sentOn secondary failedRun.2 = [].
Proof.
  apply (ArrayOutFacts.collector_error_resets host badCfg
           (ArrayOut.tagged 1 (JStr "b")) 10 halfFull
           failedRun.1.1 failedRun.1.2 failedRun.2
           (HostError "setMessageProperty")).
  - unfold failedRun. by destruct (ArrayOut.input _ _ _ _ _) as [[r s'] o].
  - vm_compute.
    repeat (apply list_elem_of_here || apply list_elem_of_further).
Defined.


(** C7 at an explicit input: with an output path the host rejects, the
    item that fills the last slot fails; the collector was collecting
    with slot 0 filled before the event and is idle with empty slots after
    it. *)
Lemma collector_error_counterexample :
  exists s0 s' outs e,
    (ArrayOut.run host badCfg
       [(ArrayOut.EInput (ArrayOut.tagged 0 (JStr "a")), 0)]
       ArrayOut.initial).1 = s0
    /\ ArrayOut.input host badCfg (ArrayOut.tagged 1 (JStr "b")) 10 s0
       = (Ok tt, s', outs)
    /\ Failed e ∈ outs
    /\ ArrayOut.isCollecting s0 = true
    /\ ArrayOut.collection s0 !! 0 = Some (JStr "a")
    /\ ArrayOut.isCollecting s' = false
    /\ ArrayOut.collection s' !! 0 = None.
Proof.
  eexists _, _, _, (HostError "setMessageProperty").
  split; [reflexivity|]. split; [vm_compute; reflexivity|].
  split; [repeat (apply list_elem_of_here || apply list_elem_of_further)|].
  by vm_compute.
Qed.

(** C8 at an explicit input: after a completed cycle and the first item
    of the next one, the status timer of the first cycle and the timeout
    timer of the second are outstanding together. *)
Lemma collector_two_timers_counterexample :
  exists s outs,
    ArrayOut.run host cfg2
      [(ArrayOut.EInput (ArrayOut.tagged 0 (JStr "a")), 0);
       (ArrayOut.EInput (ArrayOut.tagged 1 (JStr "b")), 1);
       (ArrayOut.EInput (ArrayOut.tagged 0 (JStr "c")), 2)]
      ArrayOut.initial = (s, outs)
    /\ callback <$> pending (ArrayOut.timers s)
       = [ArrayOut.SetStatusReady; ArrayOut.HandleTimeout]
    /\ length (pending (ArrayOut.timers s)) = 2%nat.
Proof. eexists _, _. split; [vm_compute; reflexivity|]. by vm_compute. Qed.

Lemma queue_fifo_interval_witness :
  exists s1 log1 s2 log2,
    QueueCommon.run Queue1.step paceCfg burst QueueCommon.initial = (s1, log1)
    /\ QueueCommon.drain Queue1.step [0; 5; 0] paceCfg
         (QueueSpec.lastTime 0 burst) s1 = (s2, log2)
    /\ snd <$> QueueCommon.sentAt primary (log1 ++ log2)
       = QueueSpec.inputsOf burst
    /\ QueueCommon.sentAt secondary (log1 ++ log2) = []
    /\ QueueSpec.spaced (QueueCommon.intervalMs paceCfg)
         (fst <$> QueueCommon.sentAt primary (log1 ++ log2))
    /\ (forall m t rest, burst = (QueueCommon.EInput m, t) :: rest ->
          head (QueueCommon.sentAt primary (log1 ++ log2)) = Some (t, m))
    /\ QueueCommon.queue s2 = [] /\ QueueCommon.timer s2 = None.
Proof.
  apply (QueueFacts.queue_fifo_interval paceCfg burst [0; 5; 0] Queue1.step).
  - cbn. lia.
  - reflexivity.
  - reflexivity.
  - cbn. lia.
  - repeat constructor; discriminate.
  - cbn. lia.
  - by left.
Defined.

Lemma queue_overflow_drop_witness :
  let s := (QueueCommon.run Queue1.step capCfg
              [(QueueCommon.EInput (JObj [("payload", JStr "a")]), 1);
               (QueueCommon.EInput (JObj [("payload", JStr "b")]), 2)]
              QueueCommon.initial).1 in
  exists m',
    Queue1.input capCfg (JObj [("payload", JStr "c")]) 3 s
    = ((Queue1.pruneExpired capCfg 3 s).1,
       (Queue1.pruneExpired capCfg 3 s).2 ++
       [Warn (WCapacityDropped 1); Send secondary m'; Status (StQueued 1)])
    /\ Js.getProp (Js.getProp m' "meta") "queueDropReason" = JStr "overflow"
    /\ Js.getProp m' "payload" = JStr "c".
Proof.
  cbn zeta.
  destruct (QueueFacts.queue_overflow_drop capCfg
              (QueueCommon.run Queue1.step capCfg
                 [(QueueCommon.EInput (JObj [("payload", JStr "a")]), 1);
                  (QueueCommon.EInput (JObj [("payload", JStr "b")]), 2)]
                 QueueCommon.initial).1
              (JObj [("payload", JStr "c")]) 3)
    as (m' & Hin & _ & Hreason & _ & _ & Hother).
  - reflexivity.
  - by vm_compute.
  - split; [reflexivity|by left].
  - exists m'. split; [exact Hin|]. split; [exact Hreason|].
    by rewrite Hother.
Defined.

(** C10 at an explicit input: at capacity, the first implementation
    sends the rejected message on the secondary channel and the second
    sends nothing. *)
Lemma queue_versions_differ_counterexample :
  exists m,
    QueueCommon.sentAt secondary
      (QueueCommon.run Queue1.step capCfg burst QueueCommon.initial).2
      = [(3, m)]
    /\ Js.getProp (Js.getProp m "meta") "queueDropReason" = JStr "overflow"
    /\ QueueCommon.sentAt secondary
         (QueueCommon.run Queue2.step capCfg burst QueueCommon.initial).2
       = [].
Proof. eexists. split; [vm_compute; reflexivity|]. by vm_compute. Qed.

End Scenarios.

(** ** Scenarios of the further nodes

    The theorems of the further nodes at concrete inputs. *)

Module FurtherScenarios.
Import Timers Scenario Fixture.

Example select_slice :
  ArraySelect.parseSelection (JStr "1:4") 6 = Ok (Some [1; 2; 3]).
Proof. reflexivity. Qed.
Example select_step :
  ArraySelect.parseSelection (JStr "0::2") 5 = Ok (Some [0; 2; 4]).
Proof. reflexivity. Qed.
Example select_from_end :
  ArraySelect.parseSelection (JStr " -1 ") 5 = Ok (Some [4]).
Proof. reflexivity. Qed.
Example select_list :
  ArraySelect.parseSelection (JStr "0, 7,-2,x") 5 = Ok (Some [0; 3]).
Proof. reflexivity. Qed.
(** An end that parses as 0 is replaced by the length. *)
Example select_zero_end :
  ArraySelect.parseSelection (JStr "2:0") 5 = Ok (Some [2; 3; 4]).
Proof. reflexivity. Qed.
Example select_too_many_parts :
  ArraySelect.parseSelection (JStr "1:2:3:4") 5 = Ok None.
Proof. reflexivity. Qed.

Example key_of_name :
  NodeUtils.getPerformanceKey (JObj [("name", JStr "  My Node #1 ")])
  = "my_node_1"%string.
Proof. reflexivity. Qed.
Example key_of_type :
  NodeUtils.getPerformanceKey
    (JObj [("name", JStr ""); ("type", JStr "rp-queue")])
  = "rp_queue"%string.
Proof. reflexivity. Qed.
Example key_of_symbols :
  NodeUtils.getPerformanceKey (JObj [("name", JStr "***")]) = "node"%string.
Proof. reflexivity. Qed.

Lemma selection_indices_in_bounds_witness :
  exists indices,
    ArraySelect.parseSelection (JStr "0, 7,-2,x") 5 = Ok (Some indices)
    /\ Forall (fun i => 0 <= i < 5) indices.
Proof.
  exists [0; 3]. split; [reflexivity|].
  apply (ArraySelectFacts.selection_indices_in_bounds (JStr "0, 7,-2,x") 5
           [0; 3]).
  reflexivity.
Defined.

Lemma selection_range_witness :
  ArraySelect.parseSelection (JStr " -3:5 ") 6 = Ok (Some [3; 4]).
Proof.
  apply (ArraySelectFacts.selection_range " -3:5 " "-3" "5" 6); reflexivity.
Defined.

Lemma selection_step_range_witness :
  0 < 2 /\ ArraySelect.parseSelection (JStr "0::2") 5 = Ok (Some [0; 2; 4]).
Proof.
  apply (ArraySelectFacts.selection_step_range "0::2" "0" "" "2" 5);
    reflexivity.
Defined.

Lemma selector_result_shape_witness :
  ArraySelect.shape sliceNode (JsStr.nth letters <$> [1; 2])
  = JArr [JStr "b"; JStr "c"].
Proof.
  apply (ArraySelectFacts.selector_result_shape sliceNode letters [1; 2]).
  - reflexivity.
  - right. cbn. lia.
Defined.

Lemma queue_accounts_for_every_message_witness :
  length (QueueSpec.inputsOf slowBurst)
  = (length (QueueCommon.sentAt primary
               (QueueCommon.run Queue1.step boundedCfg slowBurst
                  QueueCommon.initial).2)
     + length (QueueCommon.sentAt secondary
                 (QueueCommon.run Queue1.step boundedCfg slowBurst
                    QueueCommon.initial).2)
     + length (QueueCommon.queue
                 (QueueCommon.run Queue1.step boundedCfg slowBurst
                    QueueCommon.initial).1))%nat.
Proof.
  apply (QueueLaws.queue_accounts_for_every_message boundedCfg slowBurst).
  repeat constructor; discriminate.
Defined.

Lemma queue_interval_always_witness :
  QueueSpec.spaced 1000
    (fst <$> QueueCommon.sentAt primary
               (QueueCommon.run Queue1.step boundedCfg slowBurst
                  QueueCommon.initial).2)
  /\ QueueSpec.spaced 1000
       (fst <$> QueueCommon.sentAt primary
                  (QueueCommon.run Queue2.step boundedCfg slowBurst
                     QueueCommon.initial).2).
Proof.
  apply (QueueLaws.queue_interval_always boundedCfg slowBurst).
  cbn. lia.
Defined.

Lemma queue_forwards_fresh_only_witness :
  Forall (fun tm => exists t0, (QueueCommon.EInput tm.2, t0) ∈ slowBurst
                               /\ tm.1 - t0 < 50)
    (QueueCommon.sentAt primary
       (QueueCommon.run Queue1.step boundedCfg slowBurst
          QueueCommon.initial).2)
  /\ Forall (fun tm => exists t0, (QueueCommon.EInput tm.2, t0) ∈ slowBurst
                                  /\ tm.1 - t0 < 50)
       (QueueCommon.sentAt primary
          (QueueCommon.run Queue2.step boundedCfg slowBurst
             QueueCommon.initial).2).
Proof.
  apply (QueueLaws.queue_forwards_fresh_only boundedCfg slowBurst).
  reflexivity.
Defined.

Lemma queue_never_exceeds_capacity_witness :
  Z.of_nat (length (QueueCommon.queue
                      (QueueCommon.run Queue1.step capCfg burst
                         QueueCommon.initial).1)) <= 1
  /\ Z.of_nat (length (QueueCommon.queue
                         (QueueCommon.run Queue2.step capCfg burst
                            QueueCommon.initial).1)) <= 1.
Proof.
  apply (QueueLaws.queue_never_exceeds_capacity capCfg burst).
  reflexivity.
Defined.

Lemma queue_close_discards_witness :
  (let r := QueueCommon.run Queue1.step paceCfg
              [(QueueCommon.EClose, 10); (QueueCommon.EFire 1%nat, 101)]
              (QueueCommon.run Queue1.step paceCfg burst
                 QueueCommon.initial).1 in
   QueueCommon.queue r.1 = [] /\ QueueCommon.timer r.1 = None
   /\ pending (QueueCommon.timers r.1) = []
   /\ forall ch, QueueCommon.sentAt ch r.2 = [])
  /\ (let r := QueueCommon.run Queue2.step paceCfg
                 [(QueueCommon.EClose, 10); (QueueCommon.EFire 1%nat, 101)]
                 (QueueCommon.run Queue2.step paceCfg burst
                    QueueCommon.initial).1 in
      QueueCommon.queue r.1 = [] /\ QueueCommon.timer r.1 = None
      /\ pending (QueueCommon.timers r.1) = []
      /\ forall ch, QueueCommon.sentAt ch r.2 = []).
Proof.
  apply (QueueLaws.queue_close_discards paceCfg burst 10
           [(QueueCommon.EFire 1%nat, 101)]).
  repeat constructor. by exists 1%nat.
Defined.

Lemma queue_drops_are_flagged_witness :
  Forall (fun tm => QueueTrace.flagged boundedCfg tm.2)
    (QueueCommon.sentAt secondary
       (QueueCommon.run Queue1.step boundedCfg slowBurst
          QueueCommon.initial).2).
Proof.
  apply (QueueLaws.queue_drops_are_flagged boundedCfg slowBurst).
  repeat constructor; by left.
Defined.

Lemma indexed_items2 ev now :
  match ev with
  | ArrayOut.EInput msg => ArrayOutSpec.indexed msg
  | _ => True
  end ->
  ArrayOutSpec.indexedTrace (ArrayOutSpec.inputs items2 ++ [(ev, now)]).
Proof.
  intros Hev. apply Forall_app. split.
  - repeat (apply Forall_cons_2; [right; by eexists|]). apply Forall_nil_2.
  - apply Forall_cons_2; [done|apply Forall_nil_2].
Qed.

Lemma collector_slots_are_indices_witness :
  ArrayOut.strays
    (ArrayOut.run host cfg3 (ArrayOutSpec.inputs items2) ArrayOut.initial).1
  = []
  /\ 1 <= Z.of_nat
            (size (ArrayOut.collection
                     (ArrayOut.run host cfg3 (ArrayOutSpec.inputs items2)
                        ArrayOut.initial).1)) < 3.
Proof.
  destruct (ArrayOutLaws.collector_slots_are_indices host cfg3
              (ArrayOutSpec.inputs items2)) as [_ H].
  destruct H as [Hs Hp].
  - repeat (apply Forall_cons_2; [right; by eexists|]). apply Forall_nil_2.
  - split; [exact Hs|]. by apply Hp.
Defined.

Lemma timeout_report_is_partial_witness :
  exists m',
    sentOn secondary
      (ArrayOut.step host cfg3 (ArrayOut.EFire 1%nat) 1000
         (ArrayOut.run host cfg3 (ArrayOutSpec.inputs items2)
            ArrayOut.initial).1).2 = [m']
    /\ Js.getProp (Js.getProp m' "meta") "collectedCount" = JNum 2
    /\ ArrayOutTrace.partialReport cfg3 (Js.getProp m' "meta").
Proof.
  pose proof (ArrayOutLaws.timeout_report_is_partial host cfg3
                (ArrayOutSpec.inputs items2) (ArrayOut.EFire 1%nat) 1000)
    as H.
  eexists. split; [by vm_compute|]. split; [reflexivity|].
  assert (Hm : ArrayOutSpec.metaKept host cfg3).
  { intros m r m' o. unfold ArrayOutSpec.placed. cbn.
    intros [= <- <-]. by apply JsFacts.getProp_setProp_ne. }
  specialize (H Hm (indexed_items2 (ArrayOut.EFire 1%nat) 1000 I)).
  vm_compute sentOn in H. by apply Forall_cons_1 in H as [H _].
Defined.

Lemma completed_array_has_no_gap_witness :
  exists m',
    sentOn primary
      (ArrayOut.step host cfg3
         (ArrayOut.EInput (ArrayOut.tagged 2 (JStr "c"))) 60
         (ArrayOut.run host cfg3 (ArrayOutSpec.inputs items2)
            ArrayOut.initial).1).2 = [m']
    /\ Js.getProp m' "payload" = JArr [JStr "a"; JStr "b"; JStr "c"]
    /\ exists c,
         c = <[2 := JStr "c"]>
               (ArrayOutSpec.view
                  (ArrayOut.run host cfg3 (ArrayOutSpec.inputs items2)
                     ArrayOut.initial).1)
         /\ ArrayOutTrace.gapless cfg3 c (ArrayOut.buildResult cfg3 c).
Proof.
  pose proof (ArrayOutLaws.completed_array_has_no_gap host cfg3
                (ArrayOutSpec.inputs items2)
                (ArrayOut.EInput (ArrayOut.tagged 2 (JStr "c"))) 60)
    as H.
  eexists. split; [by vm_compute|]. split; [reflexivity|].
  eexists. split; [reflexivity|].
  assert (Hix : ArrayOutSpec.indexed (ArrayOut.tagged 2 (JStr "c"))).
  { right. by eexists. }
  specialize (H (indexed_items2 (ArrayOut.EInput (ArrayOut.tagged 2 (JStr "c")))
                   60 Hix)).
  vm_compute sentOn in H.
  apply Forall_cons_1 in H as [(msg & p & o' & Hev & Hp & _ & _ & Hg) _].
  injection Hev as <-. injection Hp as <-. exact Hg.
Defined.

Lemma collector_close_is_silent_witness :
  let r := ArrayOut.run host cfg3
             [(ArrayOut.EClose, 100); (ArrayOut.EFire 1%nat, 1000)]
             (ArrayOut.run host cfg3 (ArrayOutSpec.inputs items2)
                ArrayOut.initial).1 in
  ArrayOut.isCollecting r.1 = false
  /\ ArrayOut.collection r.1 = ∅
  /\ ArrayOut.strays r.1 = []
  /\ ArrayOut.timeoutHandle r.1 = None
  /\ outstanding ArrayOut.isHandleTimeout (ArrayOut.timers r.1) = []
  /\ forall ch, sentOn ch r.2 = [].
Proof.
  apply (ArrayOutLaws.collector_close_is_silent host cfg3
           (ArrayOutSpec.inputs items2) 100 [(ArrayOut.EFire 1%nat, 1000)]).
  repeat constructor. by exists 1%nat.
Defined.

Lemma timeout_counts_from_first_item_witness :
  exists hd t,
    ArrayOut.timeoutHandle
      (ArrayOut.run host cfg3 (ArrayOutSpec.inputs items2)
         ArrayOut.initial).1 = Some hd
    /\ Timers.find hd
         (ArrayOut.timers
            (ArrayOut.run host cfg3 (ArrayOutSpec.inputs items2)
               ArrayOut.initial).1) = Some t
    /\ callback t = ArrayOut.HandleTimeout
    /\ due t = 0 + Z.max 1 1000
    /\ ArrayOut.collectionStartTime
         (ArrayOut.run host cfg3 (ArrayOutSpec.inputs items2)
            ArrayOut.initial).1 = Some 0.
Proof.
  apply (ArrayOutLaws.timeout_counts_from_first_item host cfg3
           ArrayOut.initial (ArrayOut.tagged 1 (JStr "b")) 0
           [(ArrayOut.tagged 0 (JStr "a"), 50)]).
  - cbn. lia.
  - reflexivity.
  - apply ArrayOutFacts.initial_Idle.
  - repeat constructor; eexists; (split; [reflexivity|cbn; lia]).
  - by vm_compute.
Defined.

Lemma ignored_message_changes_nothing_witness :
  (ArrayOut.run host cfg3
     (ArrayOutSpec.inputs items2
      ++ (ArrayOut.EInput (ArrayOut.tagged 7 (JStr "x")), 70)
         :: [(ArrayOut.EFire 1%nat, 1000)])
     ArrayOut.initial).1
  = (ArrayOut.run host cfg3
       (ArrayOutSpec.inputs items2 ++ [(ArrayOut.EFire 1%nat, 1000)])
       ArrayOut.initial).1
  /\ forall ch,
       sentOn ch
         (ArrayOut.run host cfg3
            (ArrayOutSpec.inputs items2
             ++ (ArrayOut.EInput (ArrayOut.tagged 7 (JStr "x")), 70)
                :: [(ArrayOut.EFire 1%nat, 1000)])
            ArrayOut.initial).2
       = sentOn ch
           (ArrayOut.run host cfg3
              (ArrayOutSpec.inputs items2 ++ [(ArrayOut.EFire 1%nat, 1000)])
              ArrayOut.initial).2.
Proof.
  apply (ArrayOutLaws.ignored_message_changes_nothing host cfg3
           (ArrayOutSpec.inputs items2) [(ArrayOut.EFire 1%nat, 1000)]
           (ArrayOut.tagged 7 (JStr "x")) 70 ArrayOut.initial).
  reflexivity.
Defined.

Lemma tagged_message_is_read_back_witness :
  exists m',
    sentOn primary (ArrayIn.input host tagger (JObj [("payload", JStr "x")]))
    = [m']
    /\ ArrayOut.positionOf m' = Some 2
    /\ ArrayOut.dataOf m' = JStr "x".
Proof.
  pose proof (ArrayInLaws.tagged_message_is_read_back host tagger
                (JObj [("payload", JStr "x")])) as H.
  eexists. split; [reflexivity|].
  assert (Hp : Js.plainMeta (JObj [("payload", JStr "x")])).
  { split; [reflexivity|by left]. }
  apply H in Hp. apply Forall_cons_1 in Hp as [(p & read & Hres & Hread & _ & Hpos & Hdata & _) _].
  injection Hres as <-. injection Hread as <-.
  by split.
Defined.

Lemma extension_round_trip_witness :
  SaveFile.mapExtension "JPEG" = Some ("image"%string, Some "jpg"%string)
  /\ SaveFile.mapExtension (SaveFile.defaultExtension "image" "jpg")
     = Some ("image"%string, Some "jpg"%string).
Proof.
  split; [reflexivity|].
  apply (SaveFileFacts.extension_round_trip "JPEG" "image" (Some "jpg"%string)).
  reflexivity.
Defined.

Lemma alerts_respect_cooldown_witness :
  BlockDetectSpec.alertTimes
    (BlockDetect.run watchdog slowReadings (BlockDetect.initial 0)).2
  = [101000; 141000]
  /\ (30000 <= inject_Z (141000 - 101000))%Q.
Proof.
  split; [by vm_compute|].
  apply (BlockDetectFacts.alerts_respect_cooldown watchdog slowReadings 0
           0%nat 101000 141000); by vm_compute.
Defined.

Lemma alert_needs_consecutive_readings_witness :
  exists e,
    (BlockDetect.run watchdog slowReadings (BlockDetect.initial 0)).2 !! 6%nat
    = Some e
    /\ BlockDetectSpec.alerted e = true
    /\ 2 <= Z.of_nat 6 + 1
    /\ forall j, Z.of_nat 6 + 1 - 2 <= Z.of_nat j <= Z.of_nat 6 ->
         exists ej,
           (BlockDetect.run watchdog slowReadings (BlockDetect.initial 0)).2
             !! j = Some ej
           /\ BlockDetectSpec.overThreshold watchdog ej = true.
Proof.
  eexists. split; [by vm_compute|]. split; [by vm_compute|].
  eapply (BlockDetectFacts.alert_needs_consecutive_readings watchdog
            slowReadings 0 6%nat).
  - by vm_compute.
  - by vm_compute.
  - by vm_compute.
Defined.

End FurtherScenarios.

